(** * Family tree: transliteration-aware search, marriage ids, generations
    and admin edits

    A shallow embedding of the algorithmic core of the family-tree viewer:
    - [src/js/cognitive-search.js]  (class [CognitiveSearch]),
    - [src/unnamed/part_001]        (class [FamilyTreeGL]: [computeGeneration],
                                      [generateMarriageId]),
    - [src/js/admin-panel.js]       (class [AdminPanel]: [updatePerson],
                                      [deletePerson], [addPersonToTree]),
    - [src/js/family-tree-2d.js]    (class [FamilyTree2D], the tree that the
                                      application hands to the admin panel),
    - [src/QUICKSTART.md]           (class [DataConverter]: [parseCSVLine],
                                      [generatePersonId], [hashString],
                                      [isSamePerson], [addPerson],
                                      [validateRelationships]).

    Conventions.
    - A JavaScript string is the list of its UTF-16 code units ([list N]);
      [length], indexing, [includes], [===] and the regular expressions of
      the source (none carries the [u] flag) all work on code units.
    - Scores are JavaScript numbers.  Every score of the source is built
      from string lengths, an edit distance and the decimal constants of the
      code with [-], [/], [*] and [Math.max]; they are kept here as exact
      rationals ([Q]), compared with [==].
    - A plain object used as a dictionary ([{}]) is an association list in
      insertion order together with the property names it inherits from
      [Object.prototype]; a [Map] is a [gmap], or the list of its entries
      in insertion order where the code iterates over it.
    - [String.prototype.toLowerCase] is not code of the repository: the
      search functions take it as an argument. *)

From Stdlib Require Import List NArith ZArith QArith Qminmax Lia Lqa String
  Ascii Permutation Relations Sorted.
From stdpp Require Import gmap.
Import ListNotations.

Set Default Proof Using "Type".

(* ================================================================== *)
(** * JavaScript strings *)
(* ================================================================== *)

Module Js.

(** A code unit, and a string. *)
Abbreviation char := N (only parsing).
Abbreviation jsstring := (list N) (only parsing).

(** An ASCII literal of the source as a list of code units. *)
Definition lit (s : string) : jsstring :=
  List.map N_of_ascii (list_ascii_of_string s).
Arguments lit s%_string.

Definition SPACE : char := 0x20%N.

(** [s1 === s2] on strings. *)
Definition eqb (s1 s2 : jsstring) : bool := bool_decide (s1 = s2).

(** The class [\s] of a regular expression, which is also the set that
    [String.prototype.trim] strips: WhiteSpace and LineTerminator. *)
Definition isSpace (c : char) : bool :=
  ((0x09 <=? c) && (c <=? 0x0D) || (c =? 0x20) || (c =? 0xA0)
   || (c =? 0x1680) || (0x2000 <=? c) && (c <=? 0x200A)
   || (c =? 0x2028) || (c =? 0x2029) || (c =? 0x202F) || (c =? 0x205F)
   || (c =? 0x3000) || (c =? 0xFEFF))%N.

Fixpoint trimStart (s : jsstring) : jsstring :=
  match s with
  | c :: r => if isSpace c then trimStart r else s
  | [] => []
  end.

Definition trimEnd (s : jsstring) : jsstring := rev (trimStart (rev s)).

(** [s.trim()] *)
Definition trim (s : jsstring) : jsstring := trimEnd (trimStart s).

Fixpoint startsWith (s p : jsstring) : bool :=
  match p, s with
  | [], _ => true
  | _ :: _, [] => false
  | a :: p', b :: s' => (a =? b)%N && startsWith s' p'
  end.

(** [s.includes(sub)]: [sub] occurs in [s] as a contiguous block. *)
Fixpoint includes (s sub : jsstring) : bool :=
  startsWith s sub ||
  match s with
  | [] => false
  | _ :: r => includes r sub
  end.

(** [s.replace(/[...]/g, to)] for a character class given as a predicate
    and a one-unit replacement. *)
Definition replaceClass (cls : char -> bool) (to : char) (s : jsstring)
  : jsstring :=
  List.map (fun c => if cls c then to else c) s.

(** [s.replace(/[...]/g, '')] *)
Definition removeClass (cls : char -> bool) (s : jsstring) : jsstring :=
  List.filter (fun c => negb (cls c)) s.

(** [s.replace(/\s+/g, ' ')]: every maximal run of white space becomes
    one U+0020. *)
Fixpoint replaceSpaces (s : jsstring) : jsstring :=
  match s with
  | [] => []
  | c :: r =>
      if isSpace c then
        match r with
        | c' :: _ => if isSpace c' then replaceSpaces r
                     else SPACE :: replaceSpaces r
        | [] => [SPACE]
        end
      else c :: replaceSpaces r
  end.

(** [s.split(/\s+/)]: the pieces between the maximal runs of white space
    (the first and the last piece may be empty). *)
Fixpoint splitSpaces (s : jsstring) : list jsstring :=
  match s with
  | [] => [[]]
  | c :: r =>
      if isSpace c then
        match r with
        | c' :: _ => if isSpace c' then splitSpaces r else [] :: splitSpaces r
        | [] => [[]; []]
        end
      else
        match splitSpaces r with
        | piece :: pieces => (c :: piece) :: pieces
        | [] => [[c]]
        end
  end.

(** [xs.filter(Boolean)] on an array of strings: the empty string is the
    only falsy string. *)
Definition filterBoolean (xs : list jsstring) : list jsstring :=
  List.filter (fun x => negb (eqb x [])) xs.

(** Default order of [Array.prototype.sort] on strings: code unit by code
    unit, a proper prefix first. *)
Fixpoint ltb (s1 s2 : jsstring) : bool :=
  match s1, s2 with
  | [], [] => false
  | [], _ :: _ => true
  | _ :: _, [] => false
  | a :: r1, b :: r2 => (a <? b)%N || (a =? b)%N && ltb r1 r2
  end.

(** [Array.from(new Set(xs))]: first occurrences, in insertion order. *)
Fixpoint dedupe_from (seen : list jsstring) (xs : list jsstring)
  : list jsstring :=
  match xs with
  | [] => []
  | x :: r =>
      if existsb (eqb x) seen then dedupe_from seen r
      else x :: dedupe_from (x :: seen) r
  end.

Definition arrayFromSet (xs : list jsstring) : list jsstring :=
  dedupe_from [] xs.

(** [xs.slice(0, n)] *)
Definition slice0 {A} (n : nat) (xs : list A) : list A := firstn n xs.

(** ** Plain objects as dictionaries *)

(** The property names every plain object inherits from
    [Object.prototype] (with the legacy accessors every browser ships). *)
Definition objectPrototypeKeys : list jsstring :=
  List.map lit
    [ "constructor"; "hasOwnProperty"; "isPrototypeOf";
      "propertyIsEnumerable"; "toLocaleString"; "toString"; "valueOf";
      "__proto__"; "__defineGetter__"; "__defineSetter__";
      "__lookupGetter__"; "__lookupSetter__" ]%string.

(** Result of reading [obj[key]]. *)
Inductive property (V : Type) : Type :=
| Own (v : V)      (* an own property of the object literal *)
| Inherited        (* a member of [Object.prototype]: truthy, not a [V] *)
| Undefined.
Arguments Own {V} v.
Arguments Inherited {V}.
Arguments Undefined {V}.

Fixpoint assoc {V} (own : list (jsstring * V)) (key : jsstring) : option V :=
  match own with
  | [] => None
  | (k, v) :: r => if eqb k key then Some v else assoc r key
  end.

Definition get {V} (own : list (jsstring * V)) (key : jsstring) : property V :=
  match assoc own key with
  | Some v => Own v
  | None => if existsb (eqb key) objectPrototypeKeys then Inherited
            else Undefined
  end.

(** ** Completions *)

(** A call either returns a value or throws (here always the [TypeError]
    of iterating or calling something that is not what the code
    expects). *)
Inductive completion (A : Type) : Type :=
| Normal (a : A)
| Throw.
Arguments Normal {A} a.
Arguments Throw {A}.

Definition bind {A B} (c : completion A) (k : A -> completion B)
  : completion B :=
  match c with
  | Normal a => k a
  | Throw => Throw
  end.

(** The state of a function body with early [return]s. *)
Inductive flow (A : Type) : Type :=
| Continue          (* fell through to the next statement *)
| Return (a : A)    (* executed [return a] *)
| Raise.            (* threw *)
Arguments Continue {A}.
Arguments Return {A} a.
Arguments Raise {A}.

Definition seq {A} (s1 s2 : flow A) : flow A :=
  match s1 with
  | Continue => s2
  | _ => s1
  end.

(** [for (const x of xs) body(x)] where the body may [return]. *)
Fixpoint forOf {A X} (xs : list X) (body : X -> flow A) : flow A :=
  match xs with
  | [] => Continue
  | x :: r => seq (body x) (forOf r body)
  end.

(** A body that ends in [return dflt]. *)
Definition run {A} (s : flow A) (dflt : A) : completion A :=
  match s with
  | Continue => Normal dflt
  | Return a => Normal a
  | Raise => Throw
  end.

End Js.

Infix ">>>" := Js.seq (at level 62, right associativity).

(* ================================================================== *)
(** * Arabic letters used by the source (code units) *)
(* ================================================================== *)

Module Ar.
Definition HAMZA : Js.char := 0x0621%N.
Definition ALEF_MADDA : Js.char := 0x0622%N.
Definition ALEF_HAMZA_ABOVE : Js.char := 0x0623%N.
Definition WAW_HAMZA : Js.char := 0x0624%N.
Definition ALEF_HAMZA_BELOW : Js.char := 0x0625%N.
Definition YEH_HAMZA : Js.char := 0x0626%N.
Definition ALEF : Js.char := 0x0627%N.
Definition BEH : Js.char := 0x0628%N.
Definition TEH_MARBUTA : Js.char := 0x0629%N.
Definition TEH : Js.char := 0x062A%N.
Definition THEH : Js.char := 0x062B%N.
Definition JEEM : Js.char := 0x062C%N.
Definition HAH : Js.char := 0x062D%N.
Definition KHAH : Js.char := 0x062E%N.
Definition DAL : Js.char := 0x062F%N.
Definition THAL : Js.char := 0x0630%N.
Definition REH : Js.char := 0x0631%N.
Definition ZAIN : Js.char := 0x0632%N.
Definition SEEN : Js.char := 0x0633%N.
Definition SHEEN : Js.char := 0x0634%N.
Definition SAD : Js.char := 0x0635%N.
Definition DAD : Js.char := 0x0636%N.
Definition TAH : Js.char := 0x0637%N.
Definition ZAH : Js.char := 0x0638%N.
Definition AIN : Js.char := 0x0639%N.
Definition GHAIN : Js.char := 0x063A%N.
Definition FEH : Js.char := 0x0641%N.
Definition QAF : Js.char := 0x0642%N.
Definition KAF : Js.char := 0x0643%N.
Definition LAM : Js.char := 0x0644%N.
Definition MEEM : Js.char := 0x0645%N.
Definition NOON : Js.char := 0x0646%N.
Definition HEH : Js.char := 0x0647%N.
Definition WAW : Js.char := 0x0648%N.
Definition ALEF_MAKSURA : Js.char := 0x0649%N.
Definition YEH : Js.char := 0x064A%N.
End Ar.

(* ================================================================== *)
(** * The data model shared by the modules *)
(* ================================================================== *)

Module Model.
Import Js.

Inductive Gender := GenderM | GenderF | GenderUnknown.

(** A reference to another person: [null] or an id string. *)
Definition ref := option jsstring.

Record Person := mkPerson {
  id : jsstring;
  name : jsstring;
  altNames : list jsstring;
  gender : Gender;
  birthYear : option Z;
  deathYear : option Z;
  fatherId : ref;
  motherId : ref;
  spouseIds : option (list jsstring);   (* [None]: the field is absent *)
  sourceRefs : list jsstring
}.

Record Marriage := mkMarriage {
  mid : jsstring;
  spouse1Id : jsstring;
  spouse2Id : jsstring;
  children : list jsstring
}.

(** [{ people, aliases, marriages }] *)
Record Data := mkData {
  people : list Person;
  aliases : list (jsstring * jsstring);
  marriages : list Marriage
}.

(** Truthiness of a reference: [null] and the empty string are falsy. *)
Definition truthy (r : ref) : bool :=
  match r with
  | Some (_ :: _) => true
  | _ => false
  end.

(** [r === s] for a reference [r] and a string [s]. *)
Definition refIs (r : ref) (s : jsstring) : bool :=
  match r with
  | Some x => eqb x s
  | None => false
  end.

End Model.

(* ================================================================== *)
(** * [class CognitiveSearch] (src/js/cognitive-search.js) *)
(* ================================================================== *)

Module CognitiveSearch.
Import Js Ar Model.

(** ** The constructor: the two dictionaries *)

Definition arabicToEnglish : list (jsstring * list jsstring) :=
  [ ([ALEF_HAMZA_ABOVE; HAH; MEEM; DAL],
     [lit "ahmed"; lit "ahmad"; lit "ahmet"]);
    ([MEEM; HAH; MEEM; DAL],
     [lit "mohammed"; lit "muhammad"; lit "mohamed"; lit "mohammad"]);
    ([AIN; LAM; YEH],
     [lit "ali"; lit "aly"]);
    ([HAH; SEEN; NOON],
     [lit "hassan"; lit "hasan"]);
    ([HAH; SEEN; YEH; NOON],
     [lit "hussein"; lit "husain"; lit "husayn"]);
    ([AIN; BEH; DAL; ALEF; LAM; LAM; HEH],
     [lit "abdullah"; lit "abdallah"; lit "abd allah"]);
    ([AIN; BEH; DAL; ALEF; LAM; REH; HAH; MEEM; NOON],
     [lit "abdulrahman"; lit "abdurrahman"; lit "abd al rahman"]);
    ([AIN; BEH; DAL; ALEF; LAM; AIN; ZAIN; YEH; ZAIN],
     [lit "abdulaziz"; lit "abdul aziz"; lit "abd al aziz"]);
    ([FEH; ALEF; TAH; MEEM; TEH_MARBUTA],
     [lit "fatima"; lit "fatimah"; lit "fatma"]);
    ([AIN; ALEF; YEH_HAMZA; SHEEN; TEH_MARBUTA],
     [lit "aisha"; lit "aishah"; lit "ayesha"]);
    ([KHAH; DAL; YEH; JEEM; TEH_MARBUTA],
     [lit "khadija"; lit "khadijah"; lit "khadiga"]);
    ([MEEM; REH; YEH; MEEM],
     [lit "maryam"; lit "mary"; lit "mariam"]);
    ([ZAIN; YEH; NOON; BEH],
     [lit "zainab"; lit "zaynab"; lit "zeinab"]);
    ([SEEN; ALEF; REH; TEH_MARBUTA],
     [lit "sara"; lit "sarah"]);
    ([NOON; WAW; REH],
     [lit "noor"; lit "nur"; lit "nour"]);
    ([SEEN; LAM; YEH; MEEM; ALEF; NOON],
     [lit "soliman"; lit "sulaiman"; lit "suleiman"]);
    ([DAL; ALEF; WAW; DAL],
     [lit "dawood"; lit "dawud"; lit "david"]);
    ([ALEF_HAMZA_BELOW; BEH; REH; ALEF; HEH; YEH; MEEM],
     [lit "ibrahim"; lit "ibraheem"; lit "abraham"]);
    ([ALEF_HAMZA_BELOW; SEEN; MEEM; ALEF; AIN; YEH; LAM],
     [lit "ismail"; lit "ismael"]);
    ([YEH; WAW; SEEN; FEH],
     [lit "yusuf"; lit "yousef"; lit "joseph"]);
    ([AIN; MEEM; REH],
     [lit "omar"; lit "umar"; lit "omer"]);
    ([AIN; THEH; MEEM; ALEF; NOON],
     [lit "othman"; lit "uthman"; lit "osman"]);
    ([ALEF_HAMZA_ABOVE; SHEEN; REH; FEH],
     [lit "ashraf"; lit "ashraaf"; lit "ashraff"]);
    ([AIN; BEH; DAL; ALEF; LAM; LAM; TAH; YEH; FEH],
     [lit "abdullatif"; lit "abdul latif"]);
    ([AIN; BEH; DAL; ALEF; LAM; SEEN; LAM; ALEF; MEEM],
     [lit "abdulsalam"; lit "abdul salam"]);
    ([AIN; BEH; DAL; ALEF; LAM; GHAIN; NOON; YEH],
     [lit "abdulghani"; lit "abdul ghani"]);
    ([AIN; BEH; DAL; ALEF; LAM; WAW; HEH; ALEF; BEH],
     [lit "abdulwahab"; lit "abdul wahab"]);
    ([AIN; BEH; DAL; ALEF; LAM; MEEM; NOON; AIN; MEEM],
     [lit "abdulmunim"; lit "abdul munim"]);
    ([AIN; BEH; DAL; ALEF; LAM; MEEM; JEEM; YEH; DAL],
     [lit "abdulmajid"; lit "abdul majid"]);
    ([AIN; BEH; DAL; ALEF; LAM; FEH; TEH; ALEF; HAH],
     [lit "abdulfattah"; lit "abdul fattah"]);
    ([AIN; BEH; DAL; ALEF; LAM; REH; ZAIN; ALEF; QAF],
     [lit "abdulrazzaq"; lit "abdul razzaq"]);
    ([AIN; BEH; DAL; ALEF; LAM; SEEN; TEH; ALEF; REH],
     [lit "abdulsattar"; lit "abdul sattar"]);
    ([AIN; BEH; DAL; ALEF; LAM; GHAIN; FEH; ALEF; REH],
     [lit "abdulghaffar"; lit "abdul ghaffar"]);
    ([AIN; BEH; DAL; ALEF; LAM; REH; HAH; YEH; MEEM],
     [lit "abdulrahim"; lit "abdul rahim"]);
    ([AIN; BEH; DAL; ALEF; LAM; KHAH; ALEF; LAM; QAF],
     [lit "abdulkhaliq"; lit "abdul khaliq"]);
    ([AIN; BEH; DAL; ALEF; LAM; WAW; ALEF; HAH; DAL],
     [lit "abdulwahid"; lit "abdul wahid"]);
    ([AIN; BEH; DAL; ALEF; LAM; REH; WAW_HAMZA; WAW; FEH],
     [lit "abdulrauf"; lit "abdul rauf"]) ].

(** The three tables local to [buildArabicCandidatesFromEnglish], which
    passes them to [transliterateToken]. *)

(** Numeral map used in Arabizi. *)
Definition digitMap : list (jsstring * list jsstring) :=
  [ (lit "2", [[HAMZA]; [ALEF]]); (lit "3", [[AIN]]);
    (lit "5", [[KHAH]]); (lit "6", [[TAH]]); (lit "7", [[HAH]]);
    (lit "8", [[GHAIN]; [JEEM]]); (lit "9", [[SAD]; [DAD]]) ].

Definition digraphMap : list (jsstring * list jsstring) :=
  [ (lit "sh", [[SHEEN]]); (lit "ch", [[TEH; SHEEN]; [SHEEN]]);
    (lit "kh", [[KHAH]]); (lit "th", [[THEH]; [THAL]]);
    (lit "dh", [[THAL]]); (lit "gh", [[GHAIN]]); (lit "ph", [[FEH]]);
    (lit "aa", [[ALEF]; []]); (lit "ee", [[YEH]]); (lit "oo", [[WAW]]);
    (lit "ou", [[WAW]]); (lit "ow", [[WAW]]);
    (lit "ai", [[YEH]; [ALEF]]); (lit "ay", [[YEH]]);
    (lit "ea", [[YEH]; [ALEF]]); (lit "ie", [[YEH]]) ].

Definition singleMap : list (jsstring * list jsstring) :=
  [ (lit "a", [[ALEF]; []]); (lit "b", [[BEH]]);
    (lit "c", [[KAF]; [SEEN]]); (lit "d", [[DAL]]);
    (lit "e", [[YEH]; []]); (lit "f", [[FEH]]);
    (lit "g", [[JEEM]; [GHAIN]; [QAF]]); (lit "h", [[HEH]; [HAH]]);
    (lit "i", [[YEH]]); (lit "j", [[JEEM]]); (lit "k", [[KAF]]);
    (lit "l", [[LAM]]); (lit "m", [[MEEM]]); (lit "n", [[NOON]]);
    (lit "o", [[WAW]; []]); (lit "p", [[BEH]]); (lit "q", [[QAF]]);
    (lit "r", [[REH]]); (lit "s", [[SEEN]; [SAD]]);
    (lit "t", [[TEH]; [TAH]]); (lit "u", [[WAW]; []]);
    (lit "v", [[FEH]]); (lit "w", [[WAW]]);
    (lit "x", [[KAF; SEEN]; [ZAIN]]); (lit "y", [[YEH]; []]);
    (lit "z", [[ZAIN]; [THAL]]) ].


(** [if (!obj[english]) obj[english] = []; obj[english].push(arabic)] *)
Fixpoint pushTo (obj : list (jsstring * list jsstring))
    (english arabic : jsstring) : list (jsstring * list jsstring) :=
  match obj with
  | [] => [(english, [arabic])]
  | (k, arr) :: r =>
      if eqb k english then (k, arr ++ [arabic]) :: r
      else (k, arr) :: pushTo r english arabic
  end.

Definition addReverse (obj : list (jsstring * list jsstring))
    (english arabic : jsstring)
  : completion (list (jsstring * list jsstring)) :=
  match get obj english with
  | Inherited => Throw      (* [.push] of an inherited member *)
  | _ => Normal (pushTo obj english arabic)
  end.

(** The loop of the constructor that builds the reverse mapping. *)
Definition buildEnglishToArabic
  : completion (list (jsstring * list jsstring)) :=
  fold_left
    (fun acc entry =>
       fold_left
         (fun acc' english =>
            bind acc' (fun obj => addReverse obj english (fst entry)))
         (snd entry) acc)
    arabicToEnglish (Normal []).

Definition englishToArabic : list (jsstring * list jsstring) :=
  match buildEnglishToArabic with
  | Normal obj => obj
  | Throw => []
  end.

(** ** [isArabic] *)

Definition isArabicUnit (c : char) : bool :=
  ((0x0600 <=? c) && (c <=? 0x06FF) || (0x0750 <=? c) && (c <=? 0x077F)
   || (0x08A0 <=? c) && (c <=? 0x08FF) || (0xFB50 <=? c) && (c <=? 0xFDFF)
   || (0xFE70 <=? c) && (c <=? 0xFEFF))%N.

Definition isArabic (text : jsstring) : bool := existsb isArabicUnit text.

(** ** [normalizeText] *)

Definition isAlefVariant (c : char) : bool :=
  ((c =? ALEF_HAMZA_ABOVE) || (c =? ALEF_HAMZA_BELOW) || (c =? ALEF_MADDA))%N.
Definition isYaaVariant (c : char) : bool :=
  ((c =? ALEF_MAKSURA) || (c =? YEH))%N.
Definition isTaaVariant (c : char) : bool :=
  ((c =? TEH_MARBUTA) || (c =? HEH))%N.
Definition isWawVariant (c : char) : bool :=
  ((c =? WAW_HAMZA) || (c =? YEH_HAMZA))%N.
Definition isHamza (c : char) : bool := (c =? HAMZA)%N.

Definition normalizeText (text : jsstring) : jsstring :=
  trim
    (replaceSpaces
       (removeClass isHamza
          (replaceClass isWawVariant WAW
             (replaceClass isTaaVariant HEH
                (replaceClass isYaaVariant YEH
                   (replaceClass isAlefVariant ALEF text)))))).

(** ** [levenshteinDistance] *)

(** [Math.min(a, b, c)] on the natural numbers of the matrix. *)
Definition min3 (a b c : nat) : nat := Nat.min a (Nat.min b c).

(** The inner loop for one row [i]: [c2] is [str2.charAt(i - 1)], [s1] the
    rest of [str1] from column [j], [prev] the row [i - 1] from column
    [j - 1], and [left] is [matrix[i][j - 1]]. *)
Fixpoint fillRow (c2 : char) (s1 : jsstring) (prev : list nat) (left : nat)
  : list nat :=
  match s1, prev with
  | c1 :: s1', diag :: ((up :: _) as prev') =>
      let cell :=
        if (c2 =? c1)%N then diag
        else min3 (diag + 1) (left + 1) (up + 1) in
      cell :: fillRow c2 s1' prev' cell
  | _, _ => []
  end.

(** Row [i] from row [i - 1]; its column 0 holds [i]. *)
Definition nextRow (str1 : jsstring) (prev : list nat) (i : nat) (c2 : char)
  : list nat :=
  i :: fillRow c2 str1 prev i.

(** The rows of the matrix from row [i - 1] on, for the rest of [str2]. *)
Fixpoint rowsFrom (str1 str2 : jsstring) (prev : list nat) (i : nat)
  : list nat :=
  match str2 with
  | [] => prev
  | c2 :: rest => rowsFrom str1 rest (nextRow str1 prev i c2) (S i)
  end.

Definition levenshteinDistance (str1 str2 : jsstring) : nat :=
  let row0 := List.seq 0 (S (length str1)) in
  List.last (rowsFrom str1 str2 row0 1) 0%nat.

(** ** [getTextSimilarity] *)

Definition ofNat (n : nat) : Q := inject_Z (Z.of_nat n).

Definition getTextSimilarity (str1 str2 : jsstring) : Q :=
  if eqb str1 str2 then 1
  else if (length str1 =? 0)%nat then 0
  else if (length str2 =? 0)%nat then 0
  else
    let distance := levenshteinDistance str1 str2 in
    let maxLength := Nat.max (length str1) (length str2) in
    1 - ofNat distance / ofNat maxLength.

Local Open Scope Q_scope.

(** [a > b] on scores. *)
Definition gtb (a b : Q) : bool := negb (Qle_bool a b).

(** ** [transliterateToken] *)

Section Expand.
(** The doubly nested loop shared by [transliterateToken] and
    [buildArabicCandidatesFromEnglish]:
    [for (base of bases) {
       for (opt of options) {
         next.push(combine(base, opt)); if (next.length > cap) break; }
       if (next.length > cap) break; }] *)
Variable combine : jsstring -> jsstring -> jsstring.
Variable cap : nat.

Fixpoint pushEach (base : jsstring) (options next : list jsstring)
  : list jsstring :=
  match options with
  | [] => next
  | opt :: r =>
      let next' := next ++ [combine base opt] in
      if (cap <? length next')%nat then next'
      else pushEach base r next'
  end.

Fixpoint expandLoop (bases options next : list jsstring) : list jsstring :=
  match bases with
  | [] => next
  | base :: r =>
      let next' := pushEach base options next in
      if (cap <? length next')%nat then next'
      else expandLoop r options next'
  end.

(** [options] may be a member of [Object.prototype]: iterating it
    throws, which happens as soon as the outer loop has one base. *)
Definition expand (bases : list jsstring)
    (options : property (list jsstring)) : completion (list jsstring) :=
  match options with
  | Own opts => Normal (expandLoop bases opts [])
  | Undefined | Inherited =>
      match bases with
      | [] => Normal []
      | _ :: _ => Throw
      end
  end.
End Expand.

Section Transliterate.
Variables digitMap digraphMap singleMap : list (jsstring * list jsstring).

(** The [if]/[else if]/[else] that selects [options] at index [i]:
    [ch] is [token[i]] and [next] the following code unit, if any.
    The second component is the increment of [i]. *)
Definition chooseOptions (ch : char) (next : option char)
  : property (list jsstring) * nat :=
  match get digitMap [ch] with
  | Undefined =>
      match (match next with
             | Some ch2 => get digraphMap [ch; ch2]
             | None => Undefined
             end) with
      | Undefined =>
          (match get singleMap [ch] with
           | Undefined => Own [[ch]]
           | o => o
           end, 1%nat)
      | o => (o, 2%nat)
      end
  | o => (o, 1%nat)
  end.

(** The [while (i < token.length)] loop, on the rest of the token. *)
Fixpoint transliterateLoop (rest : jsstring) (variants : list jsstring)
  : completion (list jsstring) :=
  match rest with
  | [] => Normal variants
  | ch :: rest1 =>
      let '(options, step) := chooseOptions ch (head rest1) in
      match expand (fun base opt => base ++ opt) 120 variants options with
      | Throw => Throw
      | Normal next =>
          match step, rest1 with
          | 2%nat, _ :: rest2 => transliterateLoop rest2 next
          | _, _ => transliterateLoop rest1 next
          end
      end
  end.

Definition transliterateToken (token : jsstring)
  : completion (list jsstring) :=
  bind (transliterateLoop token [[]])
    (fun variants => Normal (slice0 60 (arrayFromSet variants))).
End Transliterate.

(** ** [buildArabicCandidatesFromEnglish] *)

(** [tokens.map(f)] for an [f] that may throw. *)
Fixpoint mapM {A B} (f : A -> completion B) (xs : list A)
  : completion (list B) :=
  match xs with
  | [] => Normal []
  | x :: r => bind (f x) (fun y => bind (mapM f r) (fun ys => Normal (y :: ys)))
  end.

(** [(base ? base + ' ' : '') + v] *)
Definition joinToken (base v : jsstring) : jsstring :=
  (match base with
   | [] => []
   | _ :: _ => base ++ [SPACE]
   end) ++ v.

(** The loop that combines the variants across tokens. *)
Definition combineTokens (tokenVariants : list (list jsstring))
  : list jsstring :=
  fold_left (fun results variants => expandLoop joinToken 80 results variants [])
    tokenVariants [[]].

Section Lower.
Variable toLowerCase : jsstring -> jsstring.

Definition buildArabicCandidatesFromEnglish (englishQuery : jsstring)
  : completion (list jsstring) :=
  match englishQuery with
  | [] => Normal []
  | _ :: _ =>
      let query := trim (toLowerCase englishQuery) in
      let tokens := filterBoolean (splitSpaces query) in
      bind (mapM (transliterateToken digitMap digraphMap singleMap) tokens)
        (fun tokenVariants =>
           let results := combineTokens tokenVariants in
           let results :=
             match results with
             | [] => [query]
             | _ :: _ => results
             end in
           Normal (slice0 100 (arrayFromSet results)))
  end.

(** ** [getTransliterationScore] *)

(** The body of the loop over the dictionary variants of the name. *)
Definition dictionaryStep (query variant : jsstring) : flow Q :=
  let similarity := getTextSimilarity query variant in
  if gtb similarity (6 # 10) then Return similarity
  else if includes variant query || includes query variant
       then Return (8 # 10)
       else Continue.

(** The body of the loop over the generated Arabic candidates. *)
Definition candidateStep (arabicName cand : jsstring) : flow Q :=
  let similarity :=
    getTextSimilarity (normalizeText cand) (normalizeText arabicName) in
  if gtb similarity (65 # 100) then Return similarity
  else if includes (normalizeText arabicName) (normalizeText cand)
       then Return (85 # 100)
       else Continue.

(** The body of the loop over the Arabic names listed for the query. *)
Definition reverseStep (arabicName variant : jsstring) : flow Q :=
  let similarity := getTextSimilarity variant arabicName in
  if gtb similarity (6 # 10) then Return similarity
  else if includes variant arabicName || includes arabicName variant
       then Return (8 # 10)
       else Continue.

(** The body of the inner loop of the last, partial-match pass. *)
Definition partialStep (query arabicName arabic variant : jsstring)
  : flow Q :=
  if includes variant query || includes query variant then
    let similarity := getTextSimilarity arabic arabicName in
    if gtb similarity (5 # 10) then Return (similarity * (9 # 10))
    else Continue
  else Continue.

(** 1) Dictionary-based (quick path) *)
Definition dictionaryPath (query arabicName : jsstring) : flow Q :=
  match get arabicToEnglish arabicName with
  | Own englishVariants => forOf englishVariants (dictionaryStep query)
  | Inherited => Raise
  | Undefined => Continue
  end.

(** 2) Algorithmic transliteration (general case) *)
Definition generativePath (query arabicName : jsstring) : flow Q :=
  match buildArabicCandidatesFromEnglish query with
  | Normal arCandidates => forOf arCandidates (candidateStep arabicName)
  | Throw => Raise
  end.

(** "Check if query is Arabic and name has English variants" *)
Definition reversePath (query arabicName : jsstring) : flow Q :=
  if negb (isArabic query) then
    match get englishToArabic query with
    | Own arabicVariants => forOf arabicVariants (reverseStep arabicName)
    | Inherited => Raise
    | Undefined => Continue
    end
  else Continue.

(** "Check reverse mapping for partial matches" *)
Definition partialPath (query arabicName : jsstring) : flow Q :=
  forOf arabicToEnglish
    (fun entry =>
       forOf (snd entry) (partialStep query arabicName (fst entry))).

Definition getTransliterationScore (query arabicName : jsstring)
  : completion Q :=
  run
    ((if isArabic arabicName && negb (isArabic query)
      then dictionaryPath query arabicName >>> generativePath query arabicName
      else Continue)
     >>> reversePath query arabicName
     >>> partialPath query arabicName)
    0.

(** ** [calculateMatchScore] *)

(** One round of the loop over [person.altNames]. *)
Definition altNameStep (query : jsstring) (maxScore : Q) (altName : jsstring)
  : Q :=
  let altScore := getTextSimilarity query (normalizeText (toLowerCase altName)) in
  let maxScore := Qmax maxScore (altScore * (8 # 10)) in
  let normalizedAlt := normalizeText (toLowerCase altName) in
  if includes normalizedAlt query || includes query normalizedAlt
  then Qmax maxScore (85 # 100)
  else maxScore.

(** The score of the primary name alone. *)
Definition nameScore (query : jsstring) (person : Person) : Q :=
  getTextSimilarity query (normalizeText (toLowerCase (name person))).

Definition calculateMatchScore (query : jsstring) (person : Person)
  : completion Q :=
  let maxScore := 0 in
  let maxScore := Qmax maxScore (nameScore query person) in
  let normalizedName := normalizeText (toLowerCase (name person)) in
  let maxScore :=
    if includes normalizedName query || includes query normalizedName
    then Qmax maxScore (9 # 10)
    else maxScore in
  let maxScore := fold_left (altNameStep query) (altNames person) maxScore in
  bind (getTransliterationScore query (name person))
    (fun transliterationScore =>
       Normal (Qmax maxScore transliterationScore)).

(** ** [getMatchType] *)

Inductive MatchType :=
| ExactArabicMatch                 (* 'Exact Arabic Match' *)
| EnglishToArabicTransliteration   (* 'English to Arabic Transliteration' *)
| ArabicToEnglishTransliteration   (* 'Arabic to English Transliteration' *)
| EnglishMatch.                    (* 'English Match' *)

Definition getMatchType (query : jsstring) (person : Person) : MatchType :=
  if isArabic query && isArabic (name person) then ExactArabicMatch
  else if negb (isArabic query) && isArabic (name person)
  then EnglishToArabicTransliteration
  else if isArabic query && negb (isArabic (name person))
  then ArabicToEnglishTransliteration
  else EnglishMatch.

(** ** [search] *)

Record Result := mkResult {
  person : Person;
  score : Q;
  matchType : MatchType
}.

(** [results.sort((a, b) => b.score - a.score)]: the sort is stable, so
    an element goes in front of the first one that the comparator puts
    after it. *)
Fixpoint insertResult (x : Result) (sorted : list Result) : list Result :=
  match sorted with
  | [] => [x]
  | y :: r =>
      if gtb (score x - score y) 0 then x :: y :: r
      else y :: insertResult x r
  end.

Definition sortResults (results : list Result) : list Result :=
  fold_left (fun sorted x => insertResult x sorted) results [].

(** The loop over [people], which pushes to [results]. *)
Fixpoint collect (normalizedQuery : jsstring) (people : list Person)
    (results : list Result) : completion (list Result) :=
  match people with
  | [] => Normal results
  | p :: r =>
      bind (calculateMatchScore normalizedQuery p)
        (fun s =>
           collect normalizedQuery r
             (if gtb s 0
              then results ++ [mkResult p s (getMatchType normalizedQuery p)]
              else results))
  end.

Definition search (query : jsstring) (people : list Person)
  : completion (list Result) :=
  if eqb query [] || eqb (trim query) [] then Normal []
  else
    let normalizedQuery := normalizeText (toLowerCase (trim query)) in
    bind (collect normalizedQuery people [])
      (fun results => Normal (sortResults results)).

(** ** [getSuggestions] *)

(** [suggestions.add(x)] on a [Set] of strings, kept in insertion order. *)
Definition setAdd (suggestions : list jsstring) (x : jsstring)
  : list jsstring :=
  if existsb (eqb x) suggestions then suggestions else suggestions ++ [x].

(** The loop over [person.altNames]. *)
Definition suggestAltNames (normalizedQuery : jsstring)
    (alts : list jsstring) (suggestions : list jsstring) : list jsstring :=
  fold_left
    (fun suggestions altName =>
       let normalizedAlt := normalizeText (toLowerCase altName) in
       if includes normalizedAlt normalizedQuery
       then setAdd suggestions altName
       else suggestions)
    alts suggestions.

(** The block "Check transliterations". *)
Definition suggestVariants (normalizedQuery : jsstring) (person : Person)
    (suggestions : list jsstring) : completion (list jsstring) :=
  if isArabic (name person) then
    match get arabicToEnglish (name person) with
    | Own englishVariants =>
        Normal
          (fold_left
             (fun suggestions variant =>
                if includes (toLowerCase variant) normalizedQuery
                then setAdd suggestions variant
                else suggestions)
             englishVariants suggestions)
    | Inherited => Throw
    | Undefined => Normal suggestions
    end
  else Normal suggestions.

(** The body of the loop over [people]. *)
Definition suggestPerson (normalizedQuery : jsstring) (person : Person)
    (suggestions : list jsstring) : completion (list jsstring) :=
  let normalizedName := normalizeText (toLowerCase (name person)) in
  let suggestions :=
    if includes normalizedName normalizedQuery
    then setAdd suggestions (name person)
    else suggestions in
  let suggestions :=
    suggestAltNames normalizedQuery (altNames person) suggestions in
  suggestVariants normalizedQuery person suggestions.

Fixpoint suggestLoop (normalizedQuery : jsstring) (people : list Person)
    (suggestions : list jsstring) : completion (list jsstring) :=
  match people with
  | [] => Normal suggestions
  | person :: rest =>
      bind (suggestPerson normalizedQuery person suggestions)
        (suggestLoop normalizedQuery rest)
  end.

Definition getSuggestions (query : jsstring) (people : list Person)
  : completion (list jsstring) :=
  if (length query <? 2)%nat then Normal []
  else
    let normalizedQuery := normalizeText (toLowerCase query) in
    bind (suggestLoop normalizedQuery people [])
      (fun suggestions => Normal (slice0 10 suggestions)).

End Lower.

(** [toLowerCase] restricted to strings of ASCII and caseless (for
    instance Arabic) code units, which is where the examples live. *)
Definition asciiLower (s : jsstring) : jsstring :=
  List.map
    (fun c => if ((0x41 <=? c) && (c <=? 0x5A))%N then (c + 0x20)%N else c) s.

End CognitiveSearch.

(* ================================================================== *)
(** * [class FamilyTreeGL] (src/unnamed/part_001) *)
(* ================================================================== *)

Module FamilyTreeGL.
Import Js Model.

(** [new Map(data.people.map(p => [p.id, p]))]: a later entry with the
    same id replaces an earlier one. *)
Definition peopleMap (people : list Person) : gmap jsstring Person :=
  fold_left (fun m p => <[id p := p]> m) people ∅.

(** ** [generateMarriageId] *)

(** [ids.sort()] with the default comparator, on strings.  The sort is
    stable: an element goes in front of the first one that is greater. *)
Fixpoint insertSorted (x : jsstring) (sorted : list jsstring)
  : list jsstring :=
  match sorted with
  | [] => [x]
  | y :: r => if ltb x y then x :: y :: r else y :: insertSorted x r
  end.

Definition sort (xs : list jsstring) : list jsstring :=
  fold_left (fun sorted x => insertSorted x sorted) xs [].

Definition generateMarriageId (s1 s2 : jsstring) : jsstring :=
  let ids := sort [s1; s2] in
  lit "M-" ++ nth 0 ids [] ++ lit "_" ++ nth 1 ids [].

(** ** [computeGeneration] *)

(** What a call can return: a number of generations, or a value that is
    not a finite number (a member inherited from [Object.prototype] by
    the cache object, and the [NaN] that [+ 1] and [Math.max] make of
    it). *)
Inductive generation :=
| Gen (n : nat)
| NotANumber.

(** [g + 1] *)
Definition plusOne (g : generation) : generation :=
  match g with
  | Gen n => Gen (S n)
  | NotANumber => NotANumber
  end.

(** [Math.max(a, b)] *)
Definition mathMax (a b : generation) : generation :=
  match a, b with
  | Gen x, Gen y => Gen (Nat.max x y)
  | _, _ => NotANumber
  end.

(** [this.generationCache[id]], when it is [!= null]: [generationCache]
    is a plain object. *)
Definition cacheGet (cache : gmap jsstring generation) (id : jsstring)
  : option generation :=
  match cache !! id with
  | Some g => Some g
  | None =>
      if existsb (eqb id) objectPrototypeKeys then Some NotANumber
      else None
  end.

(** [r ? compute(r) + 1 : 0] for a parent reference [r], where [compute]
    is the recursive call with the cache it starts from. *)
Definition parentGeneration
    (compute : gmap jsstring generation -> jsstring ->
               option (generation * gmap jsstring generation))
    (r : ref) (cache : gmap jsstring generation)
  : option (generation * gmap jsstring generation) :=
  match r with
  | Some parentId =>
      if truthy r then
        match compute cache parentId with
        | Some (g, cache') => Some (plusOne g, cache')
        | None => None
        end
      else Some (Gen 0, cache)
  | None => Some (Gen 0, cache)
  end.

(** The recursion of the source, with the depth of the call stack bounded
    by [fuel]: [None] is a stack that ran out.  The cache is threaded
    through the calls. *)
Fixpoint computeGeneration (fuel : nat) (people : gmap jsstring Person)
    (cache : gmap jsstring generation) (id : jsstring)
  : option (generation * gmap jsstring generation) :=
  match fuel with
  | O => None
  | S fuel' =>
      match cacheGet cache id with
      | Some g => Some (g, cache)
      | None =>
          match people !! id with
          | None => Some (Gen 0, cache)
          | Some p =>
              match parentGeneration (computeGeneration fuel' people)
                      (fatherId p) cache with
              | None => None
              | Some (fatherGen, cache1) =>
                  match parentGeneration (computeGeneration fuel' people)
                          (motherId p) cache1 with
                  | None => None
                  | Some (motherGen, cache2) =>
                      let gen := mathMax fatherGen motherGen in
                      Some (gen, <[id := gen]> cache2)
                  end
              end
          end
      end
  end.

End FamilyTreeGL.

(* ================================================================== *)
(** * [class AdminPanel] (src/js/admin-panel.js) *)
(* ================================================================== *)

Module AdminPanel.
Import Js Model.

(** ** The tree of the panel

    The constructor keeps the tree object it is given in
    [this.familyTree].  The panel uses two members of it: the [data]
    field, and the method [updateData].  The class of the object is not
    fixed by the panel: [updateData] is [None] for an object that has no
    such method, and otherwise it tells how a call of the method ends on
    the data it is given, [Normal tt] when the call returns and [Throw]
    when it does not (a call that never comes back is not told apart from
    one that throws: no operation of the panel catches, so in both cases
    nothing after the call runs).

    The method of [class FamilyTree] (src/QUICKSTART.md) stores the data it
    is given in [this.data], where the panel took them from, rebuilds its
    maps and redraws the scene with three.js and d3, which are not part of
    the sources: how it ends is left open.  [class FamilyTree2D] has no
    such method: see [FamilyTree2D.tree]. *)
Record Tree := mkTree {
  data : Data;
  updateData : option (Data -> completion unit)
}.

(** [tree.updateData(newData)]: calling what is not a function throws. *)
Definition callUpdateData (tree : Tree) (newData : Data) : completion unit :=
  match updateData tree with
  | Some method => method newData
  | None => Throw
  end.

(** The [updatedData] argument of [updatePerson]: the fields it carries. *)
Record PersonUpdate := mkUpdate {
  u_id : option jsstring;
  u_name : option jsstring;
  u_altNames : option (list jsstring);
  u_gender : option Gender;
  u_birthYear : option (option Z);
  u_deathYear : option (option Z);
  u_fatherId : option ref;
  u_motherId : option ref;
  u_spouseIds : option (option (list jsstring));
  u_sourceRefs : option (list jsstring)
}.

(** [{ ...person, ...updatedData }] *)
Definition spread (person : Person) (u : PersonUpdate) : Person :=
  {| id := default (id person) (u_id u);
     name := default (name person) (u_name u);
     altNames := default (altNames person) (u_altNames u);
     gender := default (gender person) (u_gender u);
     birthYear := default (birthYear person) (u_birthYear u);
     deathYear := default (deathYear person) (u_deathYear u);
     fatherId := default (fatherId person) (u_fatherId u);
     motherId := default (motherId person) (u_motherId u);
     spouseIds := default (spouseIds person) (u_spouseIds u);
     sourceRefs := default (sourceRefs person) (u_sourceRefs u) |}.

(** [people.findIndex(p => p.id === personId)], [None] for [-1]. *)
Fixpoint findIndex (personId : jsstring) (people : list Person) : option nat :=
  match people with
  | [] => None
  | p :: r =>
      if eqb (id p) personId then Some 0%nat
      else option_map S (findIndex personId r)
  end.

(** The body of [currentData.people.forEach(person => ...)]. *)
Definition forgetPerson (personId : jsstring) (person : Person) : Person :=
  {| id := id person;
     name := name person;
     altNames := altNames person;
     gender := gender person;
     birthYear := birthYear person;
     deathYear := deathYear person;
     fatherId := if refIs (fatherId person) personId then None
                 else fatherId person;
     motherId := if refIs (motherId person) personId then None
                 else motherId person;
     spouseIds :=
       match spouseIds person with
       | Some ids => Some (List.filter (fun i => negb (eqb i personId)) ids)
       | None => None
       end;
     sourceRefs := sourceRefs person |}.

(** ** The operations

    Every operation changes [this.familyTree.data] in place and calls
    [this.familyTree.updateData(currentData)] afterwards: the data object
    is shared by the panel and the tree, so that what the panel assigns to
    [currentData] the tree has in [data].  An operation gives the tree as
    it leaves it, whether the call returns or not, and what it returns
    itself.  After [updateData] has returned, [saveData] (which
    catches what writing to the storage throws) and [showNotification]
    change neither. *)

Definition updatePerson (personId : jsstring) (updatedData : PersonUpdate)
    (familyTree : Tree) : Tree * completion bool :=
  let currentData := data familyTree in
  match findIndex personId (people currentData) with
  | None => (familyTree, Normal false)
  | Some personIndex =>
      let people' :=
        match people currentData !! personIndex with
        | Some person => <[personIndex := spread person updatedData]> (people currentData)
        | None => people currentData
        end in
      let currentData :=
        {| people := people';
           aliases := aliases currentData;
           marriages := marriages currentData |} in
      let familyTree :=
        {| data := currentData; updateData := updateData familyTree |} in
      (familyTree,
       bind (callUpdateData familyTree currentData) (fun _ => Normal true))
  end.

(** [confirmed] is the answer to the [confirm(...)] dialog. *)
Definition deletePerson (personId : jsstring) (confirmed : bool)
    (familyTree : Tree) : Tree * completion bool :=
  if negb confirmed then (familyTree, Normal false)
  else
    let currentData := data familyTree in
    let people1 :=
      List.filter (fun p => negb (eqb (id p) personId)) (people currentData) in
    let marriages1 :=
      List.filter
        (fun m => negb (eqb (spouse1Id m) personId)
                  && negb (eqb (spouse2Id m) personId))
        (marriages currentData) in
    let people2 := List.map (forgetPerson personId) people1 in
    let currentData :=
      {| people := people2;
         aliases := aliases currentData;
         marriages := marriages1 |} in
    let familyTree :=
      {| data := currentData; updateData := updateData familyTree |} in
    (familyTree,
     bind (callUpdateData familyTree currentData) (fun _ => Normal true)).

(** [addPersonToTree(person)]: the person is pushed to the people array,
    then the tree is updated and the data are saved.  The function returns
    no value. *)
Definition addPersonToTree (person : Person) (familyTree : Tree)
  : Tree * completion unit :=
  let currentData := data familyTree in
  let currentData :=
    {| people := people currentData ++ [person];
       aliases := aliases currentData;
       marriages := marriages currentData |} in
  let familyTree :=
    {| data := currentData; updateData := updateData familyTree |} in
  (familyTree,
   bind (callUpdateData familyTree currentData) (fun _ => Normal tt)).

End AdminPanel.

(* ================================================================== *)
(** * [class FamilyTree2D] (src/js/family-tree-2d.js) *)
(* ================================================================== *)

Module FamilyTree2D.
Import Js Model.

(** A tree of this class, as the admin panel sees it: the constructor
    keeps the data it is given in [this.data], and the class defines no
    method [updateData].  [FamilyTreeApp] (src/unnamed/part_001) makes the
    tree that it hands to the admin panel with [new FamilyTree2D(...)]. *)
Definition tree (data : Data) : AdminPanel.Tree :=
  {| AdminPanel.data := data; AdminPanel.updateData := None |}.

End FamilyTree2D.

(* ================================================================== *)
(** * [class DataConverter] (src/QUICKSTART.md) *)
(* ================================================================== *)

Module DataConverter.
Import Js Model.

Local Open Scope Q_scope.

(** ** [Map] objects with string keys *)

(** The entries in insertion order; a key occurs once. *)
Definition mapHas {V} (m : list (jsstring * V)) (key : jsstring) : bool :=
  existsb (fun entry => eqb (fst entry) key) m.

Definition mapGet {V} (m : list (jsstring * V)) (key : jsstring) : option V :=
  assoc m key.

(** [m.set(key, v)]: a known key keeps its place. *)
Fixpoint mapSet {V} (m : list (jsstring * V)) (key : jsstring) (v : V)
  : list (jsstring * V) :=
  match m with
  | [] => [(key, v)]
  | (k, v0) :: r =>
      if eqb k key then (k, v) :: r else (k, v0) :: mapSet r key v
  end.

(** [m.values()] *)
Definition mapValues {V} (m : list (jsstring * V)) : list V := List.map snd m.

(** ** [parseCSVLine] *)

Definition QUOTE : char := 0x22%N.
Definition COMMA : char := 0x2C%N.

(** The loop over the code units of the line, with its three variables. *)
Fixpoint parseLoop (line : jsstring) (values : list jsstring)
    (current : jsstring) (inQuotes : bool) : list jsstring :=
  match line with
  | [] => values ++ [trim current]
  | char :: rest =>
      if (char =? QUOTE)%N then parseLoop rest values current (negb inQuotes)
      else if (char =? COMMA)%N && negb inQuotes
      then parseLoop rest (values ++ [trim current]) [] inQuotes
      else parseLoop rest values (current ++ [char]) inQuotes
  end.

Definition parseCSVLine (line : jsstring) : list jsstring :=
  parseLoop line [] [] false.

(** ** [hashString] *)

(** The conversion to a signed 32-bit integer that the bit operators
    apply. *)
Definition toInt32 (z : Z) : Z := ((z + 2 ^ 31) mod 2 ^ 32 - 2 ^ 31)%Z.

(** [hash = ((hash << 5) - hash) + char; hash = hash & hash] *)
Definition hashStep (hash : Z) (char : N) : Z :=
  let hash := (toInt32 (toInt32 hash * 32) - hash + Z.of_N char)%Z in
  toInt32 hash.

Definition hashString (str : jsstring) : Z :=
  Z.abs (fold_left hashStep str 0%Z).

(** ** [generatePersonId] *)

(** [s.padStart(n, '0')] *)
Definition padStart0 (n : nat) (s : jsstring) : jsstring :=
  repeat 0x30%N (n - length s) ++ s.

(** The decimal digits of a number, most significant first. *)
Fixpoint digitsFrom (fuel : nat) (n : N) (acc : jsstring) : jsstring :=
  match fuel with
  | O => acc
  | S fuel' =>
      let acc' := (0x30 + n mod 10)%N :: acc in
      if (n / 10 =? 0)%N then acc' else digitsFrom fuel' (n / 10)%N acc'
  end.

(** [n.toString()] for a non-negative integer. *)
Definition numberToString (n : N) : jsstring :=
  digitsFrom (S (N.to_nat (N.log2 n))) n [].

(** The em dash that stands for an absent value in the CSV. *)
Definition DASH : jsstring := [0x2014%N].

(** [originalId] is [person.originalId] and [name] is [person.name], each
    [None] when the person has no such value.  The code reads the length
    of the name to hash it: that throws for a person without a name. *)
Definition generatePersonId (originalId name : option jsstring)
  : completion jsstring :=
  if truthy originalId && negb (eqb (default [] originalId) DASH)
  then Normal (lit "P-" ++ padStart0 6 (default [] originalId))
  else
    match name with
    | Some str =>
        let nameHash := hashString str in
        Normal
          (lit "P-"
           ++ padStart0 6 (numberToString (Z.to_N (nameHash mod 1000000))))
    | None => Throw
    end.

(** ** [calculateNameSimilarity] and [isSamePerson] *)

Section Lower.
Variable toLowerCase : jsstring -> jsstring.

(** The condition of the inner loop. *)
Definition wordsMatch (word1 word2 : jsstring) : bool :=
  eqb word1 word2 || includes word1 word2 || includes word2 word1.

(** The two nested loops: one match at most for every word of [words1]. *)
Definition countMatches (words1 words2 : list jsstring) : nat :=
  length (List.filter (fun word1 => existsb (wordsMatch word1) words2) words1).

Definition calculateNameSimilarity (name1 name2 : jsstring) : Q :=
  match name1, name2 with
  | [], _ | _, [] => 0
  | _ :: _, _ :: _ =>
      let words1 := splitSpaces (toLowerCase name1) in
      let words2 := splitSpaces (toLowerCase name2) in
      let matches := countMatches words1 words2 in
      let total := Nat.max (length words1) (length words2) in
      inject_Z (Z.of_nat matches) / inject_Z (Z.of_nat total)
  end.

(** A year is truthy when it is a number other than 0. *)
Definition truthyYear (y : option Z) : bool :=
  match y with
  | Some z => negb (z =? 0)%Z
  | None => false
  end.

Definition isSamePerson (person1 person2 : Person) : bool :=
  let nameSimilarity :=
    calculateNameSimilarity (name person1) (name person2) in
  if negb (Qle_bool (8 # 10) nameSimilarity) then false
  else if truthyYear (birthYear person1) && truthyYear (birthYear person2)
          && (2 <? Z.abs (default 0%Z (birthYear person1)
                          - default 0%Z (birthYear person2)))%Z
  then false
  else
    existsb
      (fun altName1 =>
         existsb
           (fun altName2 =>
              negb (Qle_bool (calculateNameSimilarity altName1 altName2)
                      (9 # 10)))
           (altNames person2))
      (altNames person1).

(** [findDuplicatePerson]: the first person of the map that is the same
    person. *)
Definition findDuplicatePerson (people : list (jsstring * Person))
    (person : Person) : option Person :=
  List.find (isSamePerson person) (mapValues people).

(** The state of the converter that [addPerson] touches. *)
Record Converter := mkConverter {
  cPeople : list (jsstring * Person);
  cAliases : list (jsstring * jsstring)
}.

Definition addPerson (person : Person) (c : Converter) : Converter :=
  match findDuplicatePerson (cPeople c) person with
  | Some existingPerson =>
      {| cPeople := cPeople c;
         cAliases := mapSet (cAliases c) (id person) (id existingPerson) |}
  | None =>
      {| cPeople := mapSet (cPeople c) (id person) person;
         cAliases := cAliases c |}
  end.

End Lower.

(** ** [validateRelationships] *)

(** The body of the loop for one person; [people] is [this.people]. *)
Definition validatePerson (people : list (jsstring * Person)) (person : Person)
  : Person :=
  let father :=
    if truthy (fatherId person)
       && negb (mapHas people (default [] (fatherId person)))
    then None else fatherId person in
  let mother :=
    if truthy (motherId person)
       && negb (mapHas people (default [] (motherId person)))
    then None else motherId person in
  let spouses :=
    match spouseIds person with
    | Some ids => Some (List.filter (fun i => mapHas people i) ids)
    | None => None
    end in
  let father := if refIs father (id person) then None else father in
  let mother := if refIs mother (id person) then None else mother in
  let spouses :=
    match spouses with
    | Some ids => Some (List.filter (fun i => negb (eqb i (id person))) ids)
    | None => None
    end in
  {| id := id person;
     name := name person;
     altNames := altNames person;
     gender := gender person;
     birthYear := birthYear person;
     deathYear := deathYear person;
     fatherId := father;
     motherId := mother;
     spouseIds := spouses;
     sourceRefs := sourceRefs person |}.

(** The persons are changed in place: the keys of the map stay. *)
Definition validateRelationships (people : list (jsstring * Person))
  : list (jsstring * Person) :=
  List.map (fun entry => (fst entry, validatePerson people (snd entry))) people.

End DataConverter.

(* ================================================================== *)
(** * Specification-side definitions and sample data *)
(* ================================================================== *)

Module Spec.
Import Js Ar Model.

(** ** Cross-script paths *)

(** The score a path contributes when it is run alone: the value it
    returns, and 0 when it falls through without a hit. *)
Definition pathScore (f : flow Q) : Q :=
  match f with
  | Return s => s
  | _ => 0%Q
  end.

Definition dictionaryScore (query arabicName : jsstring) : Q :=
  pathScore (CognitiveSearch.dictionaryPath query arabicName).

Definition generativeScore (toLowerCase : jsstring -> jsstring)
    (query arabicName : jsstring) : Q :=
  pathScore (CognitiveSearch.generativePath toLowerCase query arabicName).

(** ** Ranking *)

(** Scores from the highest to the lowest. *)
Definition descending (results : list CognitiveSearch.Result) : Prop :=
  StronglySorted
    (fun a b => (CognitiveSearch.score b <= CognitiveSearch.score a)%Q)
    results.

(** ** Suggestions *)

(** [s] is something [getSuggestions] may offer for the normalised query
    [nq]: the name of a person, one of the alternative names, or a
    dictionary variant of an Arabic name, that contains the query. *)
Definition suggestible (toLowerCase : jsstring -> jsstring) (nq : jsstring)
    (people : list Person) (s : jsstring) : Prop :=
  exists p, In p people
    /\ ((s = name p
         /\ includes (CognitiveSearch.normalizeText (toLowerCase (name p))) nq
            = true)
        \/ (In s (altNames p)
            /\ includes (CognitiveSearch.normalizeText (toLowerCase s)) nq
               = true)
        \/ (exists variants,
              CognitiveSearch.isArabic (name p) = true
              /\ get CognitiveSearch.arabicToEnglish (name p) = Own variants
              /\ In s variants
              /\ includes (toLowerCase s) nq = true)).

(** ** Normal forms of [normalizeText] *)

(** A code unit that the letter-folding passes leave alone. *)
Definition settled (c : char) : bool :=
  negb (CognitiveSearch.isAlefVariant c) && negb (c =? ALEF_MAKSURA)%N
  && negb (c =? TEH_MARBUTA)%N && negb (CognitiveSearch.isWawVariant c)
  && negb (CognitiveSearch.isHamza c).

(** White space occurs only as single U+0020. *)
Fixpoint collapsed (s : jsstring) : bool :=
  match s with
  | [] => true
  | c :: r =>
      (if isSpace c
       then (c =? SPACE)%N
            && match r with
               | c' :: _ => negb (isSpace c')
               | [] => true
               end
       else true)
      && collapsed r
  end.

(** The five letter passes of [normalizeText], before the white space is
    treated. *)
Definition foldLetters (text : jsstring) : jsstring :=
  removeClass CognitiveSearch.isHamza
    (replaceClass CognitiveSearch.isWawVariant WAW
       (replaceClass CognitiveSearch.isTaaVariant HEH
          (replaceClass CognitiveSearch.isYaaVariant YEH
             (replaceClass CognitiveSearch.isAlefVariant ALEF text)))).

(** One code unit through the four replacement passes. *)
Definition foldUnit (c : char) : char :=
  let c := if CognitiveSearch.isAlefVariant c then ALEF else c in
  let c := if CognitiveSearch.isYaaVariant c then YEH else c in
  let c := if CognitiveSearch.isTaaVariant c then HEH else c in
  if CognitiveSearch.isWawVariant c then WAW else c.

(** ** Edit distance *)

(** [edits s t n]: [s] is turned into [t] by a script that keeps code
    units and spends one unit of cost on each substitution, deletion and
    insertion, [n] in all. *)
Inductive edits : jsstring -> jsstring -> nat -> Prop :=
| edits_nil : edits [] [] 0
| edits_keep c s t n : edits s t n -> edits (c :: s) (c :: t) n
| edits_substitute a b s t n :
    a <> b -> edits s t n -> edits (a :: s) (b :: t) (S n)
| edits_delete a s t n : edits s t n -> edits (a :: s) t (S n)
| edits_insert b s t n : edits s t n -> edits s (b :: t) (S n).

(** The Levenshtein distance: the least cost of a script. *)
Definition editDistance (s t : jsstring) (d : nat) : Prop :=
  edits s t d /\ forall n, edits s t n -> (d <= n)%nat.

(** [row] is the row of the matrix for the prefix [t] of [str2]: column
    [j] holds the distance between the first [j] units of [str1] and
    [t]. *)
Definition rowFor (str1 t : jsstring) (row : list nat) : Prop :=
  length row = S (length str1)
  /\ forall j, (j <= length str1)%nat ->
       editDistance (firstn j str1) t (nth j row 0%nat).

(** ** Relationship invariants *)

Definition hasId (data : Data) (i : jsstring) : Prop :=
  exists p, In p (people data) /\ id p = i.

(** Every person id that the relationship fields of [p] mention. *)
Definition personRefs (p : Person) : list jsstring :=
  match fatherId p with Some f => [f] | None => [] end
  ++ match motherId p with Some m => [m] | None => [] end
  ++ match spouseIds p with Some ids => ids | None => [] end.

(** No dangling reference and no self-reference in the person records. *)
Definition personsValid (data : Data) : Prop :=
  forall p, In p (people data) ->
    forall r, In r (personRefs p) -> hasId data r /\ r <> id p.

(** The spouses of every marriage record are present. *)
Definition spousesValid (data : Data) : Prop :=
  forall m, In m (marriages data) ->
    hasId data (spouse1Id m) /\ hasId data (spouse2Id m).

(** The children of every marriage record are present. *)
Definition childrenValid (data : Data) : Prop :=
  forall m, In m (marriages data) ->
    forall c, In c (children m) -> hasId data c.

(** All the relationship invariants of the data model. *)
Definition relationshipsValid (data : Data) : Prop :=
  personsValid data /\ spousesValid data /\ childrenValid data.

(** ** Generations *)

(** [i] names a member of [Object.prototype]. *)
Definition inherited (i : jsstring) : Prop :=
  existsb (Js.eqb i) objectPrototypeKeys = true.

Section Generations.
Variable people : gmap jsstring Person.

(** [child] is in the collection and one of its two parent fields holds
    the non-empty id [parent]. *)
Definition parentLink (child parent : jsstring) : Prop :=
  exists p, people !! child = Some p
    /\ parent <> []
    /\ (fatherId p = Some parent \/ motherId p = Some parent).

(** A chain of [n] parent links that starts at [i]. *)
Inductive chain : jsstring -> nat -> Prop :=
| chain_end i : chain i 0
| chain_link i j n : parentLink i j -> chain j n -> chain i (S n).

Definition longestChain (i : jsstring) (n : nat) : Prop :=
  chain i n /\ forall m, chain i m -> (m <= n)%nat.

(** The same with resolvable links only: the parent is in the collection
    too. *)
Definition resolvableLink (child parent : jsstring) : Prop :=
  parentLink child parent /\ is_Some (people !! parent).

Inductive resolvableChain : jsstring -> nat -> Prop :=
| resolvable_end i : resolvableChain i 0
| resolvable_link i j n :
    resolvableLink i j -> resolvableChain j n -> resolvableChain i (S n).

Definition longestResolvableChain (i : jsstring) (n : nat) : Prop :=
  resolvableChain i n /\ forall m, resolvableChain i m -> (m <= n)%nat.

(** No person is their own ancestor. *)
Definition acyclic : Prop := forall i, ~ tc parentLink i i.

(** No parent reference names a member of [Object.prototype]. *)
Definition plainRefs : Prop := forall i j, parentLink i j -> ~ inherited j.

(** Every cached generation is the right one. *)
Definition cacheValid (cache : gmap jsstring FamilyTreeGL.generation) : Prop :=
  forall i g, cache !! i = Some g ->
    exists n, g = FamilyTreeGL.Gen n /\ longestChain i n.

(** What a parent reference contributes to the generation of a child:
    nothing when it is falsy, one more than the longest chain of the
    parent otherwise. *)
Definition contributes (r : ref) (a : nat) : Prop :=
  (truthy r = false /\ a = 0%nat)
  \/ exists j n, r = Some j /\ j <> [] /\ longestChain j n /\ a = S n.

(** The ids that a chain leaves behind, one per link. *)
Inductive walk : jsstring -> list jsstring -> Prop :=
| walk_nil i : walk i []
| walk_cons i j l : parentLink i j -> walk j l -> walk i (i :: l).

End Generations.

(** ** Hashes and decimal numerals *)

(** The polynomial in 31 whose coefficients are the code units of [s],
    the first one with the highest power. *)
Fixpoint polynomial (s : jsstring) : Z :=
  match s with
  | [] => 0
  | c :: r => Z.of_N c * 31 ^ Z.of_nat (length r) + polynomial r
  end.

(** A decimal digit, and the number that a string of digits writes. *)
Definition isDigit (c : char) : Prop := (0x30 <= c <= 0x39)%N.

Definition decimal (digits : jsstring) : N :=
  fold_left (fun v d => (10 * v + (d - 0x30))%N) digits 0%N.

(** ** The people of a converter *)

(** Every key of the map is the id of the person stored under it. *)
Definition keyedById (people : list (jsstring * Person)) : Prop :=
  forall key p, In (key, p) people -> key = id p.

End Spec.

Module Sample.
Import Js Ar Model.

Definition person (pid : string) (n : jsstring) (father mother : ref) : Person :=
  {| id := lit pid; name := n; altNames := []; gender := GenderUnknown;
     birthYear := None; deathYear := None;
     fatherId := father; motherId := mother;
     spouseIds := Some []; sourceRefs := [] |}.

(** The Arabic names for Ahmed and Abdullah, as the dictionary spells them. *)
Definition ahmedAr : jsstring := [ALEF_HAMZA_ABOVE; HAH; MEEM; DAL].
Definition abdullahAr : jsstring := [AIN; BEH; DAL; ALEF; LAM; LAM; HEH].


Definition ali : Person := person "P-000001" (lit "ali") None None.
Definition ahmed : Person := person "P-000002" ahmedAr None None.

(** A family of three with its marriage record. *)
Definition father : Person :=
  {| id := lit "P-000010"; name := lit "omar"; altNames := [];
     gender := GenderM; birthYear := Some 1900%Z; deathYear := None;
     fatherId := None; motherId := None;
     spouseIds := Some [lit "P-000011"]; sourceRefs := [] |}.
Definition mother : Person :=
  {| id := lit "P-000011"; name := lit "sara"; altNames := [];
     gender := GenderF; birthYear := Some 1905%Z; deathYear := None;
     fatherId := None; motherId := None;
     spouseIds := Some [lit "P-000010"]; sourceRefs := [] |}.
Definition child : Person :=
  person "P-000012" (lit "ali") (Some (lit "P-000010")) (Some (lit "P-000011")).

Definition couple : Marriage :=
  {| mid := FamilyTreeGL.generateMarriageId (lit "P-000010") (lit "P-000011");
     spouse1Id := lit "P-000010"; spouse2Id := lit "P-000011";
     children := [lit "P-000012"] |}.

Definition family : Data :=
  {| people := [father; mother; child]; aliases := [];
     marriages := [couple] |}.

(** The tree of the application, with the family as its data. *)
Definition familyTree : AdminPanel.Tree := FamilyTree2D.tree family.

(** An edit that makes a person their own father. *)
Definition selfFather : AdminPanel.PersonUpdate :=
  {| AdminPanel.u_id := None; AdminPanel.u_name := None;
     AdminPanel.u_altNames := None; AdminPanel.u_gender := None;
     AdminPanel.u_birthYear := None; AdminPanel.u_deathYear := None;
     AdminPanel.u_fatherId := Some (Some (lit "P-000012"));
     AdminPanel.u_motherId := None; AdminPanel.u_spouseIds := None;
     AdminPanel.u_sourceRefs := None |}.

(** A person whose father is not in the collection. *)
Definition orphan : Person :=
  person "P-000020" (lit "nour") (Some (lit "P-000404")) None.

End Sample.

(* ================================================================== *)
(** * Properties *)
(* ================================================================== *)

Import Js Ar Model.

(** ** Strings, dictionaries and control flow *)

Lemma eqb_true (s1 s2 : jsstring) : Js.eqb s1 s2 = true <-> s1 = s2.
Proof. unfold Js.eqb. apply bool_decide_eq_true. Qed.

Lemma eqb_false (s1 s2 : jsstring) : Js.eqb s1 s2 = false <-> s1 <> s2.
Proof. unfold Js.eqb. apply bool_decide_eq_false. Qed.

Lemma eqb_refl (s : jsstring) : Js.eqb s s = true.
Proof. by apply eqb_true. Qed.

(** No key of one or two code units is inherited from [Object.prototype]. *)
Lemma prototype_key_long (key : jsstring) :
  existsb (Js.eqb key) objectPrototypeKeys = true -> (7 <= length key)%nat.
Proof.
  intros H. apply existsb_exists in H as (k & Hin & Heq).
  apply eqb_true in Heq. subst k.
  unfold objectPrototypeKeys in Hin. simpl in Hin.
  repeat (destruct Hin as [<- | Hin]; [simpl; lia |]). destruct Hin.
Qed.

Lemma get_short_not_inherited {V} (own : list (jsstring * V)) (key : jsstring) :
  (length key <= 2)%nat -> get own key <> Inherited.
Proof.
  intros Hlen. unfold get. destruct (assoc own key); [discriminate |].
  destruct (existsb (Js.eqb key) objectPrototypeKeys) eqn:E; [| discriminate].
  apply prototype_key_long in E. lia.
Qed.

(** No inherited property name contains an Arabic code unit. *)
Lemma prototype_key_not_arabic (key : jsstring) :
  existsb (Js.eqb key) objectPrototypeKeys = true ->
  CognitiveSearch.isArabic key = false.
Proof.
  intros H. apply existsb_exists in H as (k & Hin & Heq).
  apply eqb_true in Heq. subst k.
  unfold objectPrototypeKeys in Hin. simpl in Hin.
  repeat (destruct Hin as [<- | Hin]; [reflexivity |]). destruct Hin.
Qed.

Lemma get_arabic_not_inherited {V} (own : list (jsstring * V)) (key : jsstring) :
  CognitiveSearch.isArabic key = true -> get own key <> Inherited.
Proof.
  intros Har. unfold get. destruct (assoc own key); [discriminate |].
  destruct (existsb (Js.eqb key) objectPrototypeKeys) eqn:E; [| discriminate].
  apply prototype_key_not_arabic in E. congruence.
Qed.

Lemma forOf_no_raise {A X} (xs : list X) (body : X -> flow A) :
  (forall x, In x xs -> body x <> Raise) -> forOf xs body <> Raise.
Proof.
  induction xs as [| x r IH]; intros Hb; simpl; [discriminate |].
  assert (Hx := Hb x (or_introl eq_refl)).
  destruct (body x); simpl; try congruence.
  apply IH. intros y Hy. apply Hb. by right.
Qed.

(** ** Candidate generation: it returns, and within its caps *)

Section TransliterateReturns.
Variables digitMap digraphMap singleMap : list (jsstring * list jsstring).

Lemma chooseOptions_own (ch : char) (next : option char) :
  exists opts step,
    CognitiveSearch.chooseOptions digitMap digraphMap singleMap ch next
    = (Own opts, step).
Proof.
  unfold CognitiveSearch.chooseOptions.
  destruct (get digitMap [ch]) eqn:E1; [eauto | |].
  { exfalso. revert E1. apply get_short_not_inherited. simpl; lia. }
  assert (Hp : exists o, (match next with
                          | Some ch2 => get digraphMap [ch; ch2]
                          | None => Undefined
                          end) = o /\ o <> Inherited).
  { destruct next; eexists; (split; [reflexivity |]); [| discriminate].
    apply get_short_not_inherited. simpl; lia. }
  destruct Hp as (o & -> & Ho). destruct o; [eauto | congruence |].
  destruct (get singleMap [ch]) eqn:E3; [eauto | | eauto].
  exfalso. revert E3. apply get_short_not_inherited. simpl; lia.
Qed.

Lemma transliterateLoop_returns (n : nat) :
  forall rest variants, (length rest <= n)%nat ->
    exists vs,
      CognitiveSearch.transliterateLoop digitMap digraphMap singleMap rest variants
      = Normal vs.
Proof.
  induction n as [| n IH]; intros rest variants Hlen.
  - destruct rest; [simpl; eauto | simpl in Hlen; lia].
  - destruct rest as [| ch rest1]; [simpl; eauto |].
    simpl in Hlen. cbn [CognitiveSearch.transliterateLoop].
    destruct (chooseOptions_own ch (head rest1)) as (opts & step & ->).
    cbn [CognitiveSearch.expand].
    destruct step as [| [| [| step]]]; try (apply IH; lia).
    destruct rest1 as [| ch2 rest2]; apply IH; simpl in *; lia.
Qed.

Lemma transliterateToken_returns (token : jsstring) :
  exists vs,
    CognitiveSearch.transliterateToken digitMap digraphMap singleMap token
    = Normal vs /\ (length vs <= 60)%nat.
Proof.
  unfold CognitiveSearch.transliterateToken.
  destruct (transliterateLoop_returns (length token) token [[]] (le_n _))
    as (vs & ->).
  cbn [bind]. eexists; split; [reflexivity |].
  unfold slice0. rewrite length_firstn. lia.
Qed.
End TransliterateReturns.

Lemma mapM_returns {A B} (f : A -> completion B) (xs : list A) :
  (forall x, exists y, f x = Normal y) -> exists ys, CognitiveSearch.mapM f xs = Normal ys.
Proof.
  intros Hf. induction xs as [| x r (ys & IH)]; simpl; [eauto |].
  destruct (Hf x) as (y & ->). simpl. rewrite IH. simpl. eauto.
Qed.

Lemma buildArabicCandidates_returns (toLowerCase : jsstring -> jsstring)
    (englishQuery : jsstring) :
  exists cands,
    CognitiveSearch.buildArabicCandidatesFromEnglish toLowerCase englishQuery
    = Normal cands /\ (length cands <= 100)%nat.
Proof.
  unfold CognitiveSearch.buildArabicCandidatesFromEnglish.
  destruct englishQuery as [| c r]; [exists []; simpl; split; [done | lia] |].
  match goal with |- context [CognitiveSearch.mapM ?f ?xs] =>
    destruct (mapM_returns f xs) as (tv & ->) end.
  { intros x. destruct (transliterateToken_returns CognitiveSearch.digitMap
      CognitiveSearch.digraphMap CognitiveSearch.singleMap x) as (vs & -> & _).
    eauto. }
  cbn [bind]. eexists; split; [reflexivity |].
  unfold slice0. rewrite length_firstn. lia.
Qed.

(** C6.  With the tables of the code, [transliterateToken] returns, for
    every token, at most 60 candidate strings, and
    [buildArabicCandidatesFromEnglish] returns, for every query (and
    whatever [toLowerCase] does), at most 100 combined strings. *)
Theorem candidate_caps :
  (forall token, exists vs,
      CognitiveSearch.transliterateToken CognitiveSearch.digitMap
        CognitiveSearch.digraphMap CognitiveSearch.singleMap token = Normal vs
      /\ (length vs <= 60)%nat)
  /\
  (forall toLowerCase query, exists cands,
      CognitiveSearch.buildArabicCandidatesFromEnglish toLowerCase query
      = Normal cands
      /\ (length cands <= 100)%nat).
Proof.
  split.
  - intros token. apply transliterateToken_returns.
  - intros toLowerCase query. apply buildArabicCandidates_returns.
Qed.

(** ** Marriage ids *)

Lemma ltb_asym (a b : jsstring) : Js.ltb a b = true -> Js.ltb b a = false.
Proof.
  revert b. induction a as [| x a IH]; intros [| y b]; simpl; try done.
  intros H. apply orb_true_iff in H as [H | H].
  - apply N.ltb_lt in H.
    apply orb_false_iff. split; [apply N.ltb_ge; lia |].
    apply andb_false_iff. left. apply N.eqb_neq. lia.
  - apply andb_true_iff in H as [Hxy Hab]. apply N.eqb_eq in Hxy. subst y.
    rewrite N.ltb_irrefl, N.eqb_refl. simpl. by apply IH.
Qed.

Lemma ltb_total (a b : jsstring) :
  Js.ltb a b = false -> Js.ltb b a = false -> a = b.
Proof.
  revert b. induction a as [| x a IH]; intros [| y b]; simpl; try done.
  intros H1 H2.
  apply orb_false_iff in H1 as [H1 H1']. apply orb_false_iff in H2 as [H2 H2'].
  apply N.ltb_ge in H1, H2. assert (x = y) by lia. subst y.
  rewrite N.eqb_refl in H1', H2'. simpl in *. f_equal. by apply IH.
Qed.

Lemma sort_pair (a b : jsstring) :
  FamilyTreeGL.sort [a; b] = if Js.ltb b a then [b; a] else [a; b].
Proof. reflexivity. Qed.

(** C5.  [generateMarriageId] does not depend on the order of the two
    spouse ids. *)
Theorem generateMarriageId_sym (a b : jsstring) :
  FamilyTreeGL.generateMarriageId a b = FamilyTreeGL.generateMarriageId b a.
Proof.
  unfold FamilyTreeGL.generateMarriageId. rewrite !sort_pair.
  destruct (Js.ltb b a) eqn:Hba.
  - by rewrite (ltb_asym _ _ Hba).
  - destruct (Js.ltb a b) eqn:Hab; [done |].
    by rewrite (ltb_total _ _ Hab Hba).
Qed.

(** The id is made of the two ids in sorted order. *)
Lemma generateMarriageId_sorted (a b : jsstring) :
  Js.ltb b a = false ->
  FamilyTreeGL.generateMarriageId a b = lit "M-" ++ a ++ lit "_" ++ b.
Proof.
  intros H. unfold FamilyTreeGL.generateMarriageId. by rewrite sort_pair, H.
Qed.

(** ** Scores and control flow of the search *)

Local Open Scope Q_scope.

Lemma gtb_true (a b : Q) : CognitiveSearch.gtb a b = true <-> b < a.
Proof.
  unfold CognitiveSearch.gtb. rewrite negb_true_iff.
  split.
  - intros H. apply Qnot_le_lt. intros Hle.
    apply Qle_bool_iff in Hle. congruence.
  - intros H. destruct (Qle_bool a b) eqn:E; [| done].
    apply Qle_bool_iff in E. exfalso. by apply (Qlt_not_le b a).
Qed.

Lemma seq_no_raise {A} (s1 s2 : flow A) :
  s1 <> Raise -> s2 <> Raise -> s1 >>> s2 <> Raise.
Proof. destruct s1; simpl; congruence. Qed.

Lemma run_returns {A} (s : flow A) (dflt : A) :
  s <> Raise -> exists a, run s dflt = Normal a.
Proof. destruct s; simpl; eauto; congruence. Qed.

Section Returns.
Variable toLowerCase : jsstring -> jsstring.

Lemma dictionaryPath_no_raise (query arabicName : jsstring) :
  CognitiveSearch.isArabic arabicName = true ->
  CognitiveSearch.dictionaryPath query arabicName <> Raise.
Proof.
  intros Har. unfold CognitiveSearch.dictionaryPath.
  destruct (get CognitiveSearch.arabicToEnglish arabicName) eqn:E;
    [| | discriminate].
  - apply forOf_no_raise. intros ? _.
    unfold CognitiveSearch.dictionaryStep.
    repeat (match goal with |- context [if ?b then _ else _] => destruct b end);
      discriminate.
  - exfalso. revert E. by apply get_arabic_not_inherited.
Qed.

Lemma generativePath_no_raise (query arabicName : jsstring) :
  CognitiveSearch.generativePath toLowerCase query arabicName <> Raise.
Proof.
  unfold CognitiveSearch.generativePath.
  destruct (buildArabicCandidates_returns toLowerCase query) as (c & -> & _).
  apply forOf_no_raise. intros ? _. unfold CognitiveSearch.candidateStep.
  repeat (match goal with |- context [if ?b then _ else _] => destruct b end);
    discriminate.
Qed.

Lemma partialPath_no_raise (query arabicName : jsstring) :
  CognitiveSearch.partialPath query arabicName <> Raise.
Proof.
  unfold CognitiveSearch.partialPath.
  apply forOf_no_raise. intros ? _. apply forOf_no_raise. intros ? _.
  unfold CognitiveSearch.partialStep.
  repeat (match goal with |- context [if ?b then _ else _] => destruct b end);
    discriminate.
Qed.

Lemma reversePath_no_raise (query arabicName : jsstring) :
  CognitiveSearch.isArabic query = true
  \/ get CognitiveSearch.englishToArabic query <> Inherited ->
  CognitiveSearch.reversePath query arabicName <> Raise.
Proof.
  intros H. unfold CognitiveSearch.reversePath.
  destruct (CognitiveSearch.isArabic query); cbn [negb]; [discriminate |].
  destruct H as [H | H]; [discriminate H |].
  destruct (get CognitiveSearch.englishToArabic query);
    [| by destruct H | intros Hraise; discriminate Hraise].
  apply forOf_no_raise. intros ? _. unfold CognitiveSearch.reverseStep.
  repeat (match goal with |- context [if ?b then _ else _] => destruct b end);
    discriminate.
Qed.

(** [getTransliterationScore] returns unless the query is the name of a
    member of [Object.prototype]. *)
Lemma getTransliterationScore_returns (query arabicName : jsstring) :
  CognitiveSearch.isArabic query = true
  \/ get CognitiveSearch.englishToArabic query <> Inherited ->
  exists s,
    CognitiveSearch.getTransliterationScore toLowerCase query arabicName
    = Normal s.
Proof.
  intros H. unfold CognitiveSearch.getTransliterationScore.
  apply run_returns. apply seq_no_raise; [| apply seq_no_raise].
  - destruct (CognitiveSearch.isArabic arabicName) eqn:Har; simpl;
      [| discriminate].
    destruct (negb (CognitiveSearch.isArabic query)); [| discriminate].
    apply seq_no_raise;
      [by apply dictionaryPath_no_raise | apply generativePath_no_raise].
  - by apply reversePath_no_raise.
  - apply partialPath_no_raise.
Qed.

Lemma calculateMatchScore_returns (query : jsstring) (p : Person) :
  CognitiveSearch.isArabic query = true
  \/ get CognitiveSearch.englishToArabic query <> Inherited ->
  exists s, CognitiveSearch.calculateMatchScore toLowerCase query p = Normal s.
Proof.
  intros H. unfold CognitiveSearch.calculateMatchScore.
  destruct (getTransliterationScore_returns query (name p) H) as (t & ->).
  simpl. eauto.
Qed.

(** The loop of [search]: what it leaves in [results]. *)
Lemma collect_returns (query : jsstring) (people : list Person) :
  (forall p, In p people ->
     exists s, CognitiveSearch.calculateMatchScore toLowerCase query p = Normal s) ->
  forall acc, exists res,
    CognitiveSearch.collect toLowerCase query people acc = Normal res
    /\ (forall r, In r acc -> In r res)
    /\ (forall p s, In p people ->
          CognitiveSearch.calculateMatchScore toLowerCase query p = Normal s ->
          0 < s ->
          In (CognitiveSearch.mkResult p s
                (CognitiveSearch.getMatchType query p)) res).
Proof.
  induction people as [| p r IH]; intros Hret acc; simpl.
  - exists acc. split; [done |]. split; [done |]. intros ? ? [].
  - destruct (Hret p (or_introl eq_refl)) as (s & Hs). rewrite Hs. simpl.
    match goal with |- context [CognitiveSearch.collect _ _ _ ?a] =>
      destruct (IH (fun q Hq => Hret q (or_intror Hq)) a)
        as (res & Hres & Hacc & Hnew) end.
    exists res. split; [done |]. split.
    + intros x Hx. apply Hacc.
      destruct (CognitiveSearch.gtb s 0); [apply in_or_app; by left | done].
    + intros q t [<- | Hq] Ht Hpos.
      * rewrite Hs in Ht. injection Ht as <-.
        apply Hacc. apply gtb_true in Hpos. rewrite Hpos.
        apply in_or_app. right. by left.
      * by apply Hnew.
Qed.

Lemma insertResult_perm (x : CognitiveSearch.Result) (sorted : list _) :
  Permutation (CognitiveSearch.insertResult x sorted) (x :: sorted).
Proof.
  induction sorted as [| y r IH]; simpl; [done |].
  destruct (CognitiveSearch.gtb _ _); [done |].
  rewrite IH. apply perm_swap.
Qed.

(** Sorting keeps the results and only reorders them. *)
Lemma sortResults_perm (results : list CognitiveSearch.Result) :
  Permutation (CognitiveSearch.sortResults results) results.
Proof.
  unfold CognitiveSearch.sortResults.
  enough (H : forall acc,
    Permutation (fold_left (fun sorted x => CognitiveSearch.insertResult x sorted)
                   results acc) (acc ++ results)) by apply (H []).
  induction results as [| x r IH]; intros acc; simpl.
  - by rewrite app_nil_r.
  - rewrite IH, insertResult_perm. simpl. apply Permutation_middle.
Qed.

End Returns.

(** ** Empty and short queries *)

(** C1 (the part that holds).  For every people array, [search] called with
    an empty query, or with a query made of white space only, returns the
    empty result sequence; it does not throw. *)
Theorem search_blank_query (toLowerCase : jsstring -> jsstring)
    (query : jsstring) (people : list Person) :
  trim query = [] ->
  CognitiveSearch.search toLowerCase query people = Normal [].
Proof.
  intros H. unfold CognitiveSearch.search. rewrite H.
  by rewrite eqb_refl, orb_true_r.
Qed.

Lemma search_blank_query_witness :
  trim (lit "  ") = []
  /\ CognitiveSearch.search CognitiveSearch.asciiLower (lit "  ") [Sample.ali]
     = Normal [].
Proof.
  split; [reflexivity |].
  apply (search_blank_query CognitiveSearch.asciiLower (lit "  ") [Sample.ali]).
  reflexivity.
Defined.

(** C1 as stated fails: [search] has no minimum length.  The
    one-character query "a" finds the person named "ali" (the name contains
    the query, which scores 0.9). *)
Lemma search_one_char_query_matches :
  CognitiveSearch.search CognitiveSearch.asciiLower (lit "a") [Sample.ali]
  <> Normal [].
Proof. vm_compute. discriminate. Qed.

Example search_one_char_query_result :
  CognitiveSearch.search CognitiveSearch.asciiLower (lit "a") [Sample.ali]
  = Normal [CognitiveSearch.mkResult Sample.ali (9 # 10)
              CognitiveSearch.EnglishMatch].
Proof. vm_compute. reflexivity. Qed.

(** ** Cross-script search *)

Lemma dictionaryPath_ahmed :
  CognitiveSearch.dictionaryPath (lit "ahmed") Sample.ahmedAr = Return 1.
Proof. vm_compute. reflexivity. Qed.

Lemma getTransliterationScore_ahmed (toLowerCase : jsstring -> jsstring) :
  CognitiveSearch.getTransliterationScore toLowerCase (lit "ahmed")
    Sample.ahmedAr = Normal 1.
Proof.
  unfold CognitiveSearch.getTransliterationScore.
  rewrite dictionaryPath_ahmed. reflexivity.
Qed.

Lemma ahmed_not_inherited :
  get CognitiveSearch.englishToArabic (lit "ahmed") <> Inherited.
Proof. vm_compute. discriminate. Qed.

(** C8.  For the query "Ahmed" and every people array that contains a
    person whose primary name is the Arabic name for Ahmed, [search] returns
    a result for that person with a score above 0.6 and the match type
    'English to Arabic Transliteration'. *)
Theorem search_ahmed_cross_script (toLowerCase : jsstring -> jsstring)
    (people : list Person) (p : Person) :
  toLowerCase (lit "Ahmed") = lit "ahmed" ->
  In p people ->
  name p = Sample.ahmedAr ->
  exists results r,
    CognitiveSearch.search toLowerCase (lit "Ahmed") people = Normal results
    /\ In r results
    /\ CognitiveSearch.person r = p
    /\ 6 # 10 < CognitiveSearch.score r
    /\ CognitiveSearch.matchType r
       = CognitiveSearch.EnglishToArabicTransliteration.
Proof.
  intros Hlow Hin Hname.
  unfold CognitiveSearch.search.
  change (Js.eqb (lit "Ahmed") [] || Js.eqb (trim (lit "Ahmed")) []) with false.
  cbn iota.
  change (trim (lit "Ahmed")) with (lit "Ahmed"). rewrite Hlow.
  change (CognitiveSearch.normalizeText (lit "ahmed")) with (lit "ahmed").
  destruct (collect_returns toLowerCase (lit "ahmed") people
              (fun q _ => calculateMatchScore_returns toLowerCase (lit "ahmed") q
                            (or_intror ahmed_not_inherited)) [])
    as (res & -> & _ & Hnew).
  assert (Hscore : exists m,
    CognitiveSearch.calculateMatchScore toLowerCase (lit "ahmed") p
    = Normal (Qmax m 1)).
  { unfold CognitiveSearch.calculateMatchScore.
    rewrite Hname, getTransliterationScore_ahmed. simpl. eauto. }
  destruct Hscore as (m & Hscore).
  assert (Hone : 1 <= Qmax m 1) by apply Q.le_max_r.
  eexists _, _. split; [reflexivity |]. split.
  { simpl. eapply Permutation_in; [symmetry; apply sortResults_perm |].
    apply (Hnew p _ Hin Hscore).
    eapply Qlt_le_trans; [| exact Hone]. reflexivity. }
  simpl. split; [done |]. split.
  { eapply Qlt_le_trans; [| exact Hone]. reflexivity. }
  unfold CognitiveSearch.getMatchType. by rewrite Hname.
Qed.

Lemma search_ahmed_cross_script_witness :
  exists results r,
    CognitiveSearch.search CognitiveSearch.asciiLower (lit "Ahmed")
      [Sample.ali; Sample.ahmed] = Normal results
    /\ In r results
    /\ CognitiveSearch.person r = Sample.ahmed
    /\ 6 # 10 < CognitiveSearch.score r
    /\ CognitiveSearch.matchType r
       = CognitiveSearch.EnglishToArabicTransliteration.
Proof.
  apply (search_ahmed_cross_script CognitiveSearch.asciiLower
           [Sample.ali; Sample.ahmed] Sample.ahmed).
  - reflexivity.
  - simpl. right. left. reflexivity.
  - reflexivity.
Defined.

Example search_ahmed_ranking :
  CognitiveSearch.search CognitiveSearch.asciiLower (lit "Ahmed")
    [Sample.ali; Sample.ahmed]
  = Normal
      [CognitiveSearch.mkResult Sample.ahmed 1
         CognitiveSearch.EnglishToArabicTransliteration;
       CognitiveSearch.mkResult Sample.ali (1 # 5) CognitiveSearch.EnglishMatch].
Proof. vm_compute. reflexivity. Qed.

(** ** The two cross-script paths *)

(** C2 (what the code does).  For a query without Arabic code units and a
    name with one, the two paths run in sequence and the first hit wins:
    a hit of the dictionary path is returned at once; the generative path
    decides only when the dictionary path had no hit; when neither has a
    hit, the score is left to the two reverse-dictionary passes. *)
Theorem transliteration_first_hit (toLowerCase : jsstring -> jsstring)
    (query arabicName : jsstring) :
  CognitiveSearch.isArabic arabicName = true ->
  CognitiveSearch.isArabic query = false ->
  CognitiveSearch.getTransliterationScore toLowerCase query arabicName
  = match CognitiveSearch.dictionaryPath query arabicName with
    | Return d => Normal d
    | _ =>
        match CognitiveSearch.generativePath toLowerCase query arabicName with
        | Return g => Normal g
        | _ =>
            run (CognitiveSearch.reversePath query arabicName
                 >>> CognitiveSearch.partialPath query arabicName) 0
        end
    end.
Proof.
  intros Hname Hquery. unfold CognitiveSearch.getTransliterationScore.
  rewrite Hname, Hquery. cbn [negb andb].
  pose proof (dictionaryPath_no_raise query arabicName Hname) as Hd.
  pose proof (generativePath_no_raise toLowerCase query arabicName) as Hg.
  destruct (CognitiveSearch.dictionaryPath query arabicName);
    [| reflexivity | congruence].
  destruct (CognitiveSearch.generativePath toLowerCase query arabicName);
    [reflexivity | reflexivity | congruence].
Qed.

Lemma transliteration_first_hit_witness :
  CognitiveSearch.getTransliterationScore CognitiveSearch.asciiLower
    (lit "abd") Sample.abdullahAr
  = match CognitiveSearch.dictionaryPath (lit "abd") Sample.abdullahAr with
    | Return d => Normal d
    | _ =>
        match CognitiveSearch.generativePath CognitiveSearch.asciiLower
                (lit "abd") Sample.abdullahAr with
        | Return g => Normal g
        | _ =>
            run (CognitiveSearch.reversePath (lit "abd") Sample.abdullahAr
                 >>> CognitiveSearch.partialPath (lit "abd") Sample.abdullahAr) 0
        end
    end.
Proof.
  apply (transliteration_first_hit CognitiveSearch.asciiLower (lit "abd")
           Sample.abdullahAr); reflexivity.
Defined.

(** C2 as stated fails: the score is not the maximum of the two paths.
    For the query "abd" and the Arabic name for Abdullah the dictionary
    path hits first with 0.8 ("abdullah" contains the query) and that is
    returned, although the generative path alone scores 0.85 (the name
    contains the generated candidate). *)
Lemma transliteration_score_not_max :
  CognitiveSearch.isArabic Sample.abdullahAr = true
  /\ CognitiveSearch.isArabic (lit "abd") = false
  /\ Spec.dictionaryScore (lit "abd") Sample.abdullahAr = 8 # 10
  /\ Spec.generativeScore CognitiveSearch.asciiLower (lit "abd")
       Sample.abdullahAr = 85 # 100
  /\ exists s,
       CognitiveSearch.getTransliterationScore CognitiveSearch.asciiLower
         (lit "abd") Sample.abdullahAr = Normal s
       /\ ~ s == Qmax (Spec.dictionaryScore (lit "abd") Sample.abdullahAr)
                   (Spec.generativeScore CognitiveSearch.asciiLower (lit "abd")
                      Sample.abdullahAr).
Proof.
  split; [reflexivity |]. split; [reflexivity |].
  split; [vm_compute; reflexivity |]. split; [vm_compute; reflexivity |].
  exists (8 # 10). split; [vm_compute; reflexivity |].
  vm_compute. discriminate.
Qed.

(** ** [normalizeText] *)

Lemma normalizeText_unfold (text : jsstring) :
  CognitiveSearch.normalizeText text
  = trim (replaceSpaces (Spec.foldLetters text)).
Proof. reflexivity. Qed.

(** Simplification for a code unit [c] known to differ from the letters
    the passes look for. *)
Ltac other_unit c :=
  repeat match goal with
         | H : c <> _ |- _ => apply N.eqb_neq in H
         end;
  repeat first
    [ progress cbn [orb negb andb]
    | match goal with
      | H : (c =? _)%N = false |- _ => rewrite H
      end ].

Lemma foldLetters_map (text : jsstring) :
  Spec.foldLetters text
  = List.filter (fun c => negb (CognitiveSearch.isHamza c))
      (List.map Spec.foldUnit text).
Proof.
  unfold Spec.foldLetters, removeClass, replaceClass.
  by rewrite !List.map_map.
Qed.

Lemma foldUnit_settled (c : char) :
  CognitiveSearch.isHamza (Spec.foldUnit c) = false ->
  Spec.settled (Spec.foldUnit c) = true.
Proof.
  unfold Spec.foldUnit, Spec.settled, CognitiveSearch.isAlefVariant,
    CognitiveSearch.isYaaVariant, CognitiveSearch.isTaaVariant,
    CognitiveSearch.isWawVariant, CognitiveSearch.isHamza.
  destruct (N.eqb_spec c ALEF_HAMZA_ABOVE); [subst; by vm_compute |].
  destruct (N.eqb_spec c ALEF_HAMZA_BELOW); [subst; by vm_compute |].
  destruct (N.eqb_spec c ALEF_MADDA); [subst; by vm_compute |].
  destruct (N.eqb_spec c ALEF_MAKSURA); [subst; by vm_compute |].
  destruct (N.eqb_spec c YEH); [subst; by vm_compute |].
  destruct (N.eqb_spec c TEH_MARBUTA); [subst; by vm_compute |].
  destruct (N.eqb_spec c HEH); [subst; by vm_compute |].
  destruct (N.eqb_spec c WAW_HAMZA); [subst; by vm_compute |].
  destruct (N.eqb_spec c YEH_HAMZA); [subst; by vm_compute |].
  other_unit c. intros ->. reflexivity.
Qed.

Lemma foldUnit_id (c : char) : Spec.settled c = true -> Spec.foldUnit c = c.
Proof.
  unfold Spec.foldUnit, Spec.settled, CognitiveSearch.isAlefVariant,
    CognitiveSearch.isYaaVariant, CognitiveSearch.isTaaVariant,
    CognitiveSearch.isWawVariant, CognitiveSearch.isHamza.
  destruct (N.eqb_spec c ALEF_HAMZA_ABOVE); [subst; by vm_compute |].
  destruct (N.eqb_spec c ALEF_HAMZA_BELOW); [subst; by vm_compute |].
  destruct (N.eqb_spec c ALEF_MADDA); [subst; by vm_compute |].
  destruct (N.eqb_spec c ALEF_MAKSURA); [subst; by vm_compute |].
  destruct (N.eqb_spec c YEH); [subst; by vm_compute |].
  destruct (N.eqb_spec c TEH_MARBUTA); [subst; by vm_compute |].
  destruct (N.eqb_spec c HEH); [subst; by vm_compute |].
  destruct (N.eqb_spec c WAW_HAMZA); [subst; by vm_compute |].
  destruct (N.eqb_spec c YEH_HAMZA); [subst; by vm_compute |].
  other_unit c. reflexivity.
Qed.

Lemma settled_not_hamza (c : char) :
  Spec.settled c = true -> CognitiveSearch.isHamza c = false.
Proof.
  unfold Spec.settled. intros H. apply andb_true_iff in H as [_ H].
  by apply negb_true_iff.
Qed.

Lemma settled_SPACE : Spec.settled SPACE = true.
Proof. reflexivity. Qed.

(** The letter passes produce settled code units only ... *)
Lemma foldLetters_settled (text : jsstring) :
  Forall (fun c => Spec.settled c = true) (Spec.foldLetters text).
Proof.
  rewrite foldLetters_map. apply List.Forall_forall. intros c Hc.
  apply filter_In in Hc as [Hc Hh]. apply in_map_iff in Hc as (c0 & <- & _).
  apply foldUnit_settled. by apply negb_true_iff.
Qed.

(** ... and leave a string of settled code units as it is. *)
Lemma foldLetters_id (text : jsstring) :
  Forall (fun c => Spec.settled c = true) text -> Spec.foldLetters text = text.
Proof.
  rewrite foldLetters_map. induction 1 as [| c r Hc Hr IH]; simpl; [done |].
  rewrite (foldUnit_id c Hc), (settled_not_hamza c Hc). simpl. by rewrite IH.
Qed.

Lemma replaceSpaces_collapsed (s : jsstring) :
  Spec.collapsed (replaceSpaces s) = true.
Proof.
  induction s as [| c r IH]; [reflexivity |].
  cbn [replaceSpaces]. destruct (isSpace c) eqn:Hc.
  - destruct r as [| c' r']; [reflexivity |].
    destruct (isSpace c') eqn:Hc'; [exact IH |].
    cbn [replaceSpaces] in IH |- *. rewrite Hc' in IH |- *.
    cbn [Spec.collapsed] in IH |- *. rewrite Hc' in IH |- *.
    exact IH.
  - cbn [Spec.collapsed]. by rewrite Hc, IH.
Qed.

Lemma replaceSpaces_id (s : jsstring) :
  Spec.collapsed s = true -> replaceSpaces s = s.
Proof.
  induction s as [| c r IH]; [reflexivity |].
  cbn [Spec.collapsed replaceSpaces]. destruct (isSpace c) eqn:Hc.
  - intros H. apply andb_true_iff in H as [H Hr].
    apply andb_true_iff in H as [Hsp Hnext]. apply N.eqb_eq in Hsp. subst c.
    destruct r as [| c' r']; [reflexivity |].
    apply negb_true_iff in Hnext. rewrite Hnext. by rewrite IH.
  - intros H. by rewrite IH.
Qed.

Lemma replaceSpaces_settled (s : jsstring) :
  Forall (fun c => Spec.settled c = true) s ->
  Forall (fun c => Spec.settled c = true) (replaceSpaces s).
Proof.
  induction 1 as [| c r Hc Hr IH]; [constructor |].
  cbn [replaceSpaces]. destruct (isSpace c).
  - destruct r as [| c' r']; [by repeat constructor |].
    destruct (isSpace c'); [exact IH | by constructor].
  - by constructor.
Qed.

Lemma collapsed_app (a b : jsstring) :
  Spec.collapsed (a ++ b) = true ->
  Spec.collapsed a = true /\ Spec.collapsed b = true.
Proof.
  induction a as [| c a IH]; [by split |].
  cbn [app Spec.collapsed]. intros H. apply andb_true_iff in H as [Hc Hr].
  destruct (IH Hr) as [Ha Hb]. split; [| done].
  rewrite Ha, andb_true_r. destruct (isSpace c); [| done].
  apply andb_true_iff in Hc as [-> Hn]. destruct a; [done | exact Hn].
Qed.

(** *** [trim] *)

Lemma trimStart_suffix (s : jsstring) : exists a, s = a ++ trimStart s.
Proof.
  induction s as [| c r (a & IH)]; [by exists [] |].
  cbn [trimStart]. destruct (isSpace c); [| by exists []].
  exists (c :: a). simpl. by f_equal.
Qed.

Lemma trimEnd_prefix (s : jsstring) : exists b, s = trimEnd s ++ b.
Proof.
  unfold trimEnd. destruct (trimStart_suffix (rev s)) as (a & H).
  exists (rev a). rewrite <- rev_app_distr, <- H. by rewrite rev_involutive.
Qed.

Lemma trim_infix (s : jsstring) : exists a b, s = a ++ trim s ++ b.
Proof.
  unfold trim. destruct (trimStart_suffix s) as (a & Ha).
  destruct (trimEnd_prefix (trimStart s)) as (b & Hb).
  exists a, b. by rewrite <- Hb.
Qed.

Lemma trimStart_head (s : jsstring) (c : char) (r : jsstring) :
  trimStart s = c :: r -> isSpace c = false.
Proof.
  induction s as [| x s IH]; [discriminate |].
  cbn [trimStart]. destruct (isSpace x) eqn:Hx; [exact IH |].
  intros [= <- <-]. exact Hx.
Qed.

Lemma trimStart_unspaced (c : char) (r : jsstring) :
  isSpace c = false -> trimStart (c :: r) = c :: r.
Proof. intros H. cbn [trimStart]. by rewrite H. Qed.

Lemma trimStart_idem (s : jsstring) : trimStart (trimStart s) = trimStart s.
Proof.
  destruct (trimStart s) as [| c r] eqn:E; [reflexivity |].
  apply trimStart_unspaced. by apply (trimStart_head s c r).
Qed.

Lemma trimStart_snoc (l : jsstring) (c : char) :
  isSpace c = false -> trimStart (l ++ [c]) = trimStart l ++ [c].
Proof.
  intros Hc. induction l as [| x l IH]; cbn [app trimStart].
  - by rewrite Hc.
  - destruct (isSpace x); [exact IH | reflexivity].
Qed.

Lemma trimEnd_cons (c : char) (s : jsstring) :
  isSpace c = false -> trimEnd (c :: s) = c :: trimEnd s.
Proof.
  intros Hc. unfold trimEnd. cbn [rev].
  rewrite (trimStart_snoc _ _ Hc), rev_app_distr. reflexivity.
Qed.

Lemma trimEnd_idem (s : jsstring) : trimEnd (trimEnd s) = trimEnd s.
Proof. unfold trimEnd. by rewrite rev_involutive, trimStart_idem. Qed.

Lemma trim_idem (s : jsstring) : trim (trim s) = trim s.
Proof.
  unfold trim. destruct (trimStart s) as [| c r] eqn:E; [reflexivity |].
  pose proof (trimStart_head s c r E) as Hc.
  rewrite !(trimEnd_cons c r Hc), (trimStart_unspaced c _ Hc).
  by rewrite (trimEnd_cons c _ Hc), trimEnd_idem.
Qed.

(** *** The normal form *)

(** What [normalizeText] returns: settled letters, single spaces, no
    white space at either end. *)
Lemma normalizeText_normal (text : jsstring) :
  let n := CognitiveSearch.normalizeText text in
  Forall (fun c => Spec.settled c = true) n
  /\ Spec.collapsed n = true
  /\ trim n = n.
Proof.
  cbn zeta. rewrite normalizeText_unfold.
  set (u := replaceSpaces (Spec.foldLetters text)).
  destruct (trim_infix u) as (a & b & Hu).
  pose proof (replaceSpaces_settled _ (foldLetters_settled text)) as Hs.
  pose proof (replaceSpaces_collapsed (Spec.foldLetters text)) as Hc.
  fold u in Hs, Hc. rewrite Hu in Hs, Hc.
  apply Forall_app in Hs as [_ Hs]. apply Forall_app in Hs as [Hs _].
  apply collapsed_app in Hc as [_ Hc]. apply collapsed_app in Hc as [Hc _].
  split; [exact Hs |]. split; [exact Hc |]. apply trim_idem.
Qed.

(** C10.  [normalizeText] is idempotent. *)
Theorem normalizeText_idempotent (text : jsstring) :
  CognitiveSearch.normalizeText (CognitiveSearch.normalizeText text)
  = CognitiveSearch.normalizeText text.
Proof.
  destruct (normalizeText_normal text) as (Hs & Hc & Ht).
  rewrite (normalizeText_unfold (CognitiveSearch.normalizeText text)).
  by rewrite (foldLetters_id _ Hs), (replaceSpaces_id _ Hc).
Qed.

Example normalizeText_sample :
  CognitiveSearch.normalizeText
    ([SPACE; ALEF_HAMZA_ABOVE; HAH; MEEM; DAL; SPACE; SPACE; HAMZA; SPACE]
     ++ [AIN; LAM; ALEF_MAKSURA; 0x09%N])
  = [ALEF; HAH; MEEM; DAL; SPACE; AIN; LAM; YEH].
Proof. reflexivity. Qed.

(** ** Bounds on the scores *)

Lemma ofNat_nonneg (n : nat) : 0 <= CognitiveSearch.ofNat n.
Proof.
  unfold CognitiveSearch.ofNat. change 0 with (inject_Z 0).
  rewrite <- Zle_Qle. lia.
Qed.

Lemma getTextSimilarity_le_1 (a b : jsstring) :
  CognitiveSearch.getTextSimilarity a b <= 1.
Proof.
  unfold CognitiveSearch.getTextSimilarity.
  destruct (Js.eqb a b); [apply Qle_refl |].
  destruct (length a =? 0)%nat; [done |].
  destruct (length b =? 0)%nat; [done |].
  cbn zeta.
  assert (H : 0 <= CognitiveSearch.ofNat (CognitiveSearch.levenshteinDistance a b)
                   / CognitiveSearch.ofNat (Nat.max (length a) (length b))).
  { unfold Qdiv. apply Qmult_le_0_compat; [apply ofNat_nonneg |].
    apply Qinv_le_0_compat, ofNat_nonneg. }
  lra.
Qed.

Lemma forOf_return {A X} (xs : list X) (body : X -> flow A) (a : A) :
  forOf xs body = Return a -> exists x, In x xs /\ body x = Return a.
Proof.
  induction xs as [| x r IH]; simpl; [discriminate |].
  destruct (body x) eqn:E; simpl; try discriminate.
  - intros H. destruct (IH H) as (y & Hy & Hb). eauto.
  - intros [= <-]. eauto.
Qed.

Section ScoreBounds.
Variable toLowerCase : jsstring -> jsstring.

Lemma getTransliterationScore_le_1 (query arabicName : jsstring) (t : Q) :
  CognitiveSearch.getTransliterationScore toLowerCase query arabicName
  = Normal t ->
  t <= 1.
Proof.
  unfold CognitiveSearch.getTransliterationScore.
  set (first :=
         if CognitiveSearch.isArabic arabicName
            && negb (CognitiveSearch.isArabic query)
         then CognitiveSearch.dictionaryPath query arabicName
              >>> CognitiveSearch.generativePath toLowerCase query arabicName
         else Continue).
  assert (Hstep : forall f : flow Q,
    (f = first \/ f = CognitiveSearch.reversePath query arabicName
     \/ f = CognitiveSearch.partialPath query arabicName) ->
    forall s, f = Return s -> s <= 1).
  { intros f Hf s Hs. destruct Hf as [-> | [-> | ->]].
    - unfold first in Hs.
      destruct (_ && _); [| discriminate].
      destruct (CognitiveSearch.dictionaryPath query arabicName) eqn:Ed;
        simpl in Hs; try discriminate.
      + unfold CognitiveSearch.generativePath in Hs.
        destruct (CognitiveSearch.buildArabicCandidatesFromEnglish _ _);
          [| discriminate].
        apply forOf_return in Hs as (c & _ & Hc).
        unfold CognitiveSearch.candidateStep in Hc.
        destruct (CognitiveSearch.gtb _ _);
          [injection Hc as <-; apply getTextSimilarity_le_1 |].
        destruct (includes _ _); [injection Hc as <-; done | discriminate].
      + injection Hs as <-. unfold CognitiveSearch.dictionaryPath in Ed.
        destruct (get _ _); try discriminate.
        apply forOf_return in Ed as (c & _ & Hc).
        unfold CognitiveSearch.dictionaryStep in Hc.
        destruct (CognitiveSearch.gtb _ _);
          [injection Hc as <-; apply getTextSimilarity_le_1 |].
        destruct (_ || _); [injection Hc as <-; done | discriminate].
    - unfold CognitiveSearch.reversePath in Hs.
      destruct (negb _); [| discriminate].
      destruct (get _ _); try discriminate.
      apply forOf_return in Hs as (c & _ & Hc).
      unfold CognitiveSearch.reverseStep in Hc.
      destruct (CognitiveSearch.gtb _ _);
        [injection Hc as <-; apply getTextSimilarity_le_1 |].
      destruct (_ || _); [injection Hc as <-; done | discriminate].
    - unfold CognitiveSearch.partialPath in Hs.
      apply forOf_return in Hs as (e & _ & He).
      apply forOf_return in He as (c & _ & Hc).
      unfold CognitiveSearch.partialStep in Hc.
      destruct (_ || _); [| discriminate].
      destruct (CognitiveSearch.gtb _ _); [| discriminate].
      injection Hc as <-.
      pose proof (getTextSimilarity_le_1 (fst e) arabicName). lra. }
  destruct first eqn:E1; simpl.
  - destruct (CognitiveSearch.reversePath query arabicName) eqn:E2; simpl.
    + destruct (CognitiveSearch.partialPath query arabicName) eqn:E3; simpl.
      * intros [= <-]. done.
      * intros [= <-]. apply (Hstep _ (or_intror (or_intror eq_refl)) _ eq_refl).
      * discriminate.
    + intros [= <-]. apply (Hstep _ (or_intror (or_introl eq_refl)) _ eq_refl).
    + discriminate.
  - intros [= <-]. apply (Hstep _ (or_introl eq_refl) _ eq_refl).
  - discriminate.
Qed.

Lemma altNameStep_bounds (query : jsstring) (m : Q) (altName : jsstring) :
  m <= CognitiveSearch.altNameStep toLowerCase query m altName
  /\ (m <= 1 -> CognitiveSearch.altNameStep toLowerCase query m altName <= 1).
Proof.
  unfold CognitiveSearch.altNameStep.
  set (alt := CognitiveSearch.getTextSimilarity query _).
  assert (Halt : alt <= 1) by apply getTextSimilarity_le_1.
  assert (Hl : m <= Qmax m (alt * (8 # 10))) by apply Q.le_max_l.
  assert (Hu : m <= 1 -> Qmax m (alt * (8 # 10)) <= 1).
  { intros Hm. apply Q.max_lub; [done | lra]. }
  destruct (_ || _); [| by split].
  split.
  - eapply Qle_trans; [exact Hl | apply Q.le_max_l].
  - intros Hm. apply Q.max_lub; [by apply Hu | done].
Qed.

Lemma altNames_fold_bounds (query : jsstring) (alts : list jsstring) (m : Q) :
  m <= fold_left (CognitiveSearch.altNameStep toLowerCase query) alts m
  /\ (m <= 1 ->
      fold_left (CognitiveSearch.altNameStep toLowerCase query) alts m <= 1).
Proof.
  revert m. induction alts as [| a r IH]; intros m; simpl.
  - split; [apply Qle_refl | done].
  - destruct (altNameStep_bounds query m a) as [Hl Hu].
    destruct (IH (CognitiveSearch.altNameStep toLowerCase query m a)) as [Hl' Hu'].
    split; [by eapply Qle_trans | auto].
Qed.


End ScoreBounds.

(** ** Spellings that normalise to the same string *)



(** The proviso of the last part is needed: the reverse dictionary is a
    plain object, and for a query that names a member of
    [Object.prototype] the transliteration pass throws. *)
Remark prototype_name_query_throws :
  CognitiveSearch.calculateMatchScore CognitiveSearch.asciiLower
    (lit "constructor")
    (Sample.person "P-000009" (lit "constructor") None None) = Throw.
Proof. vm_compute. reflexivity. Qed.

(** ** Edit scripts *)

Import Spec.

Lemma edits_app (s1 t1 s2 t2 : jsstring) (n1 n2 : nat) :
  edits s1 t1 n1 -> edits s2 t2 n2 -> edits (s1 ++ s2) (t1 ++ t2) (n1 + n2).
Proof.
  intros H1 H2. induction H1; simpl; [done | | | |]; by constructor.
Qed.

Lemma edits_rev (s t : jsstring) (n : nat) :
  edits s t n -> edits (rev s) (rev t) n.
Proof.
  induction 1 as [| c s t n _ IH | a b s t n Hab _ IH | a s t n _ IH
                 | b s t n _ IH]; simpl.
  - constructor.
  - replace n with (n + 0)%nat by lia.
    apply edits_app; [done | repeat constructor].
  - replace (S n) with (n + 1)%nat by lia.
    apply edits_app; [done | by repeat constructor].
  - replace (S n) with (n + 1)%nat by lia.
    rewrite <- (app_nil_r (rev t)).
    apply edits_app; [done | repeat constructor].
  - replace (S n) with (n + 1)%nat by lia.
    rewrite <- (app_nil_r (rev s)).
    apply edits_app; [done | repeat constructor].
Qed.

Lemma edits_to_nil (s : jsstring) : edits s [] (length s).
Proof. induction s; simpl; by constructor. Qed.

Lemma edits_from_nil (t : jsstring) : edits [] t (length t).
Proof. induction t; simpl; by constructor. Qed.

Lemma edits_to_nil_cost (s : jsstring) (n : nat) :
  edits s [] n -> n = length s.
Proof.
  intros H. remember [] as t eqn:Et. induction H; try discriminate; simpl.
  - done.
  - by rewrite IHedits.
Qed.

Lemma edits_from_nil_cost (t : jsstring) (n : nat) :
  edits [] t n -> n = length t.
Proof.
  intros H. remember [] as s eqn:Es. induction H; try discriminate; simpl.
  - done.
  - by rewrite IHedits.
Qed.

(** Dropping the first unit of the target costs at most one more. *)
Lemma edits_drop_target (s : jsstring) (b : char) (t : jsstring) (n : nat) :
  edits s (b :: t) n -> exists m, (m <= S n)%nat /\ edits s t m.
Proof.
  intros H. remember (b :: t) as t' eqn:Et. revert b t Et.
  induction H as [| c s t' n H IH | a b' s t' n Hab H IH | a s t' n H IH
                 | b' s t' n H IH]; intros b t Et; try discriminate.
  - injection Et as -> ->. exists (S n). split; [lia | by constructor].
  - injection Et as -> ->. exists (S n). split; [lia | by constructor].
  - destruct (IH b t Et) as (m & Hm & He).
    exists (S m). split; [lia | by constructor].
  - injection Et as -> ->. exists n. split; [lia | done].
Qed.

(** Dropping the first unit of the source costs at most one more. *)
Lemma edits_drop_source (a : char) (s t : jsstring) (n : nat) :
  edits (a :: s) t n -> exists m, (m <= S n)%nat /\ edits s t m.
Proof.
  intros H. remember (a :: s) as s' eqn:Es. revert a s Es.
  induction H as [| c s' t n H IH | a' b s' t n Hab H IH | a' s' t n H IH
                 | b s' t n H IH]; intros a s Es; try discriminate.
  - injection Es as -> ->. exists (S n). split; [lia | by constructor].
  - injection Es as -> ->. exists (S n). split; [lia | by constructor].
  - injection Es as -> ->. exists n. split; [lia | done].
  - destruct (IH a s Es) as (m & Hm & He).
    exists (S m). split; [lia | by constructor].
Qed.

Lemma edits_rev_iff (s t : jsstring) (n : nat) :
  edits (rev s) (rev t) n <-> edits s t n.
Proof.
  split; [| apply edits_rev].
  intros H. apply edits_rev in H. by rewrite !rev_involutive in H.
Qed.

Lemma edits_drop_last_target (s t : jsstring) (b : char) (n : nat) :
  edits s (t ++ [b]) n -> exists m, (m <= S n)%nat /\ edits s t m.
Proof.
  intros H. apply edits_rev in H. rewrite rev_app_distr in H. simpl in H.
  apply edits_drop_target in H as (m & Hm & H).
  exists m. split; [done | by apply edits_rev_iff].
Qed.

Lemma edits_drop_last_source (s t : jsstring) (a : char) (n : nat) :
  edits (s ++ [a]) t n -> exists m, (m <= S n)%nat /\ edits s t m.
Proof.
  intros H. apply edits_rev in H. rewrite rev_app_distr in H. simpl in H.
  apply edits_drop_source in H as (m & Hm & H).
  exists m. split; [done | by apply edits_rev_iff].
Qed.

(** The last step of a script between two non-empty strings. *)
Lemma edits_last_step (s t : jsstring) (a b : char) (n : nat) :
  edits (s ++ [a]) (t ++ [b]) n ->
  (a = b /\ edits s t n)
  \/ exists m, n = S m
       /\ ((a <> b /\ edits s t m)
           \/ edits s (t ++ [b]) m
           \/ edits (s ++ [a]) t m).
Proof.
  intros H. apply edits_rev in H. rewrite !rev_app_distr in H. simpl in H.
  inversion H as [| c s' t' n' H' | a' b' s' t' n' Hab H' | a' s' t' n' H'
                 | b' s' t' n' H']; subst.
  - left. split; [done | by apply edits_rev_iff].
  - right. exists n'. split; [done |]. left.
    split; [done | by apply edits_rev_iff].
  - right. exists n'. split; [done |]. right. left.
    apply edits_rev_iff. by rewrite rev_app_distr.
  - right. exists n'. split; [done |]. right. right.
    apply edits_rev_iff. by rewrite rev_app_distr.
Qed.

(** ** The matrix of [levenshteinDistance] *)

Lemma editDistance_nil_l (t : jsstring) : editDistance [] t (length t).
Proof.
  split; [apply edits_from_nil |].
  intros n H. apply edits_from_nil_cost in H. lia.
Qed.

Lemma editDistance_nil_r (s : jsstring) : editDistance s [] (length s).
Proof.
  split; [apply edits_to_nil |].
  intros n H. apply edits_to_nil_cost in H. lia.
Qed.

(** The recurrence of the inner loop: the cell for [s ++ [a]] and
    [t ++ [b]] from its three neighbours. *)
Lemma editDistance_step (s t : jsstring) (a b : char) (diag left up : nat) :
  editDistance s t diag ->
  editDistance s (t ++ [b]) left ->
  editDistance (s ++ [a]) t up ->
  editDistance (s ++ [a]) (t ++ [b])
    (if (b =? a)%N then diag
     else CognitiveSearch.min3 (diag + 1) (left + 1) (up + 1)).
Proof.
  intros [Hd Hdmin] [Hl Hlmin] [Hu Humin].
  destruct (N.eqb_spec b a) as [-> | Hne].
  - split.
    + replace diag with (diag + 0)%nat by lia.
      apply edits_app; [done | repeat constructor].
    + intros n H. apply edits_last_step in H
        as [[_ H] | (m & -> & [[Hab _] | [H | H]])].
      * by apply Hdmin.
      * done.
      * apply edits_drop_last_target in H as (m' & Hm' & H).
        apply Hdmin in H. lia.
      * apply edits_drop_last_source in H as (m' & Hm' & H).
        apply Hdmin in H. lia.
  - split.
    + unfold CognitiveSearch.min3.
      destruct (Nat.min_spec (diag + 1) (Nat.min (left + 1) (up + 1)))
        as [[_ ->] | [_ ->]];
        [| destruct (Nat.min_spec (left + 1) (up + 1)) as [[_ ->] | [_ ->]]].
      * apply edits_app; [done |]. apply edits_substitute; [congruence |].
        constructor.
      * rewrite <- (app_nil_r (t ++ [b])).
        apply edits_app; [done | repeat constructor].
      * rewrite <- (app_nil_r (s ++ [a])).
        apply edits_app; [done | repeat constructor].
    + unfold CognitiveSearch.min3.
      intros n H. apply edits_last_step in H
        as [[Hab _] | (m & -> & [[_ H] | [H | H]])].
      * congruence.
      * apply Hdmin in H. lia.
      * apply Hlmin in H. lia.
      * apply Humin in H. lia.
Qed.

Lemma fillRow_spec (c2 : char) (t : jsstring) :
  forall (rest p : jsstring) (prev : list nat) (left : nat),
    length prev = S (length rest) ->
    (forall k, (k <= length rest)%nat ->
       editDistance (p ++ firstn k rest) t (nth k prev 0%nat)) ->
    editDistance p (t ++ [c2]) left ->
    length (CognitiveSearch.fillRow c2 rest prev left) = length rest
    /\ forall k, (k < length rest)%nat ->
         editDistance (p ++ firstn (S k) rest) (t ++ [c2])
           (nth k (CognitiveSearch.fillRow c2 rest prev left) 0%nat).
Proof.
  induction rest as [| c1 rest IH]; intros p prev left Hlen Hprev Hleft.
  - split; [by destruct prev | simpl; lia].
  - destruct prev as [| diag [| up prev]]; try (simpl in Hlen; lia).
    cbn [CognitiveSearch.fillRow].
    set (cell := if (c2 =? c1)%N then diag
                 else CognitiveSearch.min3 (diag + 1) (left + 1) (up + 1)).
    assert (Hcell : editDistance (p ++ [c1]) (t ++ [c2]) cell).
    { apply editDistance_step; [| done |].
      - specialize (Hprev 0%nat ltac:(simpl; lia)).
        simpl in Hprev. by rewrite app_nil_r in Hprev.
      - apply (Hprev 1%nat). simpl. lia. }
    destruct (IH (p ++ [c1]) (up :: prev) cell) as [Hl Hrow].
    + simpl in Hlen |- *. lia.
    + intros k Hk. rewrite <- app_assoc. apply (Hprev (S k)). simpl. lia.
    + exact Hcell.
    + split; [simpl; by rewrite Hl |].
      intros [| k] Hk.
      * exact Hcell.
      * specialize (Hrow k ltac:(simpl in Hk; lia)).
        rewrite <- app_assoc in Hrow. exact Hrow.
Qed.

Lemma nextRow_spec (str1 t : jsstring) (prev : list nat) (c2 : char) :
  rowFor str1 t prev ->
  rowFor str1 (t ++ [c2])
    (CognitiveSearch.nextRow str1 prev (S (length t)) c2).
Proof.
  intros [Hlen Hprev]. unfold CognitiveSearch.nextRow.
  assert (Hleft : editDistance [] (t ++ [c2]) (S (length t))).
  { pose proof (editDistance_nil_l (t ++ [c2])) as H.
    rewrite length_app in H. simpl in H.
    by replace (length t + 1)%nat with (S (length t)) in H by lia. }
  destruct (fillRow_spec c2 t str1 [] prev (S (length t)) Hlen Hprev Hleft)
    as [Hl Hrow].
  split; [simpl; by rewrite Hl |].
  intros [| j] Hj; [exact Hleft |].
  apply (Hrow j). lia.
Qed.

Lemma rowsFrom_spec (str1 : jsstring) :
  forall (rest t : jsstring) (prev : list nat),
    rowFor str1 t prev ->
    rowFor str1 (t ++ rest)
      (CognitiveSearch.rowsFrom str1 rest prev (S (length t))).
Proof.
  induction rest as [| c2 rest IH]; intros t prev Hprev; simpl.
  - by rewrite app_nil_r.
  - replace (t ++ c2 :: rest) with ((t ++ [c2]) ++ rest)
      by (by rewrite <- app_assoc).
    replace (S (S (length t))) with (S (length (t ++ [c2])))
      by (rewrite length_app; simpl; lia).
    apply IH. by apply nextRow_spec.
Qed.

Lemma firstRow_spec (str1 : jsstring) :
  rowFor str1 [] (List.seq 0 (S (length str1))).
Proof.
  split; [by rewrite length_seq |].
  intros j Hj. rewrite seq_nth by lia. simpl.
  pose proof (editDistance_nil_r (firstn j str1)) as H.
  rewrite length_firstn in H.
  by replace (Nat.min j (length str1)) with j in H by lia.
Qed.

Lemma last_is_nth {A} (l : list A) (d : A) :
  List.last l d = nth (length l - 1) l d.
Proof.
  induction l as [| a [| b l] IH]; [done | done |].
  change (List.last (a :: b :: l) d) with (List.last (b :: l) d).
  rewrite IH. simpl. by rewrite Nat.sub_0_r.
Qed.

(** The result of the matrix computation is the edit distance. *)
Lemma levenshteinDistance_spec (str1 str2 : jsstring) :
  editDistance str1 str2 (CognitiveSearch.levenshteinDistance str1 str2).
Proof.
  unfold CognitiveSearch.levenshteinDistance. cbn zeta.
  pose proof (rowsFrom_spec str1 str2 [] _ (firstRow_spec str1)) as [Hlen Hrow].
  simpl in Hlen, Hrow.
  set (row := CognitiveSearch.rowsFrom str1 str2 _ 1) in *.
  specialize (Hrow (length str1) (le_n _)).
  rewrite firstn_all in Hrow.
  rewrite last_is_nth.
  by replace (length row - 1)%nat with (length str1) by lia.
Qed.

Lemma editDistance_unique (s t : jsstring) (d1 d2 : nat) :
  editDistance s t d1 -> editDistance s t d2 -> d1 = d2.
Proof.
  intros [H1 M1] [H2 M2]. apply M1 in H2. apply M2 in H1. lia.
Qed.

(** C3.  [levenshteinDistance] computes the unit-cost edit distance.
    Equal strings have similarity exactly 1, and whenever one of the two
    strings is not empty, [getTextSimilarity a b] is
    [1 - levenshtein(a, b) / max(len a, len b)]. *)
Theorem getTextSimilarity_spec (a b : jsstring) (d : nat) :
  editDistance a b d ->
  CognitiveSearch.levenshteinDistance a b = d
  /\ (a = b -> CognitiveSearch.getTextSimilarity a b = 1)
  /\ (a <> [] \/ b <> [] ->
      CognitiveSearch.getTextSimilarity a b
      == 1 - inject_Z (Z.of_nat d)
             / inject_Z (Z.of_nat (Nat.max (length a) (length b)))).
Proof.
  intros Hd.
  assert (Hlev : CognitiveSearch.levenshteinDistance a b = d)
    by (eapply editDistance_unique; [apply levenshteinDistance_spec | done]).
  split; [exact Hlev |]. split.
  - intros ->. unfold CognitiveSearch.getTextSimilarity. by rewrite eqb_refl.
  - intros Hne. unfold CognitiveSearch.getTextSimilarity.
    destruct (Js.eqb a b) eqn:Eab.
    + apply eqb_true in Eab. subst b.
      assert (d = 0%nat) as ->.
      { eapply editDistance_unique; [exact Hd |].
        split; [| intros; lia].
        clear. induction a; by constructor. }
      assert (Hpos : ~ inject_Z (Z.of_nat (Nat.max (length a) (length a))) == 0).
      { change 0 with (inject_Z 0). rewrite inject_Z_injective.
        destruct a; [by destruct Hne | simpl; lia]. }
      simpl. field. exact Hpos.
    + destruct a as [| x a].
      { simpl. destruct b as [| y b]; [by apply eqb_false in Eab |].
        pose proof (editDistance_unique _ _ _ _ Hd
                      (editDistance_nil_l (y :: b))) as ->.
        cbn [length Nat.max]. field.
        change 0 with (inject_Z 0). rewrite inject_Z_injective. lia. }
      destruct b as [| y b].
      { cbn [length Nat.eqb].
        pose proof (editDistance_unique _ _ _ _ Hd
                      (editDistance_nil_r (x :: a))) as ->.
        rewrite Nat.max_0_r. cbn [length]. field.
        change 0 with (inject_Z 0). rewrite inject_Z_injective. lia. }
      cbn [length Nat.eqb]. cbn zeta. rewrite Hlev. reflexivity.
Qed.

Lemma getTextSimilarity_spec_witness :
  CognitiveSearch.levenshteinDistance (lit "kitten") (lit "sitting") = 3%nat
  /\ CognitiveSearch.getTextSimilarity (lit "kitten") (lit "sitting")
     == 1 - inject_Z 3 / inject_Z 7.
Proof.
  destruct (getTextSimilarity_spec (lit "kitten") (lit "sitting") 3
              (levenshteinDistance_spec (lit "kitten") (lit "sitting")))
    as (H1 & _ & H2).
  split; [exact H1 |]. apply H2. left. discriminate.
Defined.

(** ** Admin edits and deletes *)

Lemma in_personRefs (p : Person) (r : jsstring) :
  In r (personRefs p) <->
  fatherId p = Some r \/ motherId p = Some r
  \/ exists ids, spouseIds p = Some ids /\ In r ids.
Proof.
  unfold personRefs. rewrite !in_app_iff.
  destruct (fatherId p) as [f |], (motherId p) as [m |],
    (spouseIds p) as [ids |]; simpl; split; intros H;
    repeat match goal with
           | H : _ \/ _ |- _ => destruct H
           | H : exists _, _ |- _ => destruct H as (? & ? & ?)
           | H : False |- _ => destruct H
           | H : Some _ = Some _ |- _ => injection H as ->
           | H : None = Some _ |- _ => discriminate H
           end; subst; eauto 6.
Qed.

Lemma refIs_true (r : ref) (s : jsstring) : refIs r s = true <-> r = Some s.
Proof.
  destruct r as [x |]; simpl.
  - rewrite eqb_true. split; [by intros -> | by intros [= ->]].
  - split; discriminate.
Qed.

(** What [forEach] leaves of the references of a person. *)
Lemma forgetPerson_refs (personId : jsstring) (p : Person) (r : jsstring) :
  In r (personRefs (AdminPanel.forgetPerson personId p)) <->
  In r (personRefs p) /\ r <> personId.
Proof.
  rewrite !in_personRefs. unfold AdminPanel.forgetPerson. simpl.
  assert (Href : forall x : ref,
    (if refIs x personId then None else x) = Some r
    <-> x = Some r /\ r <> personId).
  { intros x. destruct (refIs x personId) eqn:E.
    - apply refIs_true in E. subst x. split; [discriminate |].
      intros [[= ->] H]. by destruct H.
    - split.
      + intros ->. split; [done |]. intros ->.
        simpl in E. by rewrite eqb_refl in E.
      + by intros [-> _]. }
  rewrite !Href. split.
  - intros [[H Hne] | [[H Hne] | (ids & Hs & Hin)]].
    + split; [by left | done].
    + split; [right; by left | done].
    + destruct (spouseIds p) as [ids0 |]; [| discriminate].
      injection Hs as <-. apply filter_In in Hin as [Hin Hne].
      split; [right; right; by exists ids0 |].
      apply negb_true_iff, eqb_false in Hne. done.
  - intros [[H | [H | (ids & Hs & Hin)]] Hne].
    + left. by split.
    + right. left. by split.
    + right. right. rewrite Hs. eexists. split; [reflexivity |].
      apply filter_In. split; [done |].
      by apply negb_true_iff, eqb_false.
Qed.

Lemma deletePerson_people (personId : jsstring) (tree : AdminPanel.Tree)
    (q : Person) :
  In q (people (AdminPanel.data (AdminPanel.deletePerson personId true tree).1))
  <-> exists p, In p (people (AdminPanel.data tree))
        /\ id p <> personId /\ q = AdminPanel.forgetPerson personId p.
Proof.
  simpl. rewrite in_map_iff. split.
  - intros (p & <- & Hp). apply filter_In in Hp as [Hp Hne].
    exists p. split; [done |]. split; [| done].
    by apply negb_true_iff, eqb_false in Hne.
  - intros (p & Hp & Hne & ->). exists p. split; [done |].
    apply filter_In. split; [done |]. by apply negb_true_iff, eqb_false.
Qed.

Lemma deletePerson_hasId (personId : jsstring) (tree : AdminPanel.Tree)
    (i : jsstring) :
  hasId (AdminPanel.data (AdminPanel.deletePerson personId true tree).1) i
  <-> hasId (AdminPanel.data tree) i /\ i <> personId.
Proof.
  unfold hasId. split.
  - intros (q & Hq & <-). apply deletePerson_people in Hq as (p & Hp & Hne & ->).
    split; [by exists p | done].
  - intros [(p & Hp & <-) Hne].
    exists (AdminPanel.forgetPerson personId p). split; [| done].
    apply deletePerson_people. by exists p.
Qed.

Lemma deletePerson_marriages (personId : jsstring) (tree : AdminPanel.Tree)
    (m : Marriage) :
  In m (marriages
          (AdminPanel.data (AdminPanel.deletePerson personId true tree).1))
  <-> In m (marriages (AdminPanel.data tree))
      /\ spouse1Id m <> personId /\ spouse2Id m <> personId.
Proof.
  simpl. rewrite filter_In, andb_true_iff, !negb_true_iff, !eqb_false. done.
Qed.

(** C4 (what the code does).  [deletePerson], once confirmed, and
    [updatePerson] change the data of the tree in place and only then call
    [updateData] of the tree, so what follows holds of the data they leave
    whatever the tree is and whatever that call does.  After a confirmed
    [deletePerson], no person with the deleted id remains and no remaining
    [fatherId], [motherId], [spouseIds] entry or marriage spouse mentions
    it; if, before the delete, every reference of a person and every
    spouse of a marriage resolved and no person referred to itself, the
    same holds afterwards.  [updatePerson] validates nothing: the person
    found is replaced by the merge of its fields with the given ones.
    Either operation returns [true] when the call of [updateData] returns,
    and throws when that call throws. *)
Theorem admin_operations_and_references (personId : jsstring)
    (tree : AdminPanel.Tree) :
  let deleted := (AdminPanel.deletePerson personId true tree).1 in
  (~ hasId (AdminPanel.data deleted) personId
   /\ (forall p, In p (people (AdminPanel.data deleted)) ->
         ~ In personId (personRefs p))
   /\ (forall m, In m (marriages (AdminPanel.data deleted)) ->
         spouse1Id m <> personId /\ spouse2Id m <> personId))
  /\ (personsValid (AdminPanel.data tree) ->
      spousesValid (AdminPanel.data tree) ->
      personsValid (AdminPanel.data deleted)
      /\ spousesValid (AdminPanel.data deleted))
  /\ (AdminPanel.deletePerson personId true tree).2
     = match AdminPanel.callUpdateData deleted (AdminPanel.data deleted) with
       | Normal _ => Normal true
       | Throw => Throw
       end
  /\ (forall (updatedData : AdminPanel.PersonUpdate) (i : nat) (p : Person),
        AdminPanel.findIndex personId (people (AdminPanel.data tree)) = Some i ->
        people (AdminPanel.data tree) !! i = Some p ->
        let edited :=
          {| AdminPanel.data :=
               {| people := <[i := AdminPanel.spread p updatedData]>
                              (people (AdminPanel.data tree));
                  aliases := aliases (AdminPanel.data tree);
                  marriages := marriages (AdminPanel.data tree) |};
             AdminPanel.updateData := AdminPanel.updateData tree |} in
        AdminPanel.updatePerson personId updatedData tree
        = (edited,
           match AdminPanel.callUpdateData edited (AdminPanel.data edited) with
           | Normal _ => Normal true
           | Throw => Throw
           end)).
Proof.
  intros deleted. split; [| split; [| split]].
  - split; [| split].
    + intros H. apply deletePerson_hasId in H as [_ H]. by apply H.
    + intros q Hq Hin. apply deletePerson_people in Hq as (p & _ & _ & ->).
      apply forgetPerson_refs in Hin as [_ Hne]. by apply Hne.
    + intros m Hm. by apply deletePerson_marriages in Hm as (_ & H1 & H2).
  - intros Hpersons Hspouses. split.
    + intros q Hq r Hr. apply deletePerson_people in Hq as (p & Hp & Hne & ->).
      apply forgetPerson_refs in Hr as [Hr Hrne].
      destruct (Hpersons p Hp r Hr) as [Hid Hself].
      split; [by apply deletePerson_hasId | done].
    + intros m Hm. apply deletePerson_marriages in Hm as (Hm & H1 & H2).
      destruct (Hspouses m Hm) as [Hs1 Hs2].
      split; by apply deletePerson_hasId.
  - done.
  - intros updatedData i p Hi Hp edited. unfold AdminPanel.updatePerson.
    by rewrite Hi, Hp.
Qed.

Ltac each_member :=
  repeat match goal with
         | H : In _ (_ :: _) |- _ => destruct H as [<- | H]
         | H : In _ [] |- _ => destruct H
         | H : _ \/ _ |- _ => destruct H as [<- | H]
         | H : False |- _ => destruct H
         end.

Lemma family_valid : relationshipsValid Sample.family.
Proof.
  split; [| split].
  - intros p Hp r Hr. simpl in Hp. each_member; simpl in Hr; each_member;
      (split; [| discriminate]).
    + exists Sample.mother. split; [simpl; tauto | reflexivity].
    + exists Sample.father. split; [simpl; tauto | reflexivity].
    + exists Sample.father. split; [simpl; tauto | reflexivity].
    + exists Sample.mother. split; [simpl; tauto | reflexivity].
  - intros m Hm. simpl in Hm. each_member. split.
    + exists Sample.father. split; [simpl; tauto | reflexivity].
    + exists Sample.mother. split; [simpl; tauto | reflexivity].
  - intros m Hm c Hc. simpl in Hm. each_member. simpl in Hc. each_member.
    exists Sample.child. split; [simpl; tauto | reflexivity].
Qed.

Lemma admin_operations_and_references_witness :
  personsValid
    (AdminPanel.data
       (AdminPanel.deletePerson (lit "P-000012") true Sample.familyTree).1)
  /\ spousesValid
       (AdminPanel.data
          (AdminPanel.deletePerson (lit "P-000012") true Sample.familyTree).1)
  /\ AdminPanel.updatePerson (lit "P-000012") Sample.selfFather
       Sample.familyTree
     = (FamilyTree2D.tree
          {| people := [Sample.father; Sample.mother;
                        AdminPanel.spread Sample.child Sample.selfFather];
             aliases := []; marriages := [Sample.couple] |}, Throw).
Proof.
  destruct (admin_operations_and_references (lit "P-000012") Sample.familyTree)
    as (_ & Hdel & _ & Hupd).
  destruct family_valid as (Hp & Hs & _).
  destruct (Hdel Hp Hs) as [H1 H2].
  split; [exact H1 |]. split; [exact H2 |].
  apply (Hupd Sample.selfFather 2%nat Sample.child); reflexivity.
Defined.

(** C4 as stated fails.  [updatePerson] re-validates nothing: on a family
    whose relationships are all valid, an edit that names a person as
    their own father puts the self-reference into the data of the tree,
    whatever the tree does when it is updated afterwards.  With the tree
    of the application, the call then throws: the data stay as changed. *)
Lemma updatePerson_keeps_self_reference :
  relationshipsValid Sample.family
  /\ (forall updateData : option (Data -> completion unit),
        ~ relationshipsValid
            (AdminPanel.data
               (AdminPanel.updatePerson (lit "P-000012") Sample.selfFather
                  {| AdminPanel.data := Sample.family;
                     AdminPanel.updateData := updateData |}).1))
  /\ AdminPanel.updatePerson (lit "P-000012") Sample.selfFather
       (FamilyTree2D.tree Sample.family)
     = (FamilyTree2D.tree
          {| people :=
               [Sample.father; Sample.mother;
                Sample.person "P-000012" (lit "ali") (Some (lit "P-000012"))
                  (Some (lit "P-000011"))];
             aliases := []; marriages := [Sample.couple] |}, Throw).
Proof.
  split; [exact family_valid |]. split; [| reflexivity].
  intros updateData (Hp & _ & _).
  set (p := AdminPanel.spread Sample.child Sample.selfFather).
  destruct (Hp p ltac:(simpl; tauto) (lit "P-000012") ltac:(simpl; tauto))
    as [_ Hself].
  by apply Hself.
Qed.

(** [deletePerson] filters the marriages by spouse only: the children
    list of a remaining marriage keeps the id of a deleted child. *)
Remark deletePerson_leaves_marriage_child :
  ~ childrenValid
      (AdminPanel.data
         (AdminPanel.deletePerson (lit "P-000012") true Sample.familyTree).1).
Proof.
  intros H.
  destruct (H Sample.couple ltac:(simpl; tauto) (lit "P-000012")
              ltac:(simpl; tauto)) as (p & Hp & Hid).
  simpl in Hp. each_member; discriminate.
Qed.

(** ** Generations *)

Section GenerationProofs.
Variable people : gmap jsstring Person.

Local Abbreviation parentLink := (Spec.parentLink people).
Local Abbreviation chain := (Spec.chain people).
Local Abbreviation walk := (Spec.walk people).
Local Abbreviation longestChain := (Spec.longestChain people).
Local Abbreviation cacheValid := (Spec.cacheValid people).
Local Abbreviation contributes := (Spec.contributes people).

Lemma chain_walk (i : jsstring) (n : nat) :
  chain i n -> exists l, length l = n /\ walk i l.
Proof.
  induction 1 as [i | i j n Hl _ (l & Hlen & Hw)].
  - exists []. split; [done | constructor].
  - exists (i :: l). split; [simpl; by rewrite Hlen | by econstructor].
Qed.

Lemma walk_reaches (j : jsstring) (l : list jsstring) (x : jsstring) :
  walk j l -> x ∈ l -> rtc parentLink j x.
Proof.
  induction 1 as [| i j l Hl _ IH]; intros Hx.
  - by apply elem_of_nil in Hx.
  - apply elem_of_cons in Hx as [-> | Hx]; [done |].
    eapply rtc_l; [exact Hl | by apply IH].
Qed.

Lemma walk_in_collection (i : jsstring) (l : list jsstring) (x : jsstring) :
  walk i l -> x ∈ l -> x ∈ dom people.
Proof.
  induction 1 as [| i j l (p & Hp & _) _ IH]; intros Hx.
  - by apply elem_of_nil in Hx.
  - apply elem_of_cons in Hx as [-> | Hx]; [| by apply IH].
    apply elem_of_dom. by exists p.
Qed.

Lemma walk_NoDup (i : jsstring) (l : list jsstring) :
  Spec.acyclic people -> walk i l -> NoDup l.
Proof.
  intros Hacyc. induction 1 as [| i j l Hl Hw IH]; constructor; [| done].
  intros Hi. apply (Hacyc i).
  eapply tc_rtc_r; [by apply tc_once | by eapply walk_reaches].
Qed.

(** In an acyclic collection no chain is longer than the collection. *)
Lemma chain_bounded (i : jsstring) (n : nat) :
  Spec.acyclic people -> chain i n -> (n <= size people)%nat.
Proof.
  intros Hacyc Hc. apply chain_walk in Hc as (l & <- & Hw).
  pose proof (walk_NoDup i l Hacyc Hw) as Hnd.
  rewrite <- (size_dom (D := gset (list N))).
  rewrite <- (size_list_to_set (C := gset (list N)) l Hnd).
  apply subseteq_size. intros x Hx. apply elem_of_list_to_set in Hx.
  by eapply walk_in_collection.
Qed.

Lemma cacheGet_plain (cache : gmap jsstring FamilyTreeGL.generation)
    (i : jsstring) :
  ~ Spec.inherited i -> FamilyTreeGL.cacheGet cache i = cache !! i.
Proof.
  intros H. unfold FamilyTreeGL.cacheGet. destruct (cache !! i); [done |].
  unfold Spec.inherited in H. by destruct (existsb _ _).
Qed.

Lemma parentGeneration_spec
    (compute : gmap jsstring FamilyTreeGL.generation -> jsstring ->
               option (FamilyTreeGL.generation * gmap jsstring FamilyTreeGL.generation))
    (r : ref) (cache : gmap jsstring FamilyTreeGL.generation) (P : Prop) :
  (forall j, r = Some j -> j <> [] ->
     exists g cache',
       compute cache j = Some (g, cache')
       /\ (P -> cacheValid cache ->
           exists n, g = FamilyTreeGL.Gen n /\ longestChain j n
                     /\ cacheValid cache')) ->
  exists g cache',
    FamilyTreeGL.parentGeneration compute r cache = Some (g, cache')
    /\ (P -> cacheValid cache ->
        exists a, g = FamilyTreeGL.Gen a /\ contributes r a
                  /\ cacheValid cache').
Proof.
  intros Hrec. unfold FamilyTreeGL.parentGeneration.
  destruct r as [[| c j] |].
  - exists (FamilyTreeGL.Gen 0), cache. split; [done |].
    intros _ Hc. exists 0%nat. split; [done |]. split; [by left | done].
  - destruct (Hrec (c :: j) eq_refl ltac:(done)) as (g & cache' & -> & Hg).
    cbn [truthy]. exists (FamilyTreeGL.plusOne g), cache'. split; [done |].
    intros HP Hc. destruct (Hg HP Hc) as (n & -> & Hn & Hc').
    exists (S n). split; [done |]. split; [| done].
    right. by exists (c :: j), n.
  - exists (FamilyTreeGL.Gen 0), cache. split; [done |].
    intros _ Hc. exists 0%nat. split; [done |]. split; [by left | done].
Qed.

(** The generation of a person from the contributions of the two
    parents. *)
Lemma longestChain_of_parents (i : jsstring) (p : Person) (a b : nat) :
  people !! i = Some p ->
  contributes (fatherId p) a ->
  contributes (motherId p) b ->
  longestChain i (Nat.max a b).
Proof.
  intros Hp Ha Hb.
  assert (Hreach : forall r x, (r = fatherId p \/ r = motherId p) ->
            contributes r x -> chain i x).
  { intros r x Hr [[_ ->] | (j & n & Hj & Hne & [Hn _] & ->)]; [constructor |].
    apply (Spec.chain_link people i j); [| done].
    exists p. split; [done |]. split; [done |].
    destruct Hr as [-> | ->]; [by left | by right]. }
  assert (Hmax : forall r x m j, contributes r x -> r = Some j -> j <> [] ->
            chain j m -> (S m <= x)%nat).
  { intros r x m j [[Hf _] | (j' & n & Hj & _ & [_ Hn] & ->)] Hr Hne Hm.
    - subst r. destruct j; [done | discriminate].
    - rewrite Hj in Hr. injection Hr as ->. apply Hn in Hm. lia. }
  split.
  - destruct (Nat.max_spec a b) as [[_ ->] | [_ ->]].
    + apply (Hreach (motherId p)); [by right | done].
    + apply (Hreach (fatherId p)); [by left | done].
  - intros m Hm. inversion Hm as [| i' j m' (p' & Hp' & Hne & Hpar) Hj]; subst;
      [lia |].
    rewrite Hp in Hp'. injection Hp' as <-.
    destruct Hpar as [Hf | Hmo].
    + pose proof (Hmax _ _ _ _ Ha Hf Hne Hj). lia.
    + pose proof (Hmax _ _ _ _ Hb Hmo Hne Hj). lia.
Qed.

Lemma cacheValid_insert (cache : gmap jsstring FamilyTreeGL.generation)
    (i : jsstring) (n : nat) :
  cacheValid cache -> longestChain i n ->
  cacheValid (<[i := FamilyTreeGL.Gen n]> cache).
Proof.
  intros Hc Hn j g Hj. destruct (decide (i = j)) as [<- | Hne].
  - rewrite lookup_insert_eq in Hj. injection Hj as <-. by exists n.
  - rewrite lookup_insert_ne in Hj by done. by apply Hc.
Qed.

(** The call returns as soon as the stack may be deeper than the longest
    chain from [i]; without ids inherited from [Object.prototype] and with
    a right cache it returns the length of that chain and a right cache. *)
Lemma computeGeneration_bounded (fuel : nat) :
  forall (i : jsstring) (cache : gmap jsstring FamilyTreeGL.generation)
         (k : nat),
    (forall n, chain i n -> (n <= k)%nat) ->
    (k < fuel)%nat ->
    exists g cache',
      FamilyTreeGL.computeGeneration fuel people cache i = Some (g, cache')
      /\ (Spec.plainRefs people -> ~ Spec.inherited i -> cacheValid cache ->
          exists n, g = FamilyTreeGL.Gen n /\ longestChain i n
                    /\ cacheValid cache').
Proof.
  induction fuel as [| fuel IH]; intros i cache k Hbound Hfuel; [lia |].
  cbn [FamilyTreeGL.computeGeneration].
  destruct (FamilyTreeGL.cacheGet cache i) as [g |] eqn:Hget.
  { exists g, cache. split; [done |]. intros _ Hplain Hc.
    rewrite (cacheGet_plain _ _ Hplain) in Hget.
    destruct (Hc i g Hget) as (n & -> & Hn). by exists n. }
  destruct (people !! i) as [p |] eqn:Hp.
  2:{ exists (FamilyTreeGL.Gen 0), cache. split; [done |]. intros _ _ Hc.
      exists 0%nat. split; [done |]. split; [| done].
      split; [constructor |].
      intros m Hm. inversion Hm as [| i' j m' (p' & Hp' & _) _]; subst; [lia |].
      congruence. }
  assert (Hparent : forall r cache0,
    (r = fatherId p \/ r = motherId p) ->
    exists g cache',
      FamilyTreeGL.parentGeneration
        (FamilyTreeGL.computeGeneration fuel people) r cache0
      = Some (g, cache')
      /\ (Spec.plainRefs people -> cacheValid cache0 ->
          exists a, g = FamilyTreeGL.Gen a /\ contributes r a
                    /\ cacheValid cache')).
  { intros r cache0 Hr.
    assert (Hlink : forall j, r = Some j -> j <> [] -> parentLink i j).
    { intros j Hj Hne. exists p. split; [done |]. split; [done |].
      destruct Hr as [-> | ->]; [by left | by right]. }
    assert (Hrec : forall j, r = Some j -> j <> [] ->
      exists g cache',
        FamilyTreeGL.computeGeneration fuel people cache0 j = Some (g, cache')
        /\ (Spec.plainRefs people -> cacheValid cache0 ->
            exists n, g = FamilyTreeGL.Gen n /\ longestChain j n
                      /\ cacheValid cache')).
    { intros j Hj Hne. pose proof (Hlink j Hj Hne) as Hl.
      assert (Hk : (1 <= k)%nat).
      { apply (Hbound 1%nat). eapply Spec.chain_link; [exact Hl | constructor]. }
      destruct (IH j cache0 (k - 1)%nat) as (g & cache' & Hg & Hval).
      - intros n Hn.
        assert (S n <= k)%nat
          by (apply Hbound; by eapply Spec.chain_link).
        lia.
      - lia.
      - exists g, cache'. split; [done |]. intros Hplain Hc.
        apply Hval; [done | by eapply Hplain | done]. }
    by apply (parentGeneration_spec _ r cache0 (Spec.plainRefs people)). }
  destruct (Hparent (fatherId p) cache (or_introl eq_refl))
    as (fg & cache1 & -> & Hf).
  destruct (Hparent (motherId p) cache1 (or_intror eq_refl))
    as (mg & cache2 & -> & Hm).
  eexists _, _. split; [reflexivity |].
  intros Hplain _ Hc.
  destruct (Hf Hplain Hc) as (a & -> & Ha & Hc1).
  destruct (Hm Hplain Hc1) as (b & -> & Hb & Hc2).
  exists (Nat.max a b). split; [done |].
  pose proof (longestChain_of_parents i p a b Hp Ha Hb) as Hlong.
  split; [done |]. by apply cacheValid_insert.
Qed.

End GenerationProofs.

(** A person found in the map built from a list comes from the list. *)
Lemma peopleMap_lookup (l : list Person) (i : jsstring) (p : Person) :
  FamilyTreeGL.peopleMap l !! i = Some p -> In p l /\ id p = i.
Proof.
  unfold FamilyTreeGL.peopleMap.
  enough (H : forall m : gmap (list N) Person,
    fold_left (fun m p => <[id p := p]> m) l m !! i = Some p ->
    (In p l /\ id p = i) \/ m !! i = Some p).
  { intros Hl. destruct (H ∅ Hl) as [? | Hm]; [done |].
    by rewrite lookup_empty in Hm. }
  induction l as [| q l IH]; intros m Hl; simpl in *; [by right |].
  destruct (IH _ Hl) as [[Hin Hid] | Hm]; [left; split; [by right | done] |].
  destruct (decide (id q = i)) as [Hq | Hq].
  - rewrite Hq, lookup_insert_eq in Hm. injection Hm as <-. left.
    split; [by left | done].
  - rewrite lookup_insert_ne in Hm by done. by right.
Qed.

(** A rank that decreases along the parent links rules cycles out. *)
Lemma ranked_acyclic (people : gmap (list N) Person) (rank : jsstring -> nat) :
  (forall i j, Spec.parentLink people i j -> (rank j < rank i)%nat) ->
  Spec.acyclic people.
Proof.
  intros Hrank.
  assert (H : forall i j, tc (Spec.parentLink people) i j ->
                          (rank j < rank i)%nat).
  { induction 1 as [i j Hl | i j k Hl _ IH].
    - by apply Hrank.
    - apply Hrank in Hl. lia. }
  intros i Hi. apply H in Hi. lia.
Qed.

(** C9 (what the code does).  In a collection whose parent references
    form no cycle, [computeGeneration] returns for every id as soon as the
    stack can hold one call more than there are people.  When no parent
    reference and not the id itself names a member of [Object.prototype],
    and the cache holds right values only, the result is the length of the
    longest chain of non-empty parent references from that id (the last
    one may name a person who is not in the collection), and the new cache
    is right again. *)
Theorem computeGeneration_longest_chain (people : gmap (list N) Person)
    (cache : gmap (list N) FamilyTreeGL.generation) (i : jsstring)
    (fuel : nat) :
  Spec.acyclic people ->
  (size people < fuel)%nat ->
  (exists g cache',
     FamilyTreeGL.computeGeneration fuel people cache i = Some (g, cache'))
  /\ (Spec.plainRefs people -> ~ Spec.inherited i ->
      Spec.cacheValid people cache ->
      exists n cache',
        FamilyTreeGL.computeGeneration fuel people cache i
        = Some (FamilyTreeGL.Gen n, cache')
        /\ Spec.longestChain people i n
        /\ Spec.cacheValid people cache').
Proof.
  intros Hacyc Hfuel.
  destruct (computeGeneration_bounded people fuel i cache (size people))
    as (g & cache' & Hg & Hval); [| done |].
  { intros n Hn. by eapply chain_bounded. }
  split; [by exists g, cache' |].
  intros Hplain Hi Hc. destruct (Hval Hplain Hi Hc) as (n & -> & Hn & Hc').
  by exists n, cache'.
Qed.

Lemma family_parentLink (i j : jsstring) :
  Spec.parentLink (FamilyTreeGL.peopleMap (people Sample.family)) i j ->
  i = lit "P-000012" /\ (j = lit "P-000010" \/ j = lit "P-000011").
Proof.
  intros (p & Hp & _ & Hpar). apply peopleMap_lookup in Hp as [Hin <-].
  simpl in Hin. destruct Hin as [<- | [<- | [<- | []]]]; simpl in Hpar;
    destruct Hpar as [H | H]; try discriminate;
    injection H as <-; split; auto.
Qed.

Lemma family_acyclic :
  Spec.acyclic (FamilyTreeGL.peopleMap (people Sample.family)).
Proof.
  apply (ranked_acyclic _
           (fun i => if Js.eqb i (lit "P-000012") then 1%nat else 0%nat)).
  intros i j H. apply family_parentLink in H as [-> [-> | ->]]; vm_compute; lia.
Qed.

Lemma computeGeneration_longest_chain_witness :
  exists n cache',
    FamilyTreeGL.computeGeneration 4
      (FamilyTreeGL.peopleMap (people Sample.family)) ∅ (lit "P-000012")
    = Some (FamilyTreeGL.Gen n, cache')
    /\ Spec.longestChain (FamilyTreeGL.peopleMap (people Sample.family))
         (lit "P-000012") n.
Proof.
  destruct (computeGeneration_longest_chain
              (FamilyTreeGL.peopleMap (people Sample.family)) ∅
              (lit "P-000012") 4 family_acyclic) as [_ H].
  { vm_compute. lia. }
  destruct H as (n & cache' & Hn & Hl & _).
  - intros i j Hij. apply family_parentLink in Hij as [_ [-> | ->]];
      unfold Spec.inherited; vm_compute; discriminate.
  - unfold Spec.inherited. vm_compute. discriminate.
  - intros i g Hi. by rewrite lookup_empty in Hi.
  - by exists n, cache'.
Defined.

Example computeGeneration_family :
  fst <$> FamilyTreeGL.computeGeneration 4
            (FamilyTreeGL.peopleMap (people Sample.family)) ∅ (lit "P-000012")
  = Some (FamilyTreeGL.Gen 1).
Proof. vm_compute. reflexivity. Qed.

(** C9 as stated fails: a parent reference counts as a link whether or not
    it resolves.  A person whose [fatherId] names nobody in the collection
    (and who has no mother) has no resolvable parent link at all, yet
    [computeGeneration] returns 1. *)
Lemma computeGeneration_counts_dangling_parent :
  let people := FamilyTreeGL.peopleMap [Sample.orphan] in
  Spec.acyclic people
  /\ people !! lit "P-000404" = None
  /\ Spec.longestResolvableChain people (lit "P-000020") 0
  /\ fst <$> FamilyTreeGL.computeGeneration 2 people ∅ (lit "P-000020")
     = Some (FamilyTreeGL.Gen 1).
Proof.
  cbn zeta.
  assert (Hlink : forall i j,
    Spec.parentLink (FamilyTreeGL.peopleMap [Sample.orphan]) i j ->
    i = lit "P-000020" /\ j = lit "P-000404").
  { intros i j (p & Hp & _ & Hpar). apply peopleMap_lookup in Hp as [Hin <-].
    destruct Hin as [<- | []]. simpl in Hpar.
    destruct Hpar as [H | H]; [| discriminate]. by injection H as <-. }
  split; [| split; [| split]].
  - apply (ranked_acyclic _
             (fun i => if Js.eqb i (lit "P-000020") then 1%nat else 0%nat)).
    intros i j H. apply Hlink in H as [-> ->]. vm_compute. lia.
  - vm_compute. reflexivity.
  - split; [constructor |].
    intros m Hm. inversion Hm as [| i j n [Hl [q Hq]] _]; subst; [lia |].
    apply Hlink in Hl as [_ ->]. vm_compute in Hq. discriminate.
  - vm_compute. reflexivity.
Qed.

(* ================================================================== *)
(** * Further properties of the search *)
(* ================================================================== *)

(** ** Ranking and contents of the results *)

Lemma insertResult_descending (x : CognitiveSearch.Result)
    (sorted : list CognitiveSearch.Result) :
  Spec.descending sorted -> Spec.descending (CognitiveSearch.insertResult x sorted).
Proof.
  unfold Spec.descending.
  induction 1 as [| y r Hr IH Hy]; simpl; [by repeat constructor |].
  destruct (CognitiveSearch.gtb _ _) eqn:E.
  - apply gtb_true in E.
    constructor; [by constructor |]. constructor; [lra |].
    eapply List.Forall_impl; [| exact Hy]. simpl. intros z Hz. lra.
  - assert (Hxy : CognitiveSearch.score x <= CognitiveSearch.score y).
    { apply Qnot_lt_le. intros Hlt.
      assert (CognitiveSearch.gtb
                (CognitiveSearch.score x - CognitiveSearch.score y) 0 = true)
        by (apply gtb_true; lra).
      congruence. }
    constructor; [done |].
    apply List.Forall_forall. intros z Hz.
    apply (Permutation_in _ (insertResult_perm x r)) in Hz as [<- | Hz];
      [done |].
    by apply (proj1 (List.Forall_forall _ _) Hy).
Qed.

Lemma sortResults_descending (results : list CognitiveSearch.Result) :
  Spec.descending (CognitiveSearch.sortResults results).
Proof.
  unfold CognitiveSearch.sortResults.
  enough (H : forall acc, Spec.descending acc ->
    Spec.descending
      (fold_left (fun sorted x => CognitiveSearch.insertResult x sorted)
         results acc)) by (apply H; constructor).
  induction results as [| x r IH]; intros acc Hacc; simpl; [done |].
  apply IH. by apply insertResult_descending.
Qed.

Lemma insertResult_last (x : CognitiveSearch.Result)
    (sorted : list CognitiveSearch.Result) :
  Forall (fun y => CognitiveSearch.score x <= CognitiveSearch.score y) sorted ->
  CognitiveSearch.insertResult x sorted = sorted ++ [x].
Proof.
  induction 1 as [| y r Hy _ IH]; simpl; [done |].
  destruct (CognitiveSearch.gtb _ _) eqn:E; [| by rewrite IH].
  apply gtb_true in E. lra.
Qed.

Lemma sortResults_sorted_input (acc results : list CognitiveSearch.Result) :
  Spec.descending (acc ++ results) ->
  fold_left (fun sorted x => CognitiveSearch.insertResult x sorted) results acc
  = acc ++ results.
Proof.
  revert acc. induction results as [| x r IH]; intros acc Hs; simpl.
  - by rewrite app_nil_r.
  - assert (Hacc : Forall (fun y => CognitiveSearch.score x
                                    <= CognitiveSearch.score y) acc).
    { unfold Spec.descending in Hs. clear IH.
      induction acc as [| y acc IHacc]; [constructor |].
      simpl in Hs. inversion Hs as [| ? ? Hs' Hy]; subst.
      constructor; [| by apply IHacc].
      apply (proj1 (List.Forall_forall _ _) Hy). apply in_or_app.
      right. by left. }
    rewrite (insertResult_last x acc Hacc).
    rewrite IH; [by rewrite <- app_assoc |]. by rewrite <- app_assoc.
Qed.

(** The loop of [search], read backwards: what a returned list holds. *)
Lemma collect_sound (toLowerCase : jsstring -> jsstring) (query : jsstring)
    (people : list Person) :
  forall acc res,
    CognitiveSearch.collect toLowerCase query people acc = Normal res ->
    (forall p, In p people ->
       exists s, CognitiveSearch.calculateMatchScore toLowerCase query p
                 = Normal s)
    /\ (length res <= length acc + length people)%nat
    /\ forall r, In r res ->
         In r acc
         \/ (In (CognitiveSearch.person r) people
             /\ 0 < CognitiveSearch.score r
             /\ CognitiveSearch.calculateMatchScore toLowerCase query
                  (CognitiveSearch.person r)
                = Normal (CognitiveSearch.score r)
             /\ CognitiveSearch.matchType r
                = CognitiveSearch.getMatchType query (CognitiveSearch.person r)).
Proof.
  induction people as [| p rest IH]; intros acc res H; simpl in H.
  - injection H as <-. split; [intros ? [] |]. split; [simpl; lia | auto].
  - destruct (CognitiveSearch.calculateMatchScore toLowerCase query p)
      as [s |] eqn:Hs; [| discriminate].
    simpl in H. apply IH in H as (Hret & Hlen & Hres).
    split; [| split].
    + intros q [<- | Hq]; [eauto | by apply Hret].
    + simpl. destruct (CognitiveSearch.gtb s 0); [| lia].
      rewrite length_app in Hlen. simpl in Hlen. lia.
    + intros r Hr. destruct (Hres r Hr) as [Hacc | (Hp & Hrest)].
      * destruct (CognitiveSearch.gtb s 0) eqn:E; [| by left].
        apply in_app_or in Hacc as [Hacc | [<- | []]]; [by left |].
        right. simpl. apply gtb_true in E. auto.
      * right. split; [by right | done].
Qed.

(** X1.  The results of [search] are ranked: scores never increase along
    the returned list. *)
Theorem search_results_descending (toLowerCase : jsstring -> jsstring)
    (query : jsstring) (people : list Person)
    (results : list CognitiveSearch.Result) :
  CognitiveSearch.search toLowerCase query people = Normal results ->
  Spec.descending results.
Proof.
  unfold CognitiveSearch.search.
  destruct (_ || _); [intros [= <-]; constructor |].
  destruct (CognitiveSearch.collect _ _ _ _); [| discriminate].
  simpl. intros [= <-]. apply sortResults_descending.
Qed.

Lemma search_results_descending_witness :
  Spec.descending
    [CognitiveSearch.mkResult Sample.ahmed 1
       CognitiveSearch.EnglishToArabicTransliteration;
     CognitiveSearch.mkResult Sample.ali (1 # 5) CognitiveSearch.EnglishMatch].
Proof.
  apply (search_results_descending CognitiveSearch.asciiLower (lit "Ahmed")
           [Sample.ali; Sample.ahmed]).
  vm_compute. reflexivity.
Defined.

(** X2.  The sort of [search] is stable: results that are already in
    descending order (ties included) are returned in the order in which
    the loop found them. *)
Theorem sortResults_keeps_sorted_input (results : list CognitiveSearch.Result) :
  Spec.descending results -> CognitiveSearch.sortResults results = results.
Proof. intros H. by apply (sortResults_sorted_input [] results). Qed.

Lemma sortResults_keeps_sorted_input_witness :
  CognitiveSearch.sortResults
    [CognitiveSearch.mkResult Sample.ali (1 # 2) CognitiveSearch.EnglishMatch;
     CognitiveSearch.mkResult Sample.ahmed (2 # 4) CognitiveSearch.EnglishMatch]
  = [CognitiveSearch.mkResult Sample.ali (1 # 2) CognitiveSearch.EnglishMatch;
     CognitiveSearch.mkResult Sample.ahmed (2 # 4) CognitiveSearch.EnglishMatch].
Proof.
  apply sortResults_keeps_sorted_input.
  repeat constructor; simpl; unfold Qle; simpl; lia.
Defined.

(** X3.  What [search] returns is exactly the people with a positive
    score: every result is a person of the array with the score that
    [calculateMatchScore] gives for the normalised query, a positive one,
    and the match type of [getMatchType]; every person with a positive
    score has a result; and there are no more results than people. *)
Theorem search_results_exact (toLowerCase : jsstring -> jsstring)
    (query : jsstring) (people : list Person)
    (results : list CognitiveSearch.Result) :
  trim query <> [] ->
  CognitiveSearch.search toLowerCase query people = Normal results ->
  let normalizedQuery :=
    CognitiveSearch.normalizeText (toLowerCase (trim query)) in
  (length results <= length people)%nat
  /\ (forall r, In r results ->
        In (CognitiveSearch.person r) people
        /\ 0 < CognitiveSearch.score r
        /\ CognitiveSearch.calculateMatchScore toLowerCase normalizedQuery
             (CognitiveSearch.person r) = Normal (CognitiveSearch.score r)
        /\ CognitiveSearch.matchType r
           = CognitiveSearch.getMatchType normalizedQuery
               (CognitiveSearch.person r))
  /\ (forall p s, In p people ->
        CognitiveSearch.calculateMatchScore toLowerCase normalizedQuery p
        = Normal s ->
        0 < s ->
        In (CognitiveSearch.mkResult p s
              (CognitiveSearch.getMatchType normalizedQuery p)) results).
Proof.
  intros Hq. unfold CognitiveSearch.search.
  assert (Hq' : Js.eqb query [] || Js.eqb (trim query) [] = false).
  { apply orb_false_iff. split; apply eqb_false; [| done].
    intros ->. by apply Hq. }
  rewrite Hq'. cbn zeta.
  set (nq := CognitiveSearch.normalizeText (toLowerCase (trim query))).
  destruct (CognitiveSearch.collect toLowerCase nq people []) as [res |] eqn:Hc;
    [| discriminate].
  simpl. intros [= <-].
  pose proof (collect_sound toLowerCase nq people [] res Hc)
    as (Hret & Hlen & Hres).
  destruct (collect_returns toLowerCase nq people Hret [])
    as (res' & Hc' & _ & Hnew).
  rewrite Hc in Hc'. injection Hc' as <-.
  split; [| split].
  - rewrite (Permutation_length (sortResults_perm res)). simpl in Hlen. lia.
  - intros r Hr. apply (Permutation_in _ (sortResults_perm res)) in Hr.
    destruct (Hres r Hr) as [[] | H]. exact H.
  - intros p s Hp Hs Hpos.
    eapply Permutation_in; [symmetry; apply sortResults_perm |].
    by apply Hnew.
Qed.

Lemma search_results_exact_witness :
  exists results,
    CognitiveSearch.search CognitiveSearch.asciiLower (lit "Ahmed")
      [Sample.ali; Sample.ahmed] = Normal results
    /\ (length results <= 2)%nat.
Proof.
  eexists. split; [vm_compute; reflexivity |].
  apply (search_results_exact CognitiveSearch.asciiLower (lit "Ahmed")
           [Sample.ali; Sample.ahmed]).
  - discriminate.
  - vm_compute. reflexivity.
Defined.

(** ** When the search throws *)

Lemma inherited_not_own (key : jsstring) :
  Spec.inherited key ->
  get CognitiveSearch.englishToArabic key = Inherited
  /\ CognitiveSearch.isArabic key = false.
Proof.
  unfold Spec.inherited. intros H. split.
  - unfold get. rewrite H.
    apply existsb_exists in H as (k & Hin & Heq). apply eqb_true in Heq.
    subst k. unfold objectPrototypeKeys in Hin. simpl in Hin.
    repeat (destruct Hin as [<- | Hin]; [by vm_compute |]). destruct Hin.
  - by apply prototype_key_not_arabic.
Qed.

Lemma not_inherited_get {V} (own : list (jsstring * V)) (key : jsstring) :
  ~ Spec.inherited key -> get own key <> Inherited.
Proof.
  unfold Spec.inherited, get. intros H.
  destruct (assoc own key); [discriminate |].
  destruct (existsb _ _); [by destruct H | discriminate].
Qed.

Lemma collect_throws (toLowerCase : jsstring -> jsstring) (query : jsstring)
    (people : list Person) (p : Person) :
  In p people ->
  CognitiveSearch.calculateMatchScore toLowerCase query p = Throw ->
  forall acc, CognitiveSearch.collect toLowerCase query people acc = Throw.
Proof.
  intros Hin Hp. induction people as [| q r IH]; [destruct Hin |].
  intros acc. simpl.
  destruct (CognitiveSearch.calculateMatchScore toLowerCase query q) eqn:Hq;
    [| done].
  simpl. destruct Hin as [-> | Hin]; [congruence |]. by apply IH.
Qed.

(** X4.  [search] returns for every people array unless the normalised
    query is the name of a member of [Object.prototype]. *)
Theorem search_returns (toLowerCase : jsstring -> jsstring)
    (query : jsstring) (people : list Person) :
  ~ Spec.inherited (CognitiveSearch.normalizeText (toLowerCase (trim query))) ->
  exists results,
    CognitiveSearch.search toLowerCase query people = Normal results.
Proof.
  intros Hq. unfold CognitiveSearch.search.
  destruct (_ || _); [eauto |]. cbn zeta.
  set (nq := CognitiveSearch.normalizeText (toLowerCase (trim query))) in *.
  destruct (collect_returns toLowerCase nq people
              (fun p _ => calculateMatchScore_returns toLowerCase nq p
                            (or_intror (not_inherited_get _ nq Hq))) [])
    as (res & -> & _).
  simpl. eauto.
Qed.

Lemma search_returns_witness :
  exists results,
    CognitiveSearch.search CognitiveSearch.asciiLower (lit "toString")
      [Sample.ali] = Normal results.
Proof.
  apply (search_returns CognitiveSearch.asciiLower (lit "toString")
           [Sample.ali]).
  unfold Spec.inherited. vm_compute. discriminate.
Defined.

(** X5.  [search] throws when the normalised query is the name of a member
    of [Object.prototype] (after lowercasing: "constructor", "__proto__")
    and some person of the array has a name without Arabic code units:
    the reverse dictionary, a plain object, answers the lookup with the
    inherited member, which is not iterable. *)
Theorem search_throws_on_prototype_name (toLowerCase : jsstring -> jsstring)
    (query : jsstring) (people : list Person) (p : Person) :
  trim query <> [] ->
  Spec.inherited (CognitiveSearch.normalizeText (toLowerCase (trim query))) ->
  In p people ->
  CognitiveSearch.isArabic (name p) = false ->
  CognitiveSearch.search toLowerCase query people = Throw.
Proof.
  intros Hq Hinh Hin Hname. unfold CognitiveSearch.search.
  assert (Hq' : Js.eqb query [] || Js.eqb (trim query) [] = false).
  { apply orb_false_iff. split; apply eqb_false; [| done].
    intros ->. by apply Hq. }
  rewrite Hq'. cbn zeta.
  set (nq := CognitiveSearch.normalizeText (toLowerCase (trim query))) in *.
  rewrite (collect_throws toLowerCase nq people p Hin); [done |].
  unfold CognitiveSearch.calculateMatchScore,
    CognitiveSearch.getTransliterationScore, CognitiveSearch.reversePath.
  destruct (inherited_not_own nq Hinh) as [-> ->].
  by rewrite Hname.
Qed.

Lemma search_throws_on_prototype_name_witness :
  CognitiveSearch.search CognitiveSearch.asciiLower (lit "Constructor")
    [Sample.ahmed; Sample.ali] = Throw.
Proof.
  apply (search_throws_on_prototype_name CognitiveSearch.asciiLower
           (lit "Constructor") [Sample.ahmed; Sample.ali] Sample.ali).
  - discriminate.
  - unfold Spec.inherited. vm_compute. reflexivity.
  - simpl. right. by left.
  - reflexivity.
Defined.

(** ** Ranges of the scores *)

Lemma forOf_returns_nonneg {X} (xs : list X) (body : X -> flow Q) :
  (forall x s, body x = Return s -> 0 <= s) ->
  forall s, forOf xs body = Return s -> 0 <= s.
Proof.
  intros Hb s Hs. apply forOf_return in Hs as (x & _ & Hx). by eapply Hb.
Qed.

Lemma getTransliterationScore_nonneg (toLowerCase : jsstring -> jsstring)
    (query arabicName : jsstring) (t : Q) :
  CognitiveSearch.getTransliterationScore toLowerCase query arabicName
  = Normal t ->
  0 <= t.
Proof.
  unfold CognitiveSearch.getTransliterationScore.
  assert (Hd : forall s,
    CognitiveSearch.dictionaryPath query arabicName = Return s -> 0 <= s).
  { unfold CognitiveSearch.dictionaryPath. destruct (get _ _); try discriminate.
    apply forOf_returns_nonneg. intros ? s. unfold CognitiveSearch.dictionaryStep.
    destruct (CognitiveSearch.gtb _ _) eqn:E.
    - apply gtb_true in E. intros [= <-]. lra.
    - destruct (_ || _); [intros [= <-]; done | discriminate]. }
  assert (Hg : forall s,
    CognitiveSearch.generativePath toLowerCase query arabicName = Return s ->
    0 <= s).
  { unfold CognitiveSearch.generativePath.
    destruct (CognitiveSearch.buildArabicCandidatesFromEnglish _ _);
      [| discriminate].
    apply forOf_returns_nonneg. intros ? s. unfold CognitiveSearch.candidateStep.
    destruct (CognitiveSearch.gtb _ _) eqn:E.
    - apply gtb_true in E. intros [= <-]. lra.
    - destruct (includes _ _); [intros [= <-]; done | discriminate]. }
  assert (Hr : forall s,
    CognitiveSearch.reversePath query arabicName = Return s -> 0 <= s).
  { unfold CognitiveSearch.reversePath. destruct (negb _); [| discriminate].
    destruct (get _ _); try discriminate.
    apply forOf_returns_nonneg. intros ? s. unfold CognitiveSearch.reverseStep.
    destruct (CognitiveSearch.gtb _ _) eqn:E.
    - apply gtb_true in E. intros [= <-]. lra.
    - destruct (_ || _); [intros [= <-]; done | discriminate]. }
  assert (Hp : forall s,
    CognitiveSearch.partialPath query arabicName = Return s -> 0 <= s).
  { unfold CognitiveSearch.partialPath.
    apply forOf_returns_nonneg. intros ?.
    apply forOf_returns_nonneg. intros ? s. unfold CognitiveSearch.partialStep.
    destruct (_ || _); [| discriminate].
    destruct (CognitiveSearch.gtb _ _) eqn:E; [| discriminate].
    apply gtb_true in E. intros [= <-]. lra. }
  destruct (_ && _).
  - destruct (CognitiveSearch.dictionaryPath query arabicName) eqn:E1; simpl.
    + destruct (CognitiveSearch.generativePath toLowerCase query arabicName)
        eqn:E2; simpl.
      * destruct (CognitiveSearch.reversePath query arabicName) eqn:E3; simpl.
        -- destruct (CognitiveSearch.partialPath query arabicName) eqn:E4;
             simpl; intros [= <-]; [done | by apply Hp].
        -- intros [= <-]. by apply Hr.
        -- discriminate.
      * intros [= <-]. by apply Hg.
      * discriminate.
    + intros [= <-]. by apply Hd.
    + discriminate.
  - simpl.
    destruct (CognitiveSearch.reversePath query arabicName) eqn:E3; simpl.
    + destruct (CognitiveSearch.partialPath query arabicName) eqn:E4;
        simpl; intros [= <-]; [done | by apply Hp].
    + intros [= <-]. by apply Hr.
    + discriminate.
Qed.

(** X6.  Every score is between 0 and 1, as the documentation of the
    functions says: what [getTransliterationScore] returns, and what
    [calculateMatchScore] returns; and a person whose normalised name
    contains the query, or is contained in it, scores at least 0.9. *)
Theorem scores_in_unit_interval (toLowerCase : jsstring -> jsstring)
    (query : jsstring) (p : Person) :
  (forall t,
     CognitiveSearch.getTransliterationScore toLowerCase query (name p)
     = Normal t -> 0 <= t <= 1)
  /\ (forall s,
        CognitiveSearch.calculateMatchScore toLowerCase query p = Normal s ->
        0 <= s <= 1
        /\ (let normalizedName :=
              CognitiveSearch.normalizeText (toLowerCase (name p)) in
            includes normalizedName query || includes query normalizedName
            = true ->
            9 # 10 <= s)).
Proof.
  split.
  - intros t Ht. split;
      [by eapply getTransliterationScore_nonneg
      | by eapply getTransliterationScore_le_1].
  - intros s. unfold CognitiveSearch.calculateMatchScore.
    destruct (CognitiveSearch.getTransliterationScore toLowerCase query (name p))
      as [t |] eqn:Ht; [| discriminate].
    simpl. intros [= <-].
    pose proof (getTransliterationScore_le_1 _ _ _ _ Ht) as Ht1.
    pose proof (getTextSimilarity_le_1 query
      (CognitiveSearch.normalizeText (toLowerCase (name p)))) as Hn1.
    fold (CognitiveSearch.nameScore toLowerCase query p) in Hn1.
    set (ns := CognitiveSearch.nameScore toLowerCase query p) in *.
    set (m0 := if _ || _ then Qmax (Qmax 0 ns) (9 # 10) else Qmax 0 ns).
    assert (H0 : 0 <= m0 <= 1).
    { subst m0. destruct (_ || _).
      - split.
        + eapply Qle_trans; [| apply Q.le_max_l]. apply Q.le_max_l.
        + apply Q.max_lub; [apply Q.max_lub |]; done.
      - split; [apply Q.le_max_l | by apply Q.max_lub]. }
    destruct (altNames_fold_bounds toLowerCase query (altNames p) m0)
      as [Hl Hu].
    split; [split |].
    + eapply Qle_trans; [| apply Q.le_max_l].
      eapply Qle_trans; [| exact Hl]. tauto.
    + apply Q.max_lub; [apply Hu; tauto | done].
    + cbn zeta. intros Hinc.
      eapply Qle_trans; [| apply Q.le_max_l].
      eapply Qle_trans; [| exact Hl].
      subst m0. rewrite Hinc. apply Q.le_max_r.
Qed.

Lemma scores_in_unit_interval_witness :
  0 <= 9 # 10 <= 1.
Proof.
  destruct (scores_in_unit_interval CognitiveSearch.asciiLower (lit "a")
              Sample.ali) as [_ H].
  destruct (H (9 # 10)) as [H1 _]; [vm_compute; reflexivity | exact H1].
Defined.

(** ** [levenshteinDistance] is a metric *)

Lemma edits_sym (s t : jsstring) (n : nat) : edits s t n -> edits t s n.
Proof. induction 1; constructor; done || congruence. Qed.

Lemma edits_refl (s : jsstring) : edits s s 0.
Proof. induction s; by constructor. Qed.

Lemma edits_zero (s t : jsstring) : edits s t 0 -> s = t.
Proof.
  intros H. remember 0%nat as n eqn:En.
  induction H; try discriminate; [done |]. f_equal. by apply IHedits.
Qed.

Lemma edits_lengths (s t : jsstring) (n : nat) :
  edits s t n ->
  (length s <= length t + n)%nat /\ (length t <= length s + n)%nat.
Proof. induction 1; simpl; lia. Qed.

Lemma edits_within_max (s t : jsstring) :
  exists n, (n <= Nat.max (length s) (length t))%nat /\ edits s t n.
Proof.
  revert t. induction s as [| a s IH]; intros t.
  - exists (length t). split; [simpl; lia | apply edits_from_nil].
  - destruct t as [| b t].
    + exists (length (a :: s)). split; [simpl; lia | apply edits_to_nil].
    + destruct (IH t) as (n & Hn & He).
      destruct (N.eq_dec a b) as [-> | Hab].
      * exists n. split; [simpl; lia | by constructor].
      * exists (S n). split; [simpl; lia | by constructor].
Qed.

(** Scripts compose: the cost of going through [t] bounds the cost of going
    from [s] to [u]. *)
Lemma edits_trans (s t : jsstring) (n : nat) :
  edits s t n ->
  forall u m, edits t u m -> exists k, (k <= n + m)%nat /\ edits s u k.
Proof.
  induction 1 as [| c s t n H IH | a b s t n Hab H IH | a s t n H IH
                 | b s t n H IH]; intros u m H2.
  - exists m. split; [lia | done].
  - remember (c :: t) as t' eqn:Et. revert Et.
    induction H2 as [| c' t1 u m H2 _ | a' b' t1 u m Hab' H2 _
                    | a' t1 u m H2 _ | b' t1 u m H2 IH2]; intros Et;
      try discriminate.
    + injection Et as -> ->. destruct (IH u m H2) as (k & Hk & He).
      exists k. split; [lia | by constructor].
    + injection Et as -> ->. destruct (IH u m H2) as (k & Hk & He).
      exists (S k). split; [lia | by constructor].
    + injection Et as -> ->. destruct (IH u m H2) as (k & Hk & He).
      exists (S k). split; [lia | by constructor].
    + destruct (IH2 Et) as (k & Hk & He).
      exists (S k). split; [lia | by constructor].
  - remember (b :: t) as t' eqn:Et. revert Et.
    induction H2 as [| c' t1 u m H2 _ | a' b' t1 u m Hab' H2 _
                    | a' t1 u m H2 _ | b' t1 u m H2 IH2]; intros Et;
      try discriminate.
    + injection Et as -> ->. destruct (IH u m H2) as (k & Hk & He).
      exists (S k). split; [lia | by constructor].
    + injection Et as -> ->. destruct (IH u m H2) as (k & Hk & He).
      destruct (N.eq_dec a b') as [-> | Hne].
      * exists k. split; [lia | by constructor].
      * exists (S k). split; [lia | by constructor].
    + injection Et as -> ->. destruct (IH u m H2) as (k & Hk & He).
      exists (S k). split; [lia | by constructor].
    + destruct (IH2 Et) as (k & Hk & He).
      exists (S k). split; [lia | by constructor].
  - destruct (IH u m H2) as (k & Hk & He).
    exists (S k). split; [lia | by constructor].
  - remember (b :: t) as t' eqn:Et. revert Et.
    induction H2 as [| c' t1 u m H2 _ | a' b' t1 u m Hab' H2 _
                    | a' t1 u m H2 _ | b' t1 u m H2 IH2]; intros Et;
      try discriminate.
    + injection Et as -> ->. destruct (IH u m H2) as (k & Hk & He).
      exists (S k). split; [lia | by constructor].
    + injection Et as -> ->. destruct (IH u m H2) as (k & Hk & He).
      exists (S k). split; [lia | by constructor].
    + injection Et as -> ->. destruct (IH u m H2) as (k & Hk & He).
      exists k. split; [lia | done].
    + destruct (IH2 Et) as (k & Hk & He).
      exists (S k). split; [lia | by constructor].
Qed.

Lemma levenshteinDistance_zero (a b : jsstring) :
  CognitiveSearch.levenshteinDistance a b = 0%nat <-> a = b.
Proof.
  destruct (levenshteinDistance_spec a b) as [Hab Mab]. split.
  - intros H0. rewrite H0 in Hab. by apply edits_zero.
  - intros <-. pose proof (Mab _ (edits_refl a)). lia.
Qed.

Lemma levenshteinDistance_sym (a b : jsstring) :
  CognitiveSearch.levenshteinDistance a b
  = CognitiveSearch.levenshteinDistance b a.
Proof.
  destruct (levenshteinDistance_spec a b) as [Hab Mab].
  destruct (levenshteinDistance_spec b a) as [Hba Mba].
  apply edits_sym in Hab. apply edits_sym in Hba.
  apply Mba in Hab. apply Mab in Hba. lia.
Qed.

Lemma levenshteinDistance_le_max (a b : jsstring) :
  (CognitiveSearch.levenshteinDistance a b
   <= Nat.max (length a) (length b))%nat.
Proof.
  destruct (levenshteinDistance_spec a b) as [_ Mab].
  destruct (edits_within_max a b) as (n & Hn & He). apply Mab in He. lia.
Qed.

(** X7.  [levenshteinDistance] is a metric on strings: it is 0 exactly
    for equal strings, symmetric, and satisfies the triangle inequality;
    and it lies between the difference of the two lengths and the greater
    length. *)
Theorem levenshteinDistance_metric (a b c : jsstring) :
  (CognitiveSearch.levenshteinDistance a b = 0%nat <-> a = b)
  /\ CognitiveSearch.levenshteinDistance a b
     = CognitiveSearch.levenshteinDistance b a
  /\ (CognitiveSearch.levenshteinDistance a c
      <= CognitiveSearch.levenshteinDistance a b
         + CognitiveSearch.levenshteinDistance b c)%nat
  /\ (length a - length b <= CognitiveSearch.levenshteinDistance a b)%nat
  /\ (length b - length a <= CognitiveSearch.levenshteinDistance a b)%nat
  /\ (CognitiveSearch.levenshteinDistance a b
      <= Nat.max (length a) (length b))%nat.
Proof.
  destruct (levenshteinDistance_spec a b) as [Hab Mab].
  destruct (levenshteinDistance_spec b c) as [Hbc _].
  destruct (levenshteinDistance_spec a c) as [_ Mac].
  split; [apply levenshteinDistance_zero |].
  split; [apply levenshteinDistance_sym |].
  split; [| split; [| split]].
  - destruct (edits_trans _ _ _ Hab _ _ Hbc) as (k & Hk & He).
    apply Mac in He. lia.
  - apply edits_lengths in Hab. lia.
  - apply edits_lengths in Hab. lia.
  - apply levenshteinDistance_le_max.
Qed.

(** ** [getTextSimilarity] *)

Lemma ofNat_le (n m : nat) :
  (n <= m)%nat -> CognitiveSearch.ofNat n <= CognitiveSearch.ofNat m.
Proof. intros H. unfold CognitiveSearch.ofNat. rewrite <- Zle_Qle. lia. Qed.

Lemma ofNat_pos (n : nat) : (0 < n)%nat -> 0 < CognitiveSearch.ofNat n.
Proof.
  intros H. unfold CognitiveSearch.ofNat. change 0 with (inject_Z 0).
  rewrite <- Zlt_Qlt. lia.
Qed.

(** X8.  [getTextSimilarity] is symmetric, lies between 0 and 1, and is 1
    for equal strings only. *)
Theorem getTextSimilarity_properties (a b : jsstring) :
  CognitiveSearch.getTextSimilarity a b = CognitiveSearch.getTextSimilarity b a
  /\ 0 <= CognitiveSearch.getTextSimilarity a b <= 1
  /\ (CognitiveSearch.getTextSimilarity a b == 1 <-> a = b).
Proof.
  pose proof (levenshteinDistance_zero a b) as Hzero.
  pose proof (levenshteinDistance_sym a b) as Hsym.
  pose proof (levenshteinDistance_le_max a b) as Hmax.
  split; [| split; [split |]].
  - unfold CognitiveSearch.getTextSimilarity.
    destruct (Js.eqb a b) eqn:Eab.
    + apply eqb_true in Eab. subst b. by rewrite eqb_refl.
    + assert (Eba : Js.eqb b a = false).
      { apply eqb_false. apply eqb_false in Eab. congruence. }
      rewrite Eba. apply eqb_false in Eab.
      destruct a as [| x a], b as [| y b]; try done.
      cbn [length Nat.eqb]. cbn zeta.
      by rewrite Hsym, Nat.max_comm.
  - unfold CognitiveSearch.getTextSimilarity.
    destruct (Js.eqb a b); [done |].
    destruct (length a =? 0)%nat eqn:Ea; [done |].
    destruct (length b =? 0)%nat; [done |].
    cbn zeta. apply Nat.eqb_neq in Ea.
    set (d := CognitiveSearch.levenshteinDistance a b) in *.
    set (m := Nat.max (length a) (length b)) in *.
    assert (Hm : 0 < CognitiveSearch.ofNat m) by (apply ofNat_pos; lia).
    assert (Hd : CognitiveSearch.ofNat d / CognitiveSearch.ofNat m <= 1).
    { apply Qle_shift_div_r; [done |]. rewrite Qmult_1_l. by apply ofNat_le. }
    lra.
  - apply getTextSimilarity_le_1.
  - split.
    + unfold CognitiveSearch.getTextSimilarity.
      destruct (Js.eqb a b) eqn:Eab; [intros _; by apply eqb_true |].
      destruct (length a =? 0)%nat eqn:Ea; [intros H; by inversion H |].
      destruct (length b =? 0)%nat; [intros H; by inversion H |].
      cbn zeta. apply Nat.eqb_neq in Ea. apply eqb_false in Eab.
      set (d := CognitiveSearch.levenshteinDistance a b) in *.
      set (m := Nat.max (length a) (length b)) in *.
      assert (Hm : 0 < CognitiveSearch.ofNat m) by (apply ofNat_pos; lia).
      assert (Hd : 0 < CognitiveSearch.ofNat d).
      { apply ofNat_pos. destruct d; [| lia].
        exfalso. apply Eab. by apply Hzero. }
      assert (Hq : 0 < CognitiveSearch.ofNat d / CognitiveSearch.ofNat m).
      { apply Qlt_shift_div_l; [done |]. by rewrite Qmult_0_l. }
      intros H. lra.
    + intros ->. unfold CognitiveSearch.getTextSimilarity.
      by rewrite eqb_refl.
Qed.

(** ** The output of [normalizeText] *)

Lemma replaceSpaces_length (s : jsstring) :
  (length (replaceSpaces s) <= length s)%nat.
Proof.
  induction s as [| c r IH]; [done |].
  cbn [replaceSpaces]. destruct (isSpace c).
  - destruct r as [| c' r']; [done |].
    destruct (isSpace c'); simpl in *; lia.
  - simpl. lia.
Qed.

Lemma foldLetters_length (s : jsstring) :
  (length (Spec.foldLetters s) <= length s)%nat.
Proof.
  rewrite foldLetters_map.
  etransitivity; [apply List.filter_length_le |]. by rewrite length_map.
Qed.

Lemma trim_length (s : jsstring) : (length (trim s) <= length s)%nat.
Proof.
  destruct (trim_infix s) as (a & b & H). rewrite H at 2.
  rewrite !length_app. lia.
Qed.

Lemma settled_letters (c : char) :
  Spec.settled c = true ->
  ~ In c [ALEF_HAMZA_ABOVE; ALEF_HAMZA_BELOW; ALEF_MADDA; ALEF_MAKSURA;
          TEH_MARBUTA; WAW_HAMZA; YEH_HAMZA; HAMZA].
Proof.
  intros Hs Hin. simpl in Hin.
  repeat (destruct Hin as [<- | Hin]; [by vm_compute in Hs |]). destruct Hin.
Qed.

(** X9.  The string that [normalizeText] returns is in normal form: none
    of the eight letter variants that the passes fold or drop is left, white
    space occurs only as single U+0020 between other code units, and never
    at either end; and the result is never longer than the text. *)
Theorem normalizeText_output (text : jsstring) :
  let n := CognitiveSearch.normalizeText text in
  (forall c, In c n ->
     ~ In c [ALEF_HAMZA_ABOVE; ALEF_HAMZA_BELOW; ALEF_MADDA; ALEF_MAKSURA;
             TEH_MARBUTA; WAW_HAMZA; YEH_HAMZA; HAMZA])
  /\ Spec.collapsed n = true
  /\ (forall c r, n = c :: r -> isSpace c = false)
  /\ (forall r c, n = r ++ [c] -> isSpace c = false)
  /\ (length n <= length text)%nat.
Proof.
  cbn zeta. destruct (normalizeText_normal text) as (Hs & Hc & Ht).
  split; [| split; [done |]; split; [| split]].
  - intros c Hin. apply settled_letters.
    by apply (proj1 (List.Forall_forall _ _) Hs).
  - intros c r Hn. rewrite Hn in Ht. unfold trim in Ht.
    destruct (isSpace c) eqn:Hsp; [| done]. exfalso.
    cbn [trimStart] in Ht. rewrite Hsp in Ht.
    destruct (trimStart_suffix r) as (a & Ha).
    destruct (trimEnd_prefix (trimStart r)) as (b & Hb).
    apply (f_equal (@length N)) in Ht, Ha, Hb.
    rewrite length_app in Ha, Hb. simpl in Ht. lia.
  - intros r c Hn. rewrite <- Ht in Hn. unfold trim, trimEnd in Hn.
    apply (f_equal (@rev N)) in Hn.
    rewrite rev_involutive, rev_app_distr in Hn. simpl in Hn.
    by apply trimStart_head in Hn.
  - rewrite normalizeText_unfold.
    pose proof (trim_length (replaceSpaces (Spec.foldLetters text))).
    pose proof (replaceSpaces_length (Spec.foldLetters text)).
    pose proof (foldLetters_length text). lia.
Qed.

Lemma normalizeText_output_witness :
  ~ In HAH [ALEF_HAMZA_ABOVE; ALEF_HAMZA_BELOW; ALEF_MADDA; ALEF_MAKSURA;
            TEH_MARBUTA; WAW_HAMZA; YEH_HAMZA; HAMZA]
  /\ isSpace ALEF = false.
Proof.
  destruct (normalizeText_output ([SPACE] ++ Sample.ahmedAr ++ [SPACE]))
    as (Hletters & _ & Hfirst & _).
  split.
  - apply Hletters. vm_compute. tauto.
  - apply (Hfirst ALEF [HAH; MEEM; DAL]). vm_compute. reflexivity.
Defined.

(** ** Candidate lists *)

Lemma existsb_eqb (x : jsstring) (l : list jsstring) :
  existsb (Js.eqb x) l = true <-> x ∈ l.
Proof.
  rewrite existsb_exists, list_elem_of_In. split.
  - intros (y & Hy & Heq). apply eqb_true in Heq. by subst.
  - intros H. exists x. split; [done | apply eqb_refl].
Qed.

Lemma dedupe_from_spec (xs seen : list jsstring) :
  NoDup (dedupe_from seen xs)
  /\ forall x, x ∈ dedupe_from seen xs <-> x ∈ xs /\ x ∉ seen.
Proof.
  revert seen. induction xs as [| y r IH]; intros seen; simpl.
  - split; [constructor |]. intros x. rewrite elem_of_nil. tauto.
  - destruct (existsb (Js.eqb y) seen) eqn:E.
    + apply existsb_eqb in E. destruct (IH seen) as [Hnd Hin].
      split; [done |]. intros x. rewrite Hin, elem_of_cons.
      split; [tauto |]. intros [[-> | Hx] Hs]; [done | tauto].
    + assert (Hy : y ∉ seen).
      { intros Hy. apply existsb_eqb in Hy. congruence. }
      destruct (IH (y :: seen)) as [Hnd Hin].
      split.
      * constructor; [| done]. rewrite Hin, elem_of_cons. tauto.
      * intros x. rewrite !elem_of_cons, Hin, elem_of_cons.
        split.
        -- intros [-> | [Hx Hs]]; [tauto |]. split; [tauto |].
           intros Hxs. apply Hs. tauto.
        -- intros [[-> | Hx] Hs]; [tauto |].
           destruct (decide (x = y)) as [-> | Hne]; [tauto |].
           right. split; [done |]. intros [-> | H']; tauto.
Qed.

Lemma slice0_arrayFromSet (n : nat) (xs : list jsstring) :
  NoDup (slice0 n (arrayFromSet xs))
  /\ (forall x, x ∈ slice0 n (arrayFromSet xs) -> x ∈ xs)
  /\ (xs <> [] -> (0 < n)%nat -> slice0 n (arrayFromSet xs) <> []).
Proof.
  unfold slice0, arrayFromSet.
  destruct (dedupe_from_spec xs []) as [Hnd Hin].
  split; [| split].
  - eapply sublist_NoDup; [done | apply sublist_take].
  - intros x Hx. apply elem_of_take in Hx as (i & Hx & _).
    apply list_elem_of_lookup_2 in Hx.
    by apply Hin in Hx as [Hx _].
  - intros Hne Hn. destruct xs as [| y r]; [done |].
    destruct n; [lia |]. simpl. discriminate.
Qed.

(** X10.  What the candidate generators return has no duplicates, and
    [buildArabicCandidatesFromEnglish] returns at least one candidate for
    every non-empty query (an empty query gives no candidate). *)
Theorem candidates_distinct (toLowerCase : jsstring -> jsstring)
    (digitMap digraphMap singleMap : list (jsstring * list jsstring))
    (text : jsstring) :
  (forall vs,
     CognitiveSearch.transliterateToken digitMap digraphMap singleMap text
     = Normal vs -> NoDup vs)
  /\ (forall cands,
        CognitiveSearch.buildArabicCandidatesFromEnglish toLowerCase text
        = Normal cands ->
        NoDup cands /\ (cands = [] <-> text = [])).
Proof.
  split.
  - intros vs. unfold CognitiveSearch.transliterateToken.
    destruct (CognitiveSearch.transliterateLoop _ _ _ _ _) as [l |];
      [| discriminate].
    cbn [bind]. intros H.
    assert (Hvs : vs = slice0 60 (arrayFromSet l)) by congruence.
    rewrite Hvs. apply slice0_arrayFromSet.
  - intros cands. unfold CognitiveSearch.buildArabicCandidatesFromEnglish.
    destruct text as [| c r]; [intros [= <-]; split; [constructor | done] |].
    destruct (CognitiveSearch.mapM _ _) as [tv |]; [| discriminate].
    cbn [bind].
    set (results := match CognitiveSearch.combineTokens tv with
                    | [] => [_]
                    | _ :: _ => CognitiveSearch.combineTokens tv
                    end).
    intros H.
    assert (Hc : cands = slice0 100 (arrayFromSet results)) by congruence.
    clear H. rewrite Hc.
    destruct (slice0_arrayFromSet 100 results) as (Hnd & _ & Hne).
    split; [done |]. split; [| discriminate].
    intros H. exfalso. apply Hne; [| lia | done].
    subst results. by destruct (CognitiveSearch.combineTokens tv).
Qed.

Lemma candidates_distinct_witness :
  exists cands,
    CognitiveSearch.buildArabicCandidatesFromEnglish CognitiveSearch.asciiLower
      (lit "ali") = Normal cands
    /\ NoDup cands /\ (cands = [] <-> lit "ali" = []).
Proof.
  eexists. split; [vm_compute; reflexivity |].
  apply (candidates_distinct CognitiveSearch.asciiLower
           CognitiveSearch.digitMap CognitiveSearch.digraphMap
           CognitiveSearch.singleMap (lit "ali")).
  vm_compute. reflexivity.
Defined.

(** ** [getSuggestions] *)

Lemma setAdd_spec (suggestions : list jsstring) (x : jsstring) :
  NoDup suggestions ->
  NoDup (CognitiveSearch.setAdd suggestions x)
  /\ forall y, y ∈ CognitiveSearch.setAdd suggestions x
               <-> y ∈ suggestions \/ y = x.
Proof.
  intros Hnd. unfold CognitiveSearch.setAdd.
  destruct (existsb (Js.eqb x) suggestions) eqn:E.
  - apply existsb_eqb in E. split; [done |].
    intros y. split; [tauto | by intros [? | ->]].
  - assert (Hx : x ∉ suggestions).
    { intros Hx. apply existsb_eqb in Hx. congruence. }
    split.
    + apply NoDup_app. split; [done |]. split; [| apply NoDup_singleton].
      intros y Hy Hy1. apply list_elem_of_singleton in Hy1. by subst.
    + intros y. rewrite elem_of_app, list_elem_of_singleton. tauto.
Qed.

Lemma fold_setAdd_spec (cond : jsstring -> bool) (xs : list jsstring) :
  forall suggestions,
    NoDup suggestions ->
    let result :=
      fold_left (fun acc x => if cond x then CognitiveSearch.setAdd acc x
                              else acc) xs suggestions in
    NoDup result
    /\ forall y, y ∈ result <-> y ∈ suggestions \/ (In y xs /\ cond y = true).
Proof.
  induction xs as [| x r IH]; intros suggestions Hnd; cbn zeta; simpl.
  - split; [done |]. intros y. split; [tauto | by intros [? | [[] _]]].
  - destruct (cond x) eqn:Hx.
    + destruct (setAdd_spec suggestions x Hnd) as [Hnd' Hin'].
      destruct (IH _ Hnd') as [Hr Hin]. split; [done |].
      intros y. rewrite Hin, Hin'. split.
      * intros [[? | ->] | [? ?]]; auto.
      * intros [? | [[<- | ?] ?]]; auto.
    + destruct (IH _ Hnd) as [Hr Hin]. split; [done |].
      intros y. rewrite Hin. split.
      * intros [? | [? ?]]; auto.
      * intros [? | [[<- | ?] ?]]; [auto | congruence | auto].
Qed.

Lemma suggestPerson_spec (toLowerCase : jsstring -> jsstring)
    (nq : jsstring) (p : Person) (suggestions : list jsstring) :
  NoDup suggestions ->
  exists result,
    CognitiveSearch.suggestPerson toLowerCase nq p suggestions = Normal result
    /\ NoDup result
    /\ forall y, y ∈ result ->
         y ∈ suggestions \/ Spec.suggestible toLowerCase nq [p] y.
Proof.
  intros Hnd. unfold CognitiveSearch.suggestPerson. cbn zeta.
  set (s1 := if includes _ nq then CognitiveSearch.setAdd suggestions (name p)
             else suggestions).
  assert (H1 : NoDup s1 /\ forall y, y ∈ s1 ->
                 y ∈ suggestions \/ Spec.suggestible toLowerCase nq [p] y).
  { subst s1.
    destruct (includes (CognitiveSearch.normalizeText (toLowerCase (name p))) nq)
      eqn:E; [| by auto].
    destruct (setAdd_spec suggestions (name p) Hnd) as [Hnd' Hin].
    split; [done |]. intros y Hy. apply Hin in Hy as [? | ->]; [by left |].
    right. exists p. split; [by left |]. by left. }
  destruct H1 as [Hnd1 Hin1].
  unfold CognitiveSearch.suggestAltNames.
  destruct (fold_setAdd_spec
              (fun alt => includes
                 (CognitiveSearch.normalizeText (toLowerCase alt)) nq)
              (altNames p) s1 Hnd1) as [Hnd2 Hin2].
  cbn zeta in Hnd2, Hin2.
  set (s2 := fold_left _ (altNames p) s1) in *.
  assert (H2 : forall y, y ∈ s2 ->
                 y ∈ suggestions \/ Spec.suggestible toLowerCase nq [p] y).
  { intros y Hy. apply Hin2 in Hy as [Hy | [Hy Hc]]; [by apply Hin1 |].
    right. exists p. split; [by left |]. right. by left. }
  unfold CognitiveSearch.suggestVariants.
  destruct (CognitiveSearch.isArabic (name p)) eqn:Har; [| by exists s2].
  destruct (get CognitiveSearch.arabicToEnglish (name p)) as [vs | |] eqn:Hg.
  - destruct (fold_setAdd_spec (fun v => includes (toLowerCase v) nq) vs s2 Hnd2)
      as [Hnd3 Hin3].
    cbn zeta in Hnd3, Hin3.
    eexists. split; [reflexivity |]. split; [done |].
    intros y Hy. apply Hin3 in Hy as [Hy | [Hy Hc]]; [by apply H2 |].
    right. exists p. split; [by left |]. right. right. by exists vs.
  - exfalso. revert Hg. by apply get_arabic_not_inherited.
  - by exists s2.
Qed.

Lemma suggestLoop_spec (toLowerCase : jsstring -> jsstring) (nq : jsstring)
    (people : list Person) :
  forall suggestions,
    NoDup suggestions ->
    exists result,
      CognitiveSearch.suggestLoop toLowerCase nq people suggestions
      = Normal result
      /\ NoDup result
      /\ forall y, y ∈ result ->
           y ∈ suggestions \/ Spec.suggestible toLowerCase nq people y.
Proof.
  induction people as [| p r IH]; intros suggestions Hnd; simpl.
  - exists suggestions. auto.
  - destruct (suggestPerson_spec toLowerCase nq p suggestions Hnd)
      as (s1 & -> & Hnd1 & Hin1).
    simpl. destruct (IH s1 Hnd1) as (s2 & -> & Hnd2 & Hin2).
    exists s2. split; [done |]. split; [done |].
    intros y Hy. destruct (Hin2 y Hy) as [Hy1 | (q & Hq & Hoff)].
    + destruct (Hin1 y Hy1) as [? | (q & [<- | []] & Hoff)]; [by left |].
      right. exists p. split; [by left | done].
    + right. exists q. split; [by right | done].
Qed.

(** X11.  [getSuggestions] returns for every query and people array.  A
    query of fewer than two code units gets no suggestion; otherwise there
    are at most ten, all different, and each is the name of a person, an
    alternative name or a dictionary variant of an Arabic name, that
    contains the normalised query. *)
Theorem getSuggestions_spec (toLowerCase : jsstring -> jsstring)
    (query : jsstring) (people : list Person) :
  exists suggestions,
    CognitiveSearch.getSuggestions toLowerCase query people = Normal suggestions
    /\ (length suggestions <= 10)%nat
    /\ NoDup suggestions
    /\ ((length query < 2)%nat -> suggestions = [])
    /\ forall s, s ∈ suggestions ->
         Spec.suggestible toLowerCase
           (CognitiveSearch.normalizeText (toLowerCase query)) people s.
Proof.
  unfold CognitiveSearch.getSuggestions.
  destruct (length query <? 2)%nat eqn:E.
  - exists []. split; [done |]. split; [simpl; lia |].
    split; [constructor |]. split; [done |]. intros s Hs.
    by apply elem_of_nil in Hs.
  - apply Nat.ltb_ge in E. cbn zeta.
    destruct (suggestLoop_spec toLowerCase
                (CognitiveSearch.normalizeText (toLowerCase query)) people []
                (NoDup_nil_2)) as (res & -> & Hnd & Hin).
    cbn [bind]. exists (slice0 10 res). split; [done |].
    unfold slice0. split; [rewrite length_take; lia |].
    split; [eapply sublist_NoDup; [done | apply sublist_take] |].
    split; [lia |]. intros s Hs.
    apply elem_of_take in Hs as (i & Hs & _).
    apply list_elem_of_lookup_2 in Hs.
    destruct (Hin s Hs) as [Hnil | ?]; [by apply elem_of_nil in Hnil | done].
Qed.

Lemma getSuggestions_spec_witness :
  CognitiveSearch.getSuggestions CognitiveSearch.asciiLower (lit "a")
    [Sample.ali] = Normal [].
Proof.
  destruct (getSuggestions_spec CognitiveSearch.asciiLower (lit "a")
              [Sample.ali]) as (suggestions & -> & _ & _ & Hshort & _).
  f_equal. apply Hshort. simpl. lia.
Defined.

Example getSuggestions_sample :
  CognitiveSearch.getSuggestions CognitiveSearch.asciiLower (lit "ah")
    [Sample.ali; Sample.ahmed]
  = Normal [lit "ahmed"; lit "ahmad"; lit "ahmet"].
Proof. vm_compute. reflexivity. Qed.

(* ================================================================== *)
(** * Further properties of the admin operations *)
(* ================================================================== *)

Lemma findIndex_Some (personId : jsstring) (l : list Person) (i : nat) :
  AdminPanel.findIndex personId l = Some i ->
  exists p, l !! i = Some p /\ id p = personId
    /\ forall j q, (j < i)%nat -> l !! j = Some q -> id q <> personId.
Proof.
  revert i. induction l as [| p r IH]; intros i; simpl; [discriminate |].
  destruct (Js.eqb (id p) personId) eqn:E.
  - intros [= <-]. apply eqb_true in E. exists p.
    split; [done |]. split; [done |]. intros; lia.
  - apply eqb_false in E.
    destruct (AdminPanel.findIndex personId r) as [k |] eqn:Hk; [| discriminate].
    simpl. intros [= <-]. destruct (IH k eq_refl) as (q & Hq & Hid & Hfirst).
    exists q. split; [done |]. split; [done |].
    intros [| j] q' Hj Hq'; simpl in Hq'; [by injection Hq' as <- |].
    apply (Hfirst j); [lia | done].
Qed.

Lemma findIndex_None (personId : jsstring) (l : list Person) :
  AdminPanel.findIndex personId l = None <->
  forall p, In p l -> id p <> personId.
Proof.
  induction l as [| p r IH]; simpl; [split; [intros _ ? [] | done] |].
  destruct (Js.eqb (id p) personId) eqn:E.
  - apply eqb_true in E. split; [discriminate |].
    intros H. exfalso. by apply (H p); [left |].
  - apply eqb_false in E.
    destruct (AdminPanel.findIndex personId r); simpl.
    + split; [discriminate |]. intros H.
      assert (Hr : forall q, In q r -> id q <> personId)
        by (intros q Hq; apply H; by right).
      apply IH in Hr. discriminate.
    + split; [| done]. intros _ q [<- | Hq]; [done |].
      by apply (proj1 IH).
Qed.

(** X12.  [updatePerson] returns [false] exactly when no person has the
    given id, and it then leaves the tree unchanged.  Otherwise it replaces
    the first such person of the array by the merge of that person with the
    given fields and leaves every other entry, the length of the array, the
    aliases and the marriages as they were; it then returns [true] if the
    call of [updateData] on the changed data returns, and throws if that
    call throws, as it does for a tree without such a method. *)
Theorem updatePerson_effect (personId : jsstring)
    (updatedData : AdminPanel.PersonUpdate) (tree : AdminPanel.Tree) :
  let result := AdminPanel.updatePerson personId updatedData tree in
  let before := AdminPanel.data tree in
  let after := AdminPanel.data result.1 in
  (result.2 = Normal false <-> ~ hasId before personId)
  /\ (result.2 = Normal false -> result.1 = tree)
  /\ length (people after) = length (people before)
  /\ aliases after = aliases before
  /\ marriages after = marriages before
  /\ (hasId before personId ->
      result.2 = match AdminPanel.callUpdateData result.1 after with
                 | Normal _ => Normal true
                 | Throw => Throw
                 end
      /\ (AdminPanel.updateData tree = None -> result.2 = Throw)
      /\ exists i p,
           people before !! i = Some p /\ id p = personId
           /\ (forall j q, (j < i)%nat -> people before !! j = Some q ->
                 id q <> personId)
           /\ people after !! i = Some (AdminPanel.spread p updatedData)
           /\ forall j, j <> i -> people after !! j = people before !! j).
Proof.
  cbn zeta. unfold AdminPanel.updatePerson.
  destruct (AdminPanel.findIndex personId (people (AdminPanel.data tree)))
    as [i |] eqn:Hi.
  - destruct (findIndex_Some _ _ _ Hi) as (p & Hp & Hid & Hfirst).
    rewrite Hp.
    cbn [fst snd AdminPanel.data AdminPanel.updateData people aliases
         marriages].
    assert (Hhas : hasId (AdminPanel.data tree) personId).
    { exists p. split; [| done].
      apply list_elem_of_In. by eapply list_elem_of_lookup_2. }
    split; [| split; [| split; [| split; [done |]; split; [done |]]]].
    + split; [| done]. unfold Js.bind.
      by destruct (AdminPanel.callUpdateData _ _).
    + unfold Js.bind. by destruct (AdminPanel.callUpdateData _ _).
    + apply length_insert.
    + intros _. split; [done |]. split.
      * unfold AdminPanel.callUpdateData. cbn [AdminPanel.updateData].
        by intros ->.
      * exists i, p. split; [done |].
        split; [done |]. split; [done |]. split.
        -- apply list_lookup_insert_eq. by eapply lookup_lt_Some.
        -- intros j Hj. by apply list_lookup_insert_ne.
  - cbn [fst snd]. split; [| split; [done |]; split; [done |]; split; [done |];
                              split; [done |]].
    + split; [| done]. intros _ (p & Hp & Hid).
      by apply (proj1 (findIndex_None _ _) Hi p Hp).
    + intros (p & Hp & Hid).
      exfalso. by apply (proj1 (findIndex_None _ _) Hi p Hp).
Qed.

Lemma updatePerson_effect_witness :
  (AdminPanel.updatePerson (lit "P-000012") Sample.selfFather
     Sample.familyTree).2 = Throw
  /\ (AdminPanel.updatePerson (lit "P-999999") Sample.selfFather
        Sample.familyTree).1 = Sample.familyTree.
Proof.
  split.
  - apply (updatePerson_effect (lit "P-000012") Sample.selfFather
             Sample.familyTree).
    + exists Sample.child. split; [simpl; tauto | reflexivity].
    + reflexivity.
  - apply (updatePerson_effect (lit "P-999999") Sample.selfFather
             Sample.familyTree).
    reflexivity.
Defined.

(** ** Deleting *)

Lemma forgetPerson_id (personId : jsstring) (p : Person) :
  ~ In personId (personRefs p) -> AdminPanel.forgetPerson personId p = p.
Proof.
  intros H. rewrite in_personRefs in H. unfold AdminPanel.forgetPerson.
  destruct p as [i n a g b d f m s r]. simpl in *. f_equal.
  - destruct (refIs f personId) eqn:E; [| done].
    apply refIs_true in E. tauto.
  - destruct (refIs m personId) eqn:E; [| done].
    apply refIs_true in E. tauto.
  - destruct s as [ids |]; [| done]. f_equal.
    assert (Hids : ~ In personId ids) by (intros Hin; apply H; eauto).
    clear H. induction ids as [| x ids IH]; [done |]. simpl.
    destruct (Js.eqb x personId) eqn:E.
    + apply eqb_true in E. subst. exfalso. apply Hids. by left.
    + simpl. f_equal. apply IH. intros Hin. apply Hids. by right.
Qed.

Lemma forgetPerson_forgets (personId : jsstring) (p : Person) :
  ~ In personId (personRefs (AdminPanel.forgetPerson personId p)).
Proof. intros H. apply forgetPerson_refs in H as [_ H]. by apply H. Qed.

Lemma filter_id {A} (f : A -> bool) (l : list A) :
  (forall x, In x l -> f x = true) -> List.filter f l = l.
Proof.
  induction l as [| x r IH]; intros H; simpl; [done |].
  rewrite (H x (or_introl eq_refl)). f_equal. apply IH.
  intros y Hy. apply H. by right.
Qed.

Lemma map_id_on {A} (f : A -> A) (l : list A) :
  (forall x, In x l -> f x = x) -> List.map f l = l.
Proof.
  induction l as [| x r IH]; intros H; simpl; [done |].
  rewrite (H x (or_introl eq_refl)). f_equal. apply IH.
  intros y Hy. apply H. by right.
Qed.

(** What a confirmed delete does to the data. *)
Lemma deletePerson_unchanged (personId : jsstring) (tree : AdminPanel.Tree) :
  ~ hasId (AdminPanel.data tree) personId ->
  (forall p, In p (people (AdminPanel.data tree)) ->
     ~ In personId (personRefs p)) ->
  (forall m, In m (marriages (AdminPanel.data tree)) ->
     spouse1Id m <> personId /\ spouse2Id m <> personId) ->
  (AdminPanel.deletePerson personId true tree).1 = tree.
Proof.
  intros Hid Hrefs Hmar. destruct tree as [[ps al ms] u]. simpl in *.
  f_equal. f_equal.
  - rewrite filter_id.
    + apply map_id_on. intros p Hp. apply forgetPerson_id. by apply Hrefs.
    + intros p Hp. apply negb_true_iff, eqb_false. intros Hp'.
      apply Hid. by exists p.
  - apply filter_id. intros m Hm. destruct (Hmar m Hm) as [H1 H2].
    apply andb_true_iff. split; by apply negb_true_iff, eqb_false.
Qed.

Lemma deletePerson_clean (personId : jsstring) (tree : AdminPanel.Tree) :
  let deleted := (AdminPanel.deletePerson personId true tree).1 in
  ~ hasId (AdminPanel.data deleted) personId
  /\ (forall p, In p (people (AdminPanel.data deleted)) ->
        ~ In personId (personRefs p))
  /\ (forall m, In m (marriages (AdminPanel.data deleted)) ->
        spouse1Id m <> personId /\ spouse2Id m <> personId).
Proof.
  cbn zeta. split; [| split].
  - intros H. apply deletePerson_hasId in H as [_ H]. by apply H.
  - intros q Hq. apply deletePerson_people in Hq as (p & _ & _ & ->).
    apply forgetPerson_forgets.
  - intros m Hm. by apply deletePerson_marriages in Hm as (_ & H1 & H2).
Qed.

Lemma deletePerson_keeps_valid (personId : jsstring) (tree : AdminPanel.Tree) :
  let deleted := (AdminPanel.deletePerson personId true tree).1 in
  personsValid (AdminPanel.data tree) ->
  spousesValid (AdminPanel.data tree) ->
  personsValid (AdminPanel.data deleted)
  /\ spousesValid (AdminPanel.data deleted).
Proof.
  cbn zeta. intros Hpersons Hspouses. split.
  - intros q Hq r Hr. apply deletePerson_people in Hq as (p & Hp & Hne & ->).
    apply forgetPerson_refs in Hr as [Hr Hrne].
    destruct (Hpersons p Hp r Hr) as [Hid Hself].
    split; [by apply deletePerson_hasId | done].
  - intros m Hm. apply deletePerson_marriages in Hm as (Hm & H1 & H2).
    destruct (Hspouses m Hm) as [Hs1 Hs2].
    split; by apply deletePerson_hasId.
Qed.

(** X13.  A confirmed [deletePerson] is idempotent on the tree, and it
    changes nothing when no person has the id, no person refers to it and
    it is no spouse of a marriage; a declined one changes nothing at all
    and returns [false] without a call of [updateData]. *)
Theorem deletePerson_idempotent (personId : jsstring)
    (tree : AdminPanel.Tree) :
  (AdminPanel.deletePerson personId true
     (AdminPanel.deletePerson personId true tree).1).1
  = (AdminPanel.deletePerson personId true tree).1
  /\ AdminPanel.deletePerson personId false tree = (tree, Normal false)
  /\ (~ hasId (AdminPanel.data tree) personId ->
      (forall p, In p (people (AdminPanel.data tree)) ->
         ~ In personId (personRefs p)) ->
      (forall m, In m (marriages (AdminPanel.data tree)) ->
         spouse1Id m <> personId /\ spouse2Id m <> personId) ->
      (AdminPanel.deletePerson personId true tree).1 = tree).
Proof.
  split; [| split; [done |]].
  - destruct (deletePerson_clean personId tree) as (H1 & H2 & H3).
    by apply deletePerson_unchanged.
  - apply deletePerson_unchanged.
Qed.

Lemma deletePerson_idempotent_witness :
  (AdminPanel.deletePerson (lit "P-999999") true Sample.familyTree).1
  = Sample.familyTree.
Proof.
  apply (deletePerson_idempotent (lit "P-999999") Sample.familyTree).
  - intros (p & Hp & Hid). simpl in Hp.
    destruct Hp as [<- | [<- | [<- | []]]]; discriminate.
  - intros p Hp Hin. simpl in Hp.
    destruct Hp as [<- | [<- | [<- | []]]]; simpl in Hin;
      repeat (destruct Hin as [Hin | Hin]; [discriminate |]); done.
  - intros m Hm. simpl in Hm. destruct Hm as [<- | []].
    split; discriminate.
Defined.

(** X14.  On data whose relationship invariants all hold, a confirmed
    [deletePerson] keeps all of them exactly when no remaining marriage
    lists the deleted person among its children. *)
Theorem deletePerson_valid_iff (personId : jsstring) (tree : AdminPanel.Tree) :
  relationshipsValid (AdminPanel.data tree) ->
  let deleted := (AdminPanel.deletePerson personId true tree).1 in
  relationshipsValid (AdminPanel.data deleted)
  <-> forall m, In m (marriages (AdminPanel.data deleted)) ->
        ~ In personId (children m).
Proof.
  intros (Hp & Hs & Hc). cbn zeta. split.
  - intros (_ & _ & Hc') m Hm Hin.
    apply (Hc' m Hm), deletePerson_hasId in Hin as [_ Hne]. by apply Hne.
  - intros Hno. destruct (deletePerson_keeps_valid personId tree Hp Hs)
      as [Hp' Hs'].
    split; [done |]. split; [done |].
    intros m Hm c Hin. apply deletePerson_hasId. split.
    + apply deletePerson_marriages in Hm as (Hm' & _). by apply (Hc m Hm').
    + intros ->. by apply (Hno m Hm).
Qed.

Lemma deletePerson_valid_iff_witness :
  relationshipsValid
    (AdminPanel.data
       (AdminPanel.deletePerson (lit "P-000010") true Sample.familyTree).1)
  <-> forall m,
        In m (marriages
                (AdminPanel.data
                   (AdminPanel.deletePerson (lit "P-000010") true
                      Sample.familyTree).1)) ->
        ~ In (lit "P-000010") (children m).
Proof.
  apply (deletePerson_valid_iff (lit "P-000010") Sample.familyTree).
  exact family_valid.
Defined.

(** ** The people map of a tree built from the data of the panel *)

Lemma peopleMap_snoc (l : list Person) (p : Person) :
  FamilyTreeGL.peopleMap (l ++ [p]) = <[id p := p]> (FamilyTreeGL.peopleMap l).
Proof. unfold FamilyTreeGL.peopleMap. by rewrite fold_left_app. Qed.

Lemma peopleMap_delete (personId : jsstring) (l : list Person) (j : jsstring) :
  FamilyTreeGL.peopleMap
    (List.map (AdminPanel.forgetPerson personId)
       (List.filter (fun p => negb (Js.eqb (id p) personId)) l)) !! j
  = if decide (j = personId) then None
    else AdminPanel.forgetPerson personId <$> FamilyTreeGL.peopleMap l !! j.
Proof.
  induction l as [| p l IH] using rev_ind.
  - cbn [List.filter List.map].
    change (FamilyTreeGL.peopleMap []) with (∅ : gmap (list N) Person).
    rewrite lookup_empty. by destruct (decide _).
  - rewrite List.filter_app, List.map_app, peopleMap_snoc. simpl.
    destruct (Js.eqb (id p) personId) eqn:E; simpl.
    + apply eqb_true in E. rewrite app_nil_r, IH.
      destruct (decide (j = personId)) as [-> | Hne]; [done |].
      rewrite lookup_insert_ne by congruence. done.
    + apply eqb_false in E. rewrite peopleMap_snoc. simpl.
      destruct (decide (id p = j)) as [<- | Hj].
      * rewrite !lookup_insert_eq. by destruct (decide _).
      * rewrite !lookup_insert_ne by done. apply IH.
Qed.

(** X15.  The people map that a tree constructor builds
    ([new Map(data.people.map(p => [p.id, p]))]) from the data a confirmed
    [deletePerson] leaves has no entry for the deleted id, and under every
    other id it has the person that the map of the data before had, with
    the references to the deleted id removed. *)
Theorem peopleMap_after_delete (personId : jsstring) (tree : AdminPanel.Tree)
    (j : jsstring) :
  let deleted := (AdminPanel.deletePerson personId true tree).1 in
  FamilyTreeGL.peopleMap (people (AdminPanel.data deleted)) !! personId = None
  /\ (j <> personId ->
      FamilyTreeGL.peopleMap (people (AdminPanel.data deleted)) !! j
      = AdminPanel.forgetPerson personId
          <$> FamilyTreeGL.peopleMap (people (AdminPanel.data tree)) !! j).
Proof.
  cbn zeta. simpl. split.
  - rewrite peopleMap_delete. by destruct (decide _).
  - intros Hj. rewrite peopleMap_delete. by destruct (decide _).
Qed.

Lemma peopleMap_after_delete_witness :
  FamilyTreeGL.peopleMap
    (people
       (AdminPanel.data
          (AdminPanel.deletePerson (lit "P-000010") true Sample.familyTree).1))
    !! lit "P-000012"
  = AdminPanel.forgetPerson (lit "P-000010")
      <$> FamilyTreeGL.peopleMap (people (AdminPanel.data Sample.familyTree))
            !! lit "P-000012".
Proof.
  apply (peopleMap_after_delete (lit "P-000010") Sample.familyTree
           (lit "P-000012")).
  discriminate.
Defined.

(** X16.  [addPersonToTree] appends the person to the array, before it
    calls [updateData]; a people map built from the data afterwards has
    that person under its id (also when an earlier person had the same
    id), and the relationship invariants still hold when they held before
    and every reference of the new person resolves in the old data and is
    not the person's own id, as for a person without references.  On a
    tree without a method [updateData] the call throws once the person is
    in the data. *)
Theorem addPersonToTree_effect (person : Person) (tree : AdminPanel.Tree) :
  let added := (AdminPanel.addPersonToTree person tree).1 in
  people (AdminPanel.data added) = people (AdminPanel.data tree) ++ [person]
  /\ FamilyTreeGL.peopleMap (people (AdminPanel.data added)) !! id person
     = Some person
  /\ (relationshipsValid (AdminPanel.data tree) ->
      (forall r, In r (personRefs person) ->
         hasId (AdminPanel.data tree) r /\ r <> id person) ->
      relationshipsValid (AdminPanel.data added))
  /\ (AdminPanel.updateData tree = None ->
      (AdminPanel.addPersonToTree person tree).2 = Throw).
Proof.
  cbn zeta. split; [done |]. split; [| split].
  - simpl. by rewrite peopleMap_snoc, lookup_insert_eq.
  - intros (Hp & Hs & Hc) Hnew.
    assert (Hmono : forall i, hasId (AdminPanel.data tree) i ->
              hasId (AdminPanel.data
                       (AdminPanel.addPersonToTree person tree).1) i).
    { intros i (p & Hin & Hid). exists p. split; [| done].
      simpl. apply in_or_app. by left. }
    split; [| split].
    + intros p Hin r Hr. simpl in Hin. apply in_app_or in Hin as [Hin | [<- | []]].
      * destruct (Hp p Hin r Hr). split; [by apply Hmono | done].
      * destruct (Hnew r Hr). split; [by apply Hmono | done].
    + intros m Hm. destruct (Hs m Hm). split; by apply Hmono.
    + intros m Hm c Hin. apply Hmono. by apply (Hc m Hm).
  - intros Hnone. unfold AdminPanel.addPersonToTree,
      AdminPanel.callUpdateData. cbn [snd AdminPanel.updateData].
    by rewrite Hnone.
Qed.

Lemma addPersonToTree_effect_witness :
  relationshipsValid
    (AdminPanel.data (AdminPanel.addPersonToTree Sample.ali Sample.familyTree).1)
  /\ (AdminPanel.addPersonToTree Sample.ali Sample.familyTree).2 = Throw.
Proof.
  split.
  - apply (addPersonToTree_effect Sample.ali Sample.familyTree).
    + exact family_valid.
    + intros r [].
  - apply (addPersonToTree_effect Sample.ali Sample.familyTree).
    reflexivity.
Defined.

(* ================================================================== *)
(** * Further properties of the tree functions *)
(* ================================================================== *)

(** ** Marriage ids identify the couple *)

Lemma split_at_unique (c : N) (x y x' y' : list N) :
  ~ In c x -> ~ In c x' -> x ++ c :: y = x' ++ c :: y' -> x = x' /\ y = y'.
Proof.
  revert x'. induction x as [| a x IH]; intros [| a' x'] Hx Hx' H; simpl in *.
  - by injection H as <-.
  - injection H as <- _. exfalso. apply Hx'. by left.
  - injection H as -> _. exfalso. apply Hx. by left.
  - injection H as <- H. destruct (IH x') as [-> ->]; [tauto | tauto | done |].
    done.
Qed.

(** X17.  For ids without an underscore (as the ids [P-dddddd] of the
    application), the marriage id determines the couple: two pairs of
    spouses get the same id only if they are the same pair, in either
    order. *)
Theorem generateMarriageId_injective (a b c d : jsstring) :
  ~ In 0x5F%N a -> ~ In 0x5F%N b -> ~ In 0x5F%N c -> ~ In 0x5F%N d ->
  FamilyTreeGL.generateMarriageId a b = FamilyTreeGL.generateMarriageId c d ->
  (a = c /\ b = d) \/ (a = d /\ b = c).
Proof.
  intros Ha Hb Hc Hd. unfold FamilyTreeGL.generateMarriageId.
  rewrite !sort_pair.
  destruct (Js.ltb b a), (Js.ltb d c); cbn [nth];
    intros H; apply app_inv_head in H;
    change (lit "_" ++ ?y) with (0x5F%N :: y) in H;
    apply split_at_unique in H as [-> ->]; auto.
Qed.

Lemma generateMarriageId_injective_witness :
  (lit "P-000010" = lit "P-000011" /\ lit "P-000011" = lit "P-000010")
  \/ (lit "P-000010" = lit "P-000010" /\ lit "P-000011" = lit "P-000011").
Proof.
  apply (generateMarriageId_injective (lit "P-000010") (lit "P-000011")
           (lit "P-000011") (lit "P-000010")).
  - vm_compute. intuition discriminate.
  - vm_compute. intuition discriminate.
  - vm_compute. intuition discriminate.
  - vm_compute. intuition discriminate.
  - reflexivity.
Defined.

(** Without that proviso two different couples can share an id. *)
Remark generateMarriageId_collision :
  FamilyTreeGL.generateMarriageId (lit "a_b") (lit "c")
  = FamilyTreeGL.generateMarriageId (lit "a") (lit "b_c").
Proof. reflexivity. Qed.

(** ** The generation cache *)

Section CacheProofs.
Variable people : gmap (list N) Person.

Lemma parentGeneration_mono
    (compute1 compute2 :
       gmap (list N) FamilyTreeGL.generation -> jsstring ->
       option (FamilyTreeGL.generation * gmap (list N) FamilyTreeGL.generation))
    (r : ref) (cache : gmap (list N) FamilyTreeGL.generation) res :
  (forall c j res', compute1 c j = Some res' -> compute2 c j = Some res') ->
  FamilyTreeGL.parentGeneration compute1 r cache = Some res ->
  FamilyTreeGL.parentGeneration compute2 r cache = Some res.
Proof.
  intros Hmono. unfold FamilyTreeGL.parentGeneration.
  destruct r as [j |]; [| done]. destruct (truthy (Some j)); [| done].
  destruct (compute1 cache j) as [[g c'] |] eqn:E; [| discriminate].
  by rewrite (Hmono _ _ _ E).
Qed.

Lemma computeGeneration_S (fuel : nat)
    (cache : gmap (list N) FamilyTreeGL.generation) (i : jsstring) :
  FamilyTreeGL.computeGeneration (S fuel) people cache i
  = match FamilyTreeGL.cacheGet cache i with
    | Some g => Some (g, cache)
    | None =>
        match people !! i with
        | None => Some (FamilyTreeGL.Gen 0, cache)
        | Some p =>
            match FamilyTreeGL.parentGeneration
                    (FamilyTreeGL.computeGeneration fuel people)
                    (fatherId p) cache with
            | None => None
            | Some (fatherGen, cache1) =>
                match FamilyTreeGL.parentGeneration
                        (FamilyTreeGL.computeGeneration fuel people)
                        (motherId p) cache1 with
                | None => None
                | Some (motherGen, cache2) =>
                    Some (FamilyTreeGL.mathMax fatherGen motherGen,
                          <[i := FamilyTreeGL.mathMax fatherGen motherGen]>
                            cache2)
                end
            end
        end
    end.
Proof. reflexivity. Qed.

Lemma computeGeneration_more_fuel (fuel : nat) :
  forall cache i res,
    FamilyTreeGL.computeGeneration fuel people cache i = Some res ->
    FamilyTreeGL.computeGeneration (S fuel) people cache i = Some res.
Proof.
  induction fuel as [| fuel IH]; intros cache i res; [discriminate |].
  intros H. rewrite computeGeneration_S in H |- *.
  destruct (FamilyTreeGL.cacheGet cache i); [done |].
  destruct (people !! i) as [p |]; [| done].
  destruct (FamilyTreeGL.parentGeneration _ (fatherId p) cache)
    as [[fg c1] |] eqn:Ef; [| discriminate].
  rewrite (parentGeneration_mono _ _ _ _ _ IH Ef).
  destruct (FamilyTreeGL.parentGeneration _ (motherId p) c1)
    as [[mg c2] |] eqn:Em; [| discriminate].
  by rewrite (parentGeneration_mono _ _ _ _ _ IH Em).
Qed.

End CacheProofs.

(** X18.  A result of [computeGeneration] does not depend on how deep the
    stack may grow: a call that returns with some bound on the depth
    returns the same generation and the same cache with every greater
    bound. *)
Theorem computeGeneration_fuel_independent (people : gmap (list N) Person)
    (cache : gmap (list N) FamilyTreeGL.generation) (i : jsstring)
    (fuel fuel' : nat) res :
  FamilyTreeGL.computeGeneration fuel people cache i = Some res ->
  (fuel <= fuel')%nat ->
  FamilyTreeGL.computeGeneration fuel' people cache i = Some res.
Proof.
  intros H Hle. induction Hle as [| fuel' _ IH]; [done |].
  by apply computeGeneration_more_fuel.
Qed.

Lemma computeGeneration_fuel_independent_witness :
  FamilyTreeGL.computeGeneration 7
    (FamilyTreeGL.peopleMap (people Sample.family)) ∅ (lit "P-000012")
  = FamilyTreeGL.computeGeneration 2
      (FamilyTreeGL.peopleMap (people Sample.family)) ∅ (lit "P-000012").
Proof.
  destruct (FamilyTreeGL.computeGeneration 2
              (FamilyTreeGL.peopleMap (people Sample.family)) ∅
              (lit "P-000012")) as [res |] eqn:E.
  - apply (computeGeneration_fuel_independent _ _ _ 2 7 res E). lia.
  - vm_compute in E. discriminate.
Defined.

(** X19.  The cache memoises: when [computeGeneration(id)] has returned,
    calling it again with the cache it left returns the same generation at
    once (a stack of depth one suffices) and leaves the cache as it is. *)
Theorem computeGeneration_memoised (people : gmap (list N) Person)
    (cache cache' : gmap (list N) FamilyTreeGL.generation) (i : jsstring)
    (fuel fuel' : nat) (g : FamilyTreeGL.generation) :
  FamilyTreeGL.computeGeneration fuel people cache i = Some (g, cache') ->
  (0 < fuel')%nat ->
  FamilyTreeGL.computeGeneration fuel' people cache' i = Some (g, cache').
Proof.
  intros H Hf. destruct fuel' as [| fuel']; [lia |].
  destruct fuel as [| fuel]; [discriminate |].
  rewrite computeGeneration_S in H |- *.
  destruct (FamilyTreeGL.cacheGet cache i) as [g0 |] eqn:Hget.
  { injection H as <- <-. by rewrite Hget. }
  destruct (people !! i) as [p |] eqn:Hp.
  2:{ injection H as <- <-. by rewrite Hget. }
  destruct (FamilyTreeGL.parentGeneration _ (fatherId p) cache)
    as [[fg c1] |]; [| discriminate].
  destruct (FamilyTreeGL.parentGeneration _ (motherId p) c1)
    as [[mg c2] |]; [| discriminate].
  injection H as <- <-.
  unfold FamilyTreeGL.cacheGet. by rewrite lookup_insert_eq.
Qed.

Lemma computeGeneration_memoised_witness :
  exists g cache',
    FamilyTreeGL.computeGeneration 4
      (FamilyTreeGL.peopleMap (people Sample.family)) ∅ (lit "P-000012")
    = Some (g, cache')
    /\ FamilyTreeGL.computeGeneration 1
         (FamilyTreeGL.peopleMap (people Sample.family)) cache'
         (lit "P-000012")
       = Some (g, cache').
Proof.
  destruct (FamilyTreeGL.computeGeneration 4
              (FamilyTreeGL.peopleMap (people Sample.family)) ∅
              (lit "P-000012")) as [[g cache'] |] eqn:E.
  - exists g, cache'. split; [done |].
    apply (computeGeneration_memoised _ _ _ _ 4 1 g E). lia.
  - vm_compute in E. discriminate.
Defined.

(* ================================================================== *)
(** * The CSV converter *)
(* ================================================================== *)

(** ** [parseCSVLine] *)

Lemma trimStart_In (s : jsstring) (c : char) : In c (trimStart s) -> In c s.
Proof.
  induction s as [| a r IH]; simpl; [done |].
  destruct (isSpace a); [| done]. intros H. right. by apply IH.
Qed.

Lemma trim_In (s : jsstring) (c : char) : In c (trim s) -> In c s.
Proof.
  unfold trim, trimEnd. intros H.
  apply in_rev, trimStart_In in H. apply in_rev in H.
  by apply trimStart_In.
Qed.

Lemma parseLoop_values (line : jsstring) (values : list jsstring)
    (current : jsstring) (inQuotes : bool) (P : jsstring -> Prop) :
  (forall v, In v values -> P v) ->
  (forall s, ~ In DataConverter.QUOTE s -> P (trim s)) ->
  ~ In DataConverter.QUOTE current ->
  forall v, In v (DataConverter.parseLoop line values current inQuotes) -> P v.
Proof.
  intros Hvalues Htrim.
  revert values current inQuotes Hvalues.
  induction line as [| c rest IH]; intros values current inQuotes Hvalues Hcur v;
    simpl.
  - intros Hv. apply in_app_or in Hv as [Hv | [<- | []]]; [by apply Hvalues |].
    by apply Htrim.
  - destruct (N.eqb_spec c DataConverter.QUOTE) as [-> | Hq].
    { by apply IH. }
    destruct ((c =? DataConverter.COMMA)%N && negb inQuotes).
    + apply IH; [| by intros []].
      intros w Hw. apply in_app_or in Hw as [Hw | [<- | []]];
        [by apply Hvalues | by apply Htrim].
    + apply IH; [done |]. intros Hin. apply in_app_or in Hin as [Hin | [-> | []]];
        [by apply Hcur | by apply Hq].
Qed.

Lemma parseLoop_plain (line : jsstring) (values : list jsstring)
    (current : jsstring) :
  ~ In DataConverter.QUOTE line ->
  length (DataConverter.parseLoop line values current false)
  = (length values + S (count_occ N.eq_dec line DataConverter.COMMA))%nat.
Proof.
  revert values current.
  induction line as [| c rest IH]; intros values current Hq.
  - simpl. rewrite length_app. simpl. lia.
  - assert (Hc : (c =? DataConverter.QUOTE)%N = false).
    { apply N.eqb_neq. intros ->. apply Hq. by left. }
    assert (Hrest : ~ In DataConverter.QUOTE rest)
      by (intros H; apply Hq; by right).
    cbn [DataConverter.parseLoop count_occ]. rewrite Hc. cbn [negb].
    rewrite andb_true_r.
    destruct (N.eq_dec c DataConverter.COMMA) as [E | E].
    + apply N.eqb_eq in E. rewrite E, IH by done.
      rewrite length_app. simpl. lia.
    + apply N.eqb_neq in E. rewrite E, IH by done. lia.
Qed.

Lemma parseLoop_quoted (s rest : jsstring) (values : list jsstring)
    (current : jsstring) :
  ~ In DataConverter.QUOTE s ->
  DataConverter.parseLoop (s ++ rest) values current true
  = DataConverter.parseLoop rest values (current ++ s) true.
Proof.
  revert current. induction s as [| c r IH]; intros current Hq; simpl.
  - by rewrite app_nil_r.
  - destruct (N.eqb_spec c DataConverter.QUOTE) as [-> | Hc].
    { exfalso. apply Hq. by left. }
    rewrite andb_false_r. rewrite IH by (intros H; apply Hq; by right).
    by rewrite <- app_assoc.
Qed.

Lemma parseLoop_quote (rest : jsstring) (values : list jsstring)
    (current : jsstring) (inQuotes : bool) :
  DataConverter.parseLoop (DataConverter.QUOTE :: rest) values current inQuotes
  = DataConverter.parseLoop rest values current (negb inQuotes).
Proof. reflexivity. Qed.

(** X20.  [parseCSVLine]: no value it returns holds a double quote, and
    every value is trimmed.  A line without double quotes gives one value
    more than it has commas.  A field between double quotes is one value,
    commas included, and so is everything that follows a double quote which
    is never closed. *)
Theorem parseCSVLine_properties (line s : jsstring) :
  (forall v, In v (DataConverter.parseCSVLine line) ->
     ~ In DataConverter.QUOTE v /\ trim v = v)
  /\ (~ In DataConverter.QUOTE line ->
      length (DataConverter.parseCSVLine line)
      = S (count_occ N.eq_dec line DataConverter.COMMA))
  /\ (~ In DataConverter.QUOTE s ->
      DataConverter.parseCSVLine
        (DataConverter.QUOTE :: s ++ [DataConverter.QUOTE]) = [trim s]
      /\ DataConverter.parseCSVLine (DataConverter.QUOTE :: s) = [trim s]).
Proof.
  split; [| split].
  - unfold DataConverter.parseCSVLine.
    apply parseLoop_values; [by intros ? [] | | by intros []].
    intros t Ht. split; [| apply trim_idem].
    intros H. by apply Ht, trim_In.
  - intros Hq. unfold DataConverter.parseCSVLine. by rewrite parseLoop_plain.
  - intros Hs. unfold DataConverter.parseCSVLine.
    rewrite !parseLoop_quote. cbn [negb]. split.
    + rewrite parseLoop_quoted by done. by rewrite parseLoop_quote.
    + rewrite <- (app_nil_r s) at 1. by rewrite parseLoop_quoted.
Qed.

Lemma parseCSVLine_properties_witness :
  length (DataConverter.parseCSVLine (lit "7,omar , 1900,")) = 4%nat
  /\ DataConverter.parseCSVLine
       (DataConverter.QUOTE :: lit "3, 4" ++ [DataConverter.QUOTE])
     = [lit "3, 4"].
Proof.
  destruct (parseCSVLine_properties (lit "7,omar , 1900,") (lit "3, 4"))
    as (_ & Hplain & Hquoted).
  split.
  - apply Hplain. vm_compute. intuition discriminate.
  - apply Hquoted. vm_compute. intuition discriminate.
Defined.

(** ** [hashString] *)

Lemma toInt32_congr (x y : Z) :
  (x mod 2 ^ 32 = y mod 2 ^ 32)%Z ->
  DataConverter.toInt32 x = DataConverter.toInt32 y.
Proof.
  intros H. unfold DataConverter.toInt32.
  by rewrite (Z.add_mod x), H, <- Z.add_mod.
Qed.

Lemma toInt32_mod (x : Z) :
  (DataConverter.toInt32 x mod 2 ^ 32 = x mod 2 ^ 32)%Z.
Proof.
  unfold DataConverter.toInt32.
  rewrite Zminus_mod_idemp_l. f_equal. lia.
Qed.

Lemma toInt32_range (x : Z) :
  (- 2 ^ 31 <= DataConverter.toInt32 x < 2 ^ 31)%Z.
Proof.
  unfold DataConverter.toInt32.
  pose proof (Z.mod_pos_bound (x + 2 ^ 31) (2 ^ 32) ltac:(lia)). lia.
Qed.

Lemma hashStep_polynomial (h : Z) (c : N) :
  DataConverter.hashStep h c = DataConverter.toInt32 (31 * h + Z.of_N c).
Proof.
  unfold DataConverter.hashStep. apply toInt32_congr.
  rewrite Z.add_mod, Zminus_mod, toInt32_mod by lia.
  rewrite Z.mul_mod, toInt32_mod, <- Z.mul_mod by lia.
  rewrite <- Zminus_mod, <- Z.add_mod by lia. f_equal. lia.
Qed.

Lemma fold_hashStep (s : jsstring) (h : Z) :
  fold_left DataConverter.hashStep s (DataConverter.toInt32 h)
  = DataConverter.toInt32 (h * 31 ^ Z.of_nat (length s) + Spec.polynomial s).
Proof.
  revert h. induction s as [| c r IH]; intros h.
  - simpl. f_equal. lia.
  - cbn [fold_left]. rewrite hashStep_polynomial.
    erewrite (toInt32_congr (31 * DataConverter.toInt32 h + Z.of_N c)
                (31 * h + Z.of_N c)).
    + rewrite IH. f_equal. cbn [Spec.polynomial length].
      rewrite Nat2Z.inj_succ, Z.pow_succ_r by lia. lia.
    + rewrite Z.add_mod, Z.mul_mod, toInt32_mod, <- Z.mul_mod, <- Z.add_mod
        by lia. done.
Qed.

(** X21.  [hashString] is the absolute value of the polynomial hash in 31
    of the code units, reduced to a signed 32-bit integer; it lies between
    0 and 2^31, both included. *)
Theorem hashString_polynomial (str : jsstring) :
  DataConverter.hashString str
  = Z.abs (DataConverter.toInt32 (Spec.polynomial str))
  /\ (0 <= DataConverter.hashString str <= 2 ^ 31)%Z.
Proof.
  assert (H : DataConverter.hashString str
              = Z.abs (DataConverter.toInt32 (Spec.polynomial str))).
  { unfold DataConverter.hashString.
    change 0%Z with (DataConverter.toInt32 0) at 1.
    rewrite fold_hashStep. f_equal. }
  split; [exact H |]. rewrite H.
  pose proof (toInt32_range (Spec.polynomial str)). lia.
Qed.

Example hashString_abc : DataConverter.hashString (lit "abc") = 96354%Z.
Proof. reflexivity. Qed.

(** ** [generatePersonId] *)

Lemma digitsFrom_spec (fuel : nat) (n : N) (acc : jsstring) :
  (n < 10 ^ N.of_nat (S fuel))%N ->
  exists ds,
    DataConverter.digitsFrom (S fuel) n acc = ds ++ acc
    /\ ds <> []
    /\ Forall Spec.isDigit ds
    /\ (forall v, fold_left (fun v d => (10 * v + (d - 0x30))%N) ds v
                  = (v * 10 ^ N.of_nat (length ds) + n)%N)
    /\ (forall k, (0 < k)%nat -> (n < 10 ^ N.of_nat k)%N ->
          (length ds <= k)%nat).
Proof.
  revert n acc. induction fuel as [| fuel IH]; intros n acc Hn.
  - exists [(0x30 + n mod 10)%N].
    assert (n < 10)%N by (change (10 ^ N.of_nat 1)%N with 10%N in Hn; lia).
    rewrite (N.mod_small n 10) by done.
    split; [| split; [done |]; split; [| split]].
    + cbn [DataConverter.digitsFrom]. rewrite (N.mod_small n 10) by done.
      by destruct (n / 10 =? 0)%N.
    + constructor; [unfold Spec.isDigit; lia | constructor].
    + intros v. cbn [fold_left length].
      change (10 ^ N.of_nat 1)%N with 10%N. lia.
    + intros k Hk _. simpl. lia.
  - change (DataConverter.digitsFrom (S (S fuel)) n acc)
      with (let acc' := (0x30 + n mod 10)%N :: acc in
            if (n / 10 =? 0)%N then acc'
            else DataConverter.digitsFrom (S fuel) (n / 10)%N acc').
    cbn zeta.
    pose proof (N.mod_lt n 10 ltac:(lia)) as Hmod.
    pose proof (N.div_mod' n 10) as Hdiv.
    set (r := (n mod 10)%N) in *. set (q := (n / 10)%N) in *.
    clearbody r q.
    assert (Hpow : forall k, (10 ^ N.of_nat (S k) = 10 * 10 ^ N.of_nat k)%N)
      by (intros k; by rewrite Nat2N.inj_succ, N.pow_succ_r').
    destruct (N.eqb_spec q 0) as [Hz | Hnz].
    + exists [(0x30 + r)%N].
      split; [done |]. split; [done |]. split; [| split].
      * constructor; [unfold Spec.isDigit; lia | constructor].
      * intros v. cbn [fold_left length].
        change (10 ^ N.of_nat 1)%N with 10%N. lia.
      * intros k Hk _. simpl. lia.
    + assert (Hn' : (q < 10 ^ N.of_nat (S fuel))%N)
        by (rewrite (Hpow (S fuel)) in Hn; lia).
      destruct (IH q ((0x30 + r)%N :: acc) Hn')
        as (ds & Heq & Hne & Hdig & Hval & Hlen).
      exists (ds ++ [(0x30 + r)%N]).
      split; [by rewrite Heq, <- app_assoc |].
      split; [by destruct ds |]. split; [| split].
      * apply Forall_app. split; [done |].
        constructor; [unfold Spec.isDigit; lia | constructor].
      * intros v. rewrite fold_left_app, Hval. cbn [fold_left].
        rewrite length_app. cbn [length].
        replace (length ds + 1)%nat with (S (length ds)) by lia.
        rewrite Hpow. lia.
      * intros k Hk Hnk. rewrite length_app. cbn [length].
        destruct k as [| k]; [lia |].
        destruct k as [| k].
        { change (10 ^ N.of_nat 1)%N with 10%N in Hnk. lia. }
        assert (length ds <= S k)%nat; [| lia].
        apply Hlen; [lia |]. rewrite (Hpow (S k)) in Hnk. lia.
Qed.

(** [numberToString] writes the decimal numeral of its argument. *)
Lemma numberToString_spec (n : N) :
  DataConverter.numberToString n <> []
  /\ Forall Spec.isDigit (DataConverter.numberToString n)
  /\ Spec.decimal (DataConverter.numberToString n) = n
  /\ (forall k, (0 < k)%nat -> (n < 10 ^ N.of_nat k)%N ->
        (length (DataConverter.numberToString n) <= k)%nat).
Proof.
  unfold DataConverter.numberToString.
  assert (Hn : (n < 10 ^ N.of_nat (S (N.to_nat (N.log2 n))))%N).
  { rewrite Nat2N.inj_succ, N2Nat.id.
    destruct (N.eq_dec n 0%N) as [-> | Hpos]; [done |].
    destruct (N.log2_spec n ltac:(lia)) as [_ Hlt].
    eapply N.lt_le_trans; [exact Hlt |].
    apply N.pow_le_mono_l. lia. }
  destruct (digitsFrom_spec _ n [] Hn) as (ds & -> & Hne & Hdig & Hval & Hlen).
  rewrite app_nil_r. split; [done |]. split; [done |]. split; [| done].
  unfold Spec.decimal. rewrite Hval. lia.
Qed.

Lemma padStart0_spec (n : nat) (s : jsstring) :
  exists zeros,
    DataConverter.padStart0 n s = zeros ++ s
    /\ Forall (eq 0x30%N) zeros
    /\ length (zeros ++ s) = Nat.max n (length s).
Proof.
  exists (repeat 0x30%N (n - length s)). split; [done |]. split.
  - apply List.Forall_forall. intros c Hc. by apply repeat_spec in Hc.
  - rewrite length_app, repeat_length. lia.
Qed.

Lemma decimal_zeros (zeros ds : jsstring) :
  Forall (eq 0x30%N) zeros -> Spec.decimal (zeros ++ ds) = Spec.decimal ds.
Proof.
  intros H. unfold Spec.decimal. rewrite fold_left_app. f_equal.
  induction H as [| c r <- _ IH]; [done |]. exact IH.
Qed.

(** X22.  The ids that [generatePersonId] makes.  For an original id that
    is neither empty nor the dash, the id is [P-] and the original id,
    padded with zeros in front to six code units, whatever the name.
    Without one, the id is [P-] and exactly six decimal digits, which
    write the hash of the name modulo 1000000; for a person without a name
    the call throws. *)
Theorem generatePersonId_format (originalId name : option jsstring)
    (o str : jsstring) :
  (o <> [] -> o <> DataConverter.DASH ->
   exists zeros,
     DataConverter.generatePersonId (Some o) name
     = Normal (lit "P-" ++ zeros ++ o)
     /\ Forall (eq 0x30%N) zeros
     /\ length (zeros ++ o) = Nat.max 6%nat (length o))
  /\ (truthy originalId = false \/ originalId = Some DataConverter.DASH ->
      (exists digits,
         DataConverter.generatePersonId originalId (Some str)
         = Normal (lit "P-" ++ digits)
         /\ length digits = 6%nat
         /\ Forall Spec.isDigit digits
         /\ Z.of_N (Spec.decimal digits)
            = (DataConverter.hashString str mod 1000000)%Z)
      /\ DataConverter.generatePersonId originalId None = Throw).
Proof.
  split.
  - intros Hne Hdash. unfold DataConverter.generatePersonId.
    replace (truthy (Some o)) with true by (by destruct o).
    change (default [] (Some o)) with o.
    apply eqb_false in Hdash. rewrite Hdash. cbn [andb negb].
    destruct (padStart0_spec 6 o) as (zeros & -> & Hz & Hlen).
    by exists zeros.
  - intros Habsent.
    assert (Hcond : truthy originalId
                    && negb (Js.eqb (default [] originalId) DataConverter.DASH)
                    = false).
    { destruct Habsent as [-> | ->]; [done |].
      change (default [] (Some DataConverter.DASH)) with DataConverter.DASH.
      rewrite eqb_refl. apply andb_false_r. }
    unfold DataConverter.generatePersonId. rewrite Hcond. split; [| done].
    set (n := Z.to_N (DataConverter.hashString str mod 1000000)).
    assert (Hn : (n < 10 ^ N.of_nat 6)%N).
    { change (10 ^ N.of_nat 6)%N with 1000000%N. subst n.
      pose proof (Z.mod_pos_bound (DataConverter.hashString str) 1000000
                    ltac:(lia)). lia. }
    destruct (numberToString_spec n) as (Hne & Hdig & Hval & Hlen).
    destruct (padStart0_spec 6 (DataConverter.numberToString n))
      as (zeros & Heq & Hz & Hlen6).
    exists (zeros ++ DataConverter.numberToString n).
    rewrite Heq. split; [done |]. split; [| split].
    + rewrite Hlen6. pose proof (Hlen 6%nat ltac:(lia) Hn). lia.
    + apply Forall_app. split; [| done].
      eapply List.Forall_impl; [| exact Hz].
      intros c <-. unfold Spec.isDigit. lia.
    + rewrite decimal_zeros, Hval by done. subst n.
      pose proof (Z.mod_pos_bound (DataConverter.hashString str) 1000000
                    ltac:(lia)). lia.
Qed.

Lemma generatePersonId_format_witness :
  (exists zeros,
     DataConverter.generatePersonId (Some (lit "12")) None
     = Normal (lit "P-" ++ zeros ++ lit "12")
     /\ Forall (eq 0x30%N) zeros
     /\ length (zeros ++ lit "12") = Nat.max 6%nat 2%nat)
  /\ DataConverter.generatePersonId None None = Throw.
Proof.
  destruct (generatePersonId_format None None (lit "12") (lit "omar"))
    as [Hid Hhash].
  split.
  - apply Hid; discriminate.
  - apply Hhash. by left.
Defined.

(** Padding makes different original ids collide. *)
Remark generatePersonId_collision (name : option jsstring) :
  DataConverter.generatePersonId (Some (lit "7")) name
  = DataConverter.generatePersonId (Some (lit "007")) name.
Proof. reflexivity. Qed.

(** ** [calculateNameSimilarity], [isSamePerson] and [addPerson] *)

Lemma splitSpaces_nonempty (s : jsstring) : splitSpaces s <> [].
Proof.
  induction s as [| c r IH]; [done |]. cbn [splitSpaces].
  destruct (isSpace c).
  - destruct r as [| c' r']; [done |]. by destruct (isSpace c').
  - by destruct (splitSpaces r).
Qed.

Lemma countMatches_le (words1 words2 : list jsstring) :
  (DataConverter.countMatches words1 words2 <= length words1)%nat.
Proof. unfold DataConverter.countMatches. apply filter_length_le. Qed.

Lemma countMatches_refl (words : list jsstring) :
  DataConverter.countMatches words words = length words.
Proof.
  unfold DataConverter.countMatches. f_equal. apply filter_id.
  intros w Hw. apply existsb_exists. exists w. split; [done |].
  unfold DataConverter.wordsMatch. by rewrite eqb_refl.
Qed.

Lemma ratio_range (m t : nat) :
  (m <= t)%nat -> (0 < t)%nat ->
  0 <= inject_Z (Z.of_nat m) / inject_Z (Z.of_nat t) <= 1.
Proof.
  intros Hm Ht.
  assert (Hpos : 0 < inject_Z (Z.of_nat t))
    by (change 0 with (inject_Z 0); rewrite <- Zlt_Qlt; lia).
  split.
  - apply Qle_shift_div_l; [done |]. rewrite Qmult_0_l.
    change 0 with (inject_Z 0). rewrite <- Zle_Qle. lia.
  - apply Qle_shift_div_r; [done |]. rewrite Qmult_1_l.
    rewrite <- Zle_Qle. lia.
Qed.

Lemma ratio_one (t : nat) :
  (0 < t)%nat -> inject_Z (Z.of_nat t) / inject_Z (Z.of_nat t) == 1.
Proof.
  intros Ht. apply Qmult_inv_r. intros H.
  unfold Qeq in H. simpl in H. lia.
Qed.

Section Similarity.
Variable toLowerCase : jsstring -> jsstring.

Lemma calculateNameSimilarity_empty (name1 name2 : jsstring) :
  name1 = [] \/ name2 = [] ->
  DataConverter.calculateNameSimilarity toLowerCase name1 name2 = 0.
Proof. intros [-> | ->]; [done | by destruct name1]. Qed.

Lemma calculateNameSimilarity_refl (name : jsstring) :
  name <> [] ->
  DataConverter.calculateNameSimilarity toLowerCase name name == 1.
Proof.
  intros Hne. destruct name as [| c r]; [done |].
  unfold DataConverter.calculateNameSimilarity.
  rewrite countMatches_refl, Nat.max_id. apply ratio_one.
  pose proof (splitSpaces_nonempty (toLowerCase (c :: r))).
  destruct (splitSpaces _); [done | simpl; lia].
Qed.

(** X23.  [calculateNameSimilarity] is a number between 0 and 1; it is 0
    when one of the names is empty, and 1 for a name that is not empty and
    itself. *)
Theorem calculateNameSimilarity_range (name1 name2 : jsstring) :
  0 <= DataConverter.calculateNameSimilarity toLowerCase name1 name2 <= 1
  /\ (name1 = [] \/ name2 = [] ->
      DataConverter.calculateNameSimilarity toLowerCase name1 name2 = 0)
  /\ (name1 <> [] ->
      DataConverter.calculateNameSimilarity toLowerCase name1 name1 == 1).
Proof.
  split; [| split;
             [apply calculateNameSimilarity_empty
             | apply calculateNameSimilarity_refl]].
  destruct name1 as [| c1 r1]; [done |]. destruct name2 as [| c2 r2]; [done |].
  unfold DataConverter.calculateNameSimilarity.
  apply ratio_range.
  - pose proof (countMatches_le (splitSpaces (toLowerCase (c1 :: r1)))
                  (splitSpaces (toLowerCase (c2 :: r2)))). lia.
  - pose proof (splitSpaces_nonempty (toLowerCase (c1 :: r1))).
    destruct (splitSpaces (toLowerCase (c1 :: r1))); [done | simpl; lia].
Qed.

Lemma existsb_false {A} (l : list A) : existsb (fun _ => false) l = false.
Proof. by induction l. Qed.

Lemma isSamePerson_no_altNames (person1 person2 : Person) :
  altNames person1 = [] \/ altNames person2 = [] ->
  DataConverter.isSamePerson toLowerCase person1 person2 = false.
Proof.
  intros H. unfold DataConverter.isSamePerson.
  destruct (negb _); [done |]. destruct (_ && _); [done |].
  destruct H as [-> | ->]; [done |]. apply existsb_false.
Qed.

(** X24.  [isSamePerson] never holds when one of the two persons has no
    alternative names, nor when both have a birth year other than 0 and
    the years are more than two apart.  A person is the same as itself
    exactly when its name is not empty and one of its alternative names is
    not empty. *)
Theorem isSamePerson_properties (person1 person2 person : Person) :
  (altNames person1 = [] \/ altNames person2 = [] ->
   DataConverter.isSamePerson toLowerCase person1 person2 = false)
  /\ (forall y1 y2 : Z,
        birthYear person1 = Some y1 -> birthYear person2 = Some y2 ->
        y1 <> 0%Z -> y2 <> 0%Z -> (2 < Z.abs (y1 - y2))%Z ->
        DataConverter.isSamePerson toLowerCase person1 person2 = false)
  /\ (DataConverter.isSamePerson toLowerCase person person = true
      <-> name person <> []
          /\ exists altName, In altName (altNames person) /\ altName <> []).
Proof.
  split; [apply isSamePerson_no_altNames |]. split.
  - intros y1 y2 H1 H2 Hy1 Hy2 Hfar. unfold DataConverter.isSamePerson.
    destruct (negb _); [done |]. rewrite H1, H2.
    cbn [DataConverter.truthyYear].
    change (default 0%Z (Some y1)) with y1.
    change (default 0%Z (Some y2)) with y2.
    apply Z.eqb_neq in Hy1, Hy2. rewrite Hy1, Hy2.
    apply Z.ltb_lt in Hfar. by rewrite Hfar.
  - unfold DataConverter.isSamePerson. split.
    + destruct (negb (Qle_bool (8 # 10) _)) eqn:Hname; [done |].
      destruct (_ && _); [done |]. intros Halt. split.
      * intros Hempty.
        rewrite (calculateNameSimilarity_empty (name person) (name person))
          in Hname by (by left). done.
      * apply existsb_exists in Halt as (altName1 & Hin1 & Halt).
        apply existsb_exists in Halt as (altName2 & Hin2 & Halt).
        exists altName1. split; [done |]. intros ->.
        by rewrite (calculateNameSimilarity_empty [] altName2) in Halt
          by (by left).
    + intros (Hname & altName & Hin & Hne).
      assert (H8 : Qle_bool (8 # 10)
                     (DataConverter.calculateNameSimilarity toLowerCase
                        (name person) (name person)) = true).
      { apply Qle_bool_iff. by rewrite calculateNameSimilarity_refl. }
      rewrite H8. cbn [negb].
      replace (_ && _ && _) with false.
      * apply existsb_exists. exists altName. split; [done |].
        apply existsb_exists. exists altName. split; [done |].
        apply negb_true_iff. apply not_true_is_false. intros H9.
        apply Qle_bool_iff in H9.
        rewrite calculateNameSimilarity_refl in H9 by done. done.
      * symmetry. apply andb_false_iff. right.
        rewrite Z.sub_diag. reflexivity.
Qed.

(** ** [addPerson] *)

Lemma mapHas_In {V} (m : list (jsstring * V)) (key : jsstring) :
  DataConverter.mapHas m key = true <-> In key (List.map fst m).
Proof.
  unfold DataConverter.mapHas. rewrite existsb_exists, in_map_iff. split.
  - intros (e & He & Hk). apply eqb_true in Hk. by exists e.
  - intros (e & Hk & He). exists e. split; [done |]. by apply eqb_true.
Qed.

Lemma mapSet_keys {V} (m : list (jsstring * V)) (key : jsstring) (v : V) :
  List.map fst (DataConverter.mapSet m key v)
  = if DataConverter.mapHas m key then List.map fst m
    else List.map fst m ++ [key].
Proof.
  induction m as [| [k v0] r IH]; [done |].
  cbn [DataConverter.mapSet]. unfold DataConverter.mapHas in *.
  cbn [existsb fst]. destruct (Js.eqb k key) eqn:E; [done |].
  cbn [List.map fst orb]. rewrite IH. by destruct (existsb _ r).
Qed.

Lemma In_mapSet {V} (m : list (jsstring * V)) (key : jsstring) (v : V)
    (k : jsstring) (x : V) :
  In (k, x) (DataConverter.mapSet m key v) ->
  (k = key /\ x = v) \/ In (k, x) m.
Proof.
  induction m as [| [k0 v0] r IH]; simpl.
  - intros [[= <- <-] | []]. by left.
  - destruct (Js.eqb k0 key) eqn:E.
    + apply eqb_true in E. subst k0. intros [[= <- <-] | H]; [by left |].
      right. by right.
    + intros [H | H]; [right; by left |].
      destruct (IH H) as [? | ?]; [by left | right; by right].
Qed.

Lemma mapGet_mapSet {V} (m : list (jsstring * V)) (key : jsstring) (v : V) :
  DataConverter.mapGet (DataConverter.mapSet m key v) key = Some v.
Proof.
  unfold DataConverter.mapGet. induction m as [| [k0 v0] r IH]; simpl.
  - by rewrite eqb_refl.
  - destruct (Js.eqb k0 key) eqn:E; simpl; by rewrite ?E.
Qed.

(** X25.  [addPerson] keeps the keys of the people map distinct and each
    the id of its person.  Either some person of the map is the same
    person as the new one, and then the map of people is left alone and
    the id of the new person becomes an alias of one such person; or none
    is, and then the aliases are left alone and the new person is stored
    under its id.  A person without alternative names is always stored. *)
Theorem addPerson_properties (person : Person) (c : DataConverter.Converter) :
  let c' := DataConverter.addPerson toLowerCase person c in
  (Spec.keyedById (DataConverter.cPeople c) ->
   Spec.keyedById (DataConverter.cPeople c'))
  /\ (List.NoDup (List.map fst (DataConverter.cPeople c)) ->
      List.NoDup (List.map fst (DataConverter.cPeople c')))
  /\ ((exists existingPerson,
         In existingPerson (DataConverter.mapValues (DataConverter.cPeople c))
         /\ DataConverter.isSamePerson toLowerCase person existingPerson = true
         /\ DataConverter.cPeople c' = DataConverter.cPeople c
         /\ DataConverter.mapGet (DataConverter.cAliases c') (id person)
            = Some (id existingPerson))
      \/ ((forall existingPerson,
             In existingPerson
               (DataConverter.mapValues (DataConverter.cPeople c)) ->
             DataConverter.isSamePerson toLowerCase person existingPerson
             = false)
          /\ DataConverter.cAliases c' = DataConverter.cAliases c
          /\ DataConverter.mapGet (DataConverter.cPeople c') (id person)
             = Some person))
  /\ (altNames person = [] ->
      DataConverter.cAliases c' = DataConverter.cAliases c
      /\ DataConverter.mapGet (DataConverter.cPeople c') (id person)
         = Some person).
Proof.
  cbn zeta. unfold DataConverter.addPerson, DataConverter.findDuplicatePerson.
  destruct (find _ _) as [existingPerson |] eqn:Hfind.
  - apply find_some in Hfind as [Hin Hsame]. cbn [DataConverter.cPeople
      DataConverter.cAliases].
    split; [done |]. split; [done |]. split.
    + left. exists existingPerson. split; [done |]. split; [done |].
      split; [done |]. apply mapGet_mapSet.
    + intros Hno.
      by rewrite (isSamePerson_no_altNames person existingPerson) in Hsame
        by (by left).
  - cbn [DataConverter.cPeople DataConverter.cAliases].
    split; [| split; [| split]].
    + intros Hkeys key p Hp. apply In_mapSet in Hp as [[-> ->] | Hp]; [done |].
      by apply Hkeys.
    + intros Hnodup. rewrite mapSet_keys.
      destruct (DataConverter.mapHas _ _) eqn:Hhas; [done |].
      apply List.NoDup_app; [done | |].
      * repeat constructor. by intros [].
      * intros k Hk [<- | []].
        apply mapHas_In in Hk. by rewrite Hk in Hhas.
    + right. split; [| split; [done | apply mapGet_mapSet]].
      intros e He. by apply (find_none _ _ Hfind).
    + intros _. split; [done | apply mapGet_mapSet].
Qed.

End Similarity.

Lemma calculateNameSimilarity_range_witness :
  DataConverter.calculateNameSimilarity CognitiveSearch.asciiLower
    (lit "Omar Ali") (lit "Omar Ali") == 1
  /\ DataConverter.calculateNameSimilarity CognitiveSearch.asciiLower
       (lit "Omar Ali") [] = 0.
Proof.
  split.
  - apply (calculateNameSimilarity_range CognitiveSearch.asciiLower
             (lit "Omar Ali") []).
    discriminate.
  - apply (calculateNameSimilarity_range CognitiveSearch.asciiLower
             (lit "Omar Ali") []).
    by right.
Defined.

Lemma isSamePerson_properties_witness :
  DataConverter.isSamePerson CognitiveSearch.asciiLower Sample.father
    Sample.father = false
  /\ DataConverter.isSamePerson CognitiveSearch.asciiLower Sample.father
       {| id := lit "P-000030"; name := lit "omar"; altNames := [lit "omar"];
          gender := GenderM; birthYear := Some 1950%Z; deathYear := None;
          fatherId := None; motherId := None; spouseIds := None;
          sourceRefs := [] |} = false.
Proof.
  split.
  - apply (isSamePerson_properties CognitiveSearch.asciiLower Sample.father
             Sample.father Sample.father).
    by left.
  - apply (isSamePerson_properties CognitiveSearch.asciiLower Sample.father
             {| id := lit "P-000030"; name := lit "omar";
                altNames := [lit "omar"]; gender := GenderM;
                birthYear := Some 1950%Z; deathYear := None;
                fatherId := None; motherId := None; spouseIds := None;
                sourceRefs := [] |} Sample.father)
      with (y1 := 1900%Z) (y2 := 1950%Z);
      [reflexivity | reflexivity | discriminate | discriminate | reflexivity].
Defined.

Lemma addPerson_properties_witness :
  DataConverter.mapGet
    (DataConverter.cPeople
       (DataConverter.addPerson CognitiveSearch.asciiLower Sample.father
          {| DataConverter.cPeople := [(lit "P-000010", Sample.father)];
             DataConverter.cAliases := [] |}))
    (lit "P-000010") = Some Sample.father
  /\ List.NoDup
       (List.map fst
          (DataConverter.cPeople
             (DataConverter.addPerson CognitiveSearch.asciiLower Sample.mother
                {| DataConverter.cPeople := [(lit "P-000010", Sample.father)];
                   DataConverter.cAliases := [] |}))).
Proof.
  split.
  - apply (addPerson_properties CognitiveSearch.asciiLower Sample.father
             {| DataConverter.cPeople := [(lit "P-000010", Sample.father)];
                DataConverter.cAliases := [] |}).
    reflexivity.
  - apply (addPerson_properties CognitiveSearch.asciiLower Sample.mother
             {| DataConverter.cPeople := [(lit "P-000010", Sample.father)];
                DataConverter.cAliases := [] |}).
    repeat constructor. by intros [].
Defined.

(** The similarity is not symmetric: it counts the words of the first
    name that have a match. *)
Remark calculateNameSimilarity_asymmetric :
  DataConverter.calculateNameSimilarity CognitiveSearch.asciiLower
    (lit "omar omar") (lit "omar") == 1
  /\ DataConverter.calculateNameSimilarity CognitiveSearch.asciiLower
       (lit "omar") (lit "omar omar") == 1 # 2.
Proof. split; reflexivity. Qed.

(** ** [validateRelationships] *)

Lemma validateRelationships_keys (people : list (jsstring * Person)) :
  List.map fst (DataConverter.validateRelationships people)
  = List.map fst people.
Proof.
  unfold DataConverter.validateRelationships. rewrite List.map_map.
  by apply map_ext.
Qed.

Lemma mapHas_validateRelationships (people : list (jsstring * Person))
    (key : jsstring) :
  DataConverter.mapHas (DataConverter.validateRelationships people) key
  = DataConverter.mapHas people key.
Proof.
  apply eq_true_iff_eq. by rewrite !mapHas_In, validateRelationships_keys.
Qed.

(** What one round of the loop leaves of the references of a person. *)
Lemma validatePerson_refs (people : list (jsstring * Person)) (p : Person)
    (r : jsstring) :
  In r (personRefs (DataConverter.validatePerson people p)) ->
  In r (personRefs p) /\ r <> id p
  /\ (r <> [] -> DataConverter.mapHas people r = true).
Proof.
  assert (Href : forall x : ref,
    (if refIs (if truthy x && negb (DataConverter.mapHas people (default [] x))
               then None else x) (id p)
     then None
     else if truthy x && negb (DataConverter.mapHas people (default [] x))
          then None else x) = Some r ->
    x = Some r /\ r <> id p /\ (r <> [] -> DataConverter.mapHas people r = true)).
  { intros x. destruct x as [s |]; [| by destruct (refIs _ _)].
    change (default [] (Some s)) with s.
    destruct (truthy (Some s) && negb (DataConverter.mapHas people s)) eqn:E;
      [by destruct (refIs _ _) |].
    destruct (refIs (Some s) (id p)) eqn:Hself; [done |].
    intros [= ->]. split; [done |]. split.
    - intros ->. simpl in Hself. by rewrite eqb_refl in Hself.
    - intros Hne. destruct r; [done |]. simpl in E.
      by apply negb_false_iff in E. }
  rewrite !in_personRefs. unfold DataConverter.validatePerson.
  cbn [fatherId motherId spouseIds id].
  intros [H | [H | (ids & Hs & Hin)]].
  - apply Href in H as (H & ? & ?). split; [by left | done].
  - apply Href in H as (H & ? & ?). split; [right; by left | done].
  - destruct (spouseIds p) as [ids0 |]; [| discriminate].
    injection Hs as <-.
    apply filter_In in Hin as [Hin Hself].
    apply filter_In in Hin as [Hin Hhas].
    apply negb_true_iff, eqb_false in Hself.
    split; [right; right; by exists ids0 | done].
Qed.

Lemma validatePerson_fixed (people : list (jsstring * Person)) (p : Person) :
  (forall r, In r (personRefs p) ->
     r <> id p /\ (r <> [] -> DataConverter.mapHas people r = true)) ->
  (forall ids r, spouseIds p = Some ids -> In r ids ->
     DataConverter.mapHas people r = true) ->
  DataConverter.validatePerson people p = p.
Proof.
  intros Hrefs Hspouses. destruct p as [i n a g b d f m s sr].
  unfold DataConverter.validatePerson. cbn [fatherId motherId spouseIds id
    name altNames gender birthYear deathYear sourceRefs] in *.
  assert (Href : forall x : ref,
    (forall r, x = Some r ->
       r <> i /\ (r <> [] -> DataConverter.mapHas people r = true)) ->
    (if refIs (if truthy x && negb (DataConverter.mapHas people (default [] x))
               then None else x) i
     then None
     else if truthy x && negb (DataConverter.mapHas people (default [] x))
          then None else x) = x).
  { intros [r |] Hx; [| done]. destruct (Hx r eq_refl) as [Hne Hhas].
    change (default [] (Some r)) with r.
    replace (truthy (Some r) && negb (DataConverter.mapHas people r))
      with false.
    - simpl. apply eqb_false in Hne. by rewrite Hne.
    - symmetry. destruct r; [done |]. simpl. by rewrite Hhas. }
  f_equal.
  - apply Href. intros r ->. apply Hrefs. rewrite in_personRefs. by left.
  - apply Href. intros r ->. apply Hrefs. rewrite in_personRefs.
    right. by left.
  - destruct s as [ids |]; [| done]. f_equal.
    rewrite (filter_id (fun i0 => DataConverter.mapHas people i0)).
    + apply filter_id. intros r Hr. apply negb_true_iff, eqb_false.
      apply Hrefs. rewrite in_personRefs. right. right. by exists ids.
    + intros r Hr. by apply (Hspouses ids).
Qed.

Lemma validatePerson_spouses (people : list (jsstring * Person)) (p : Person)
    (ids : list jsstring) (r : jsstring) :
  spouseIds (DataConverter.validatePerson people p) = Some ids -> In r ids ->
  DataConverter.mapHas people r = true.
Proof.
  unfold DataConverter.validatePerson. cbn [spouseIds].
  destruct (spouseIds p) as [ids0 |]; [| discriminate].
  intros [= <-] Hin. apply filter_In in Hin as [Hin _].
  by apply filter_In in Hin as [_ Hin].
Qed.

(** X26.  [validateRelationships] keeps the keys of the map.  Afterwards
    no person refers to itself, and every id that a person refers to is a
    key of the map, the empty string apart (which the code takes for no
    parent); a second pass changes nothing.  When every key is the id of
    its person and no parent field holds the empty string, the people of
    the map satisfy the invariant of the person records. *)
Theorem validateRelationships_valid (people : list (jsstring * Person)) :
  let validated := DataConverter.validateRelationships people in
  List.map fst validated = List.map fst people
  /\ (forall key p, In (key, p) validated ->
        forall r, In r (personRefs p) ->
          r <> id p /\ (r <> [] -> DataConverter.mapHas people r = true))
  /\ DataConverter.validateRelationships validated = validated
  /\ (Spec.keyedById people ->
      (forall key p, In (key, p) people ->
         fatherId p <> Some [] /\ motherId p <> Some []) ->
      personsValid
        {| people := DataConverter.mapValues validated;
           aliases := []; marriages := [] |}).
Proof.
  cbn zeta.
  assert (Hrefs : forall key p,
            In (key, p) (DataConverter.validateRelationships people) ->
            exists p0, In (key, p0) people
              /\ p = DataConverter.validatePerson people p0).
  { intros key p Hin. unfold DataConverter.validateRelationships in Hin.
    apply in_map_iff in Hin as ([k p0] & [= <- <-] & Hin). by exists p0. }
  split; [apply validateRelationships_keys |]. split; [| split].
  - intros key p Hin r Hr. apply Hrefs in Hin as (p0 & _ & ->).
    by apply validatePerson_refs in Hr as (_ & ? & ?).
  - unfold DataConverter.validateRelationships at 1.
    rewrite <- (map_id (DataConverter.validateRelationships people)) at 2.
    apply map_ext_in. intros [key p] Hin. cbn [fst snd]. f_equal.
    apply Hrefs in Hin as (p0 & _ & ->).
    apply validatePerson_fixed.
    + intros r Hr. rewrite mapHas_validateRelationships.
      by apply validatePerson_refs in Hr as (_ & ? & ?).
    + intros ids r Hs Hr. rewrite mapHas_validateRelationships.
      by apply (validatePerson_spouses people p0 ids).
  - intros Hkeys Hparents q Hq r Hr.
    unfold DataConverter.mapValues in Hq. cbn [Model.people] in Hq.
    apply in_map_iff in Hq as ([key q'] & Hsnd & Hq). cbn [snd] in Hsnd.
    subst q'. destruct (Hrefs key q Hq) as (p0 & Hp0 & ->).
    assert (Hhas : DataConverter.mapHas people r = true).
    { destruct (validatePerson_refs people p0 r Hr) as (Hin & _ & Hhas).
      destruct r as [| c r']; [| by apply Hhas].
      apply in_personRefs in Hin as [Hf | [Hm | (ids & Hs & Hin)]].
      - by destruct (Hparents key p0 Hp0) as [H _].
      - by destruct (Hparents key p0 Hp0) as [_ H].
      - destruct (in_personRefs (DataConverter.validatePerson people p0) [])
          as [Hrefs' _].
        destruct (Hrefs' Hr) as [Hf | [Hm | (ids' & Hs' & Hin')]].
        + exfalso. revert Hf. unfold DataConverter.validatePerson.
          cbn [fatherId id]. destruct (fatherId p0) as [[| ? ?] |] eqn:Ef;
            [by destruct (Hparents key p0 Hp0) as [H _] | |].
          * destruct (_ && _); by destruct (refIs _ _).
          * by destruct (refIs _ _).
        + exfalso. revert Hm. unfold DataConverter.validatePerson.
          cbn [motherId id]. destruct (motherId p0) as [[| ? ?] |] eqn:Em;
            [by destruct (Hparents key p0 Hp0) as [_ H] | |].
          * destruct (_ && _); by destruct (refIs _ _).
          * by destruct (refIs _ _).
        + by apply (validatePerson_spouses people p0 ids'). }
    split.
    + apply mapHas_In, in_map_iff in Hhas as ([k p1] & Hk & Hin1).
      cbn [fst] in Hk. subst k.
      exists (DataConverter.validatePerson people p1). split.
      * cbn [Model.people]. unfold DataConverter.mapValues,
          DataConverter.validateRelationships. rewrite List.map_map.
        apply in_map_iff. by exists (r, p1).
      * cbn [DataConverter.validatePerson id]. symmetry. by apply Hkeys.
    + by apply validatePerson_refs in Hr as (_ & ? & _).
Qed.

Lemma validateRelationships_valid_witness :
  personsValid
    {| people :=
         DataConverter.mapValues
           (DataConverter.validateRelationships
              [(lit "P-000010", Sample.father);
               (lit "P-000020", Sample.orphan)]);
       aliases := []; marriages := [] |}.
Proof.
  apply (validateRelationships_valid
           [(lit "P-000010", Sample.father); (lit "P-000020", Sample.orphan)]).
  - intros key p [[= <- <-] | [[= <- <-] | []]]; reflexivity.
  - intros key p [[= <- <-] | [[= <- <-] | []]]; split; discriminate.
Defined.

(** The dangling father of the sample is removed, and so is the spouse
    of a person whose spouse is not in the map. *)
Example validateRelationships_sample :
  DataConverter.mapValues
    (DataConverter.validateRelationships
       [(lit "P-000010", Sample.father); (lit "P-000020", Sample.orphan)])
  = [ {| id := lit "P-000010"; name := lit "omar"; altNames := [];
         gender := GenderM; birthYear := Some 1900%Z; deathYear := None;
         fatherId := None; motherId := None; spouseIds := Some [];
         sourceRefs := [] |};
      Sample.person "P-000020" (lit "nour") None None ].
Proof. reflexivity. Qed.
